(** * Axiprop: a shallow embedding of [axiprop/lib.py]

    The propagators of [lib.py] advance a field, given slice by slice
    for every longitudinal wavenumber [kz], through vacuum: a Transverse
    Spectral Transform (TST), a multiplication by a spectral phase, and
    the inverse transform.

    Conventions of the embedding.
    - A numpy sample is an exact number: a real is an [R] of the
      Standard Library, a complex sample a pair of reals.  Rounding is
      not modelled; the [dtype] of an array is kept as a tag, because
      the entry points compare it.
    - An array keeps its leading axis as a list; the trailing axes of a
      slice are flattened in row-major order, as numpy stores them.
    - A Python exception is an [Err] result.
    - [scipy.special] and the array backend ([axiprop.backends]) are
      outside [lib.py]; they enter as the records [Special] and
      [Backend]. *)

From Stdlib Require Import Strings.String.
From Stdlib Require Import Reals Lra Lia List Bool Arith ZArith.
Import ListNotations.

Open Scope R_scope.

(** ** Complex samples *)

Definition C : Type := (R * R)%type.

Definition RtoC (x : R) : C := (x, 0).
Definition C0 : C := RtoC 0.
Definition C1 : C := RtoC 1.
(** Python's [1j]. *)
Definition Ci : C := (0, 1).

Definition Cre (z : C) : R := fst z.
Definition Cim (z : C) : R := snd z.

Definition Cplus (z w : C) : C := (fst z + fst w, snd z + snd w).
Definition Copp (z : C) : C := (- fst z, - snd z).
Definition Cminus (z w : C) : C := Cplus z (Copp w).
Definition Cmult (z w : C) : C :=
  (fst z * fst w - snd z * snd w, fst z * snd w + snd z * fst w).

(** A complex sample times, or over, a real one (numpy promotes the real
    operand; the imaginary part of the promoted value is zero). *)
Definition Cscale (r : R) (z : C) : C := (r * fst z, r * snd z).
Definition Cdiv_real (z : C) (r : R) : C := (fst z / r, snd z / r).

(** [np.exp] on a complex argument. *)
Definition Cexp (z : C) : C :=
  (exp (fst z) * cos (snd z), exp (fst z) * sin (snd z)).

(** [np.abs] on a complex sample: the amplitude of a mode. *)
Definition Cmod (z : C) : R := sqrt (fst z * fst z + snd z * snd z).

(** The unit phasor [exp(1j * t)]. *)
Definition cis (t : R) : C := (cos t, sin t).

Declare Scope C_scope.
Delimit Scope C_scope with C.
Bind Scope C_scope with C.
Infix "+" := Cplus : C_scope.
Infix "*" := Cmult : C_scope.
Infix "-" := Cminus : C_scope.
Notation "- z" := (Copp z) : C_scope.

Lemma C_ring_theory : ring_theory C0 C1 Cplus Cmult Cminus Copp (@eq C).
Proof.
  constructor; intros;
    repeat match goal with z : C |- _ => destruct z end;
    unfold C0, C1, RtoC, Cminus, Cplus, Cmult, Copp; simpl;
    try reflexivity; apply injective_projections; simpl; ring.
Qed.

Add Ring C_ring : C_ring_theory.

(** ** Python results and array types *)

(** The exceptions the modelled code can raise.  [BackendError] is the
    plain [Exception] of [init_backend]; an [UnboundLocalError] is
    counted with [NameError], whose subclass it is. *)
Inductive PyError : Type :=
| AssertionError
| IndexError
| NameError
| AttributeError
| TypeError
| ValueError
| BackendError.

Inductive Result (A : Type) : Type :=
| Ok (a : A)
| Err (e : PyError).

Arguments Ok {A} a.
Arguments Err {A} e.

Definition bind {A B : Type} (c : Result A) (k : A -> Result B) : Result B :=
  match c with
  | Ok a => k a
  | Err e => Err e
  end.

Notation "x <- c ;; k" := (bind c (fun x => k))
  (at level 61, c at next level, right associativity).
Notation "' pat <- c ;; k" := (bind c (fun x => match x with pat => k end))
  (at level 61, pat pattern, c at next level, right associativity).

(** [assert cond]. *)
Definition assert (cond : bool) : Result unit :=
  if cond then Ok tt else Err AssertionError.

(** The data types a field may carry. *)
Inductive DType : Type := complex64 | complex128 | float32 | float64.

Definition DType_eqb (a b : DType) : bool :=
  match a, b with
  | complex64, complex64 | complex128, complex128
  | float32, float32 | float64, float64 => true
  | _, _ => false
  end.

(** A vector of samples, a matrix by rows, and a field: its [dtype] and
    one flattened slice per wavenumber. *)
Abbreviation vec := (list C) (only parsing).
Abbreviation matrix := (list (list C)) (only parsing).

Record ndarray : Type := mk_ndarray {
  dtype : DType;
  data : list vec
}.

(** ** Elementwise and linear operations of the backend *)

Fixpoint zip_with {A B D : Type} (f : A -> B -> D) (l : list A) (m : list B)
  : list D :=
  match l, m with
  | a :: l', b :: m' => f a b :: zip_with f l' m'
  | _, _ => []
  end.

Definition Csum_list (l : list C) : C := fold_right Cplus C0 l.

(** [sum over k < n of f k]. *)
Definition Csum (n : nat) (f : nat -> C) : C := Csum_list (map f (seq 0 n)).

Definition dot (row v : vec) : C := Csum_list (zip_with Cmult row v).

(** Modelled from the spec: the callable made by [make_matmul] -- a
    matrix applied to a vector, [np.dot(a, b, out=c)]. *)
Definition matvec (M : matrix) (v : vec) : vec := map (fun row => dot row v) M.

(** [x[i] = v] on the leading axis. *)
Fixpoint set_nth {A : Type} (i : nat) (v : A) (l : list A) : list A :=
  match l, i with
  | [], _ => []
  | _ :: l', O => v :: l'
  | a :: l', S i' => a :: set_nth i' v l'
  end.

(** Sample [(m, n)] of a flattened [(_, Ny)] slice. *)
Definition at2 (Ny : nat) (v : vec) (m n : nat) : C := nth (m * Ny + n) v C0.

(** The flattened [(Nx, Ny)] slice with the given samples. *)
Definition tabulate2 (Nx Ny : nat) (f : nat -> nat -> C) : vec :=
  flat_map (fun p => map (f p) (seq 0 Ny)) (seq 0 Nx).

(** The twiddle factor [exp(s * 2j * pi * k * n / N)]. *)
Definition twiddle (s : R) (N k n : nat) : C :=
  cis (s * (2 * PI * INR k * INR n / INR N)).

(** Modelled from the spec: the callables made by [make_fft2] -- the
    direct two-dimensional discrete Fourier transform over the
    [(Nx, Ny)] grid and its inverse, in numpy's convention (the forward
    transform is unscaled, the inverse divides by [Nx * Ny]). *)
Definition fft2 (Nx Ny : nat) (v : vec) : vec :=
  tabulate2 Nx Ny (fun p q =>
    Csum Nx (fun m => Csum Ny (fun n =>
      at2 Ny v m n * (twiddle (-1) Nx p m * twiddle (-1) Ny q n))))%C.

Definition ifft2 (Nx Ny : nat) (v : vec) : vec :=
  tabulate2 Nx Ny (fun m n =>
    Cscale (/ INR (Nx * Ny))
      (Csum Nx (fun p => Csum Ny (fun q =>
        at2 Ny v p q * (twiddle 1 Nx m p * twiddle 1 Ny n q))))%C).

(** ** The array backend *)

(** Modelled from the spec: the backend's [to_device] and [to_host] are
    memory transfers.  Whether a transfer hands back a copy or the very
    array it was given is the backend's choice (a host-resident backend
    has nothing to move), so the record says which. *)
Record Backend : Type := mk_Backend {
  name : String.string;
  to_device_copies : bool
}.

(** [AVAILABLE_BACKENDS], [backend_strings_ordered] and the variable
    [AXIPROP_BACKEND] of the environment. *)
Record Registry : Type := mk_Registry {
  AVAILABLE_BACKENDS : list (String.string * Backend);
  backend_strings_ordered : list String.string;
  environ : option String.string
}.

Fixpoint lookup (s : String.string) (l : list (String.string * Backend))
  : option Backend :=
  match l with
  | [] => None
  | (k, b) :: l' => if String.eqb s k then Some b else lookup s l'
  end.

Definition is_available (reg : Registry) (s : String.string) : bool :=
  match lookup s (AVAILABLE_BACKENDS reg) with Some _ => true | None => false end.

Definition init_backend (reg : Registry) (backend : option String.string)
  : Result Backend :=
  backend_string <-
    match backend with
    | Some b => Ok b
    | None =>
      match environ reg with
      | Some b => Ok b
      | None =>
        match find (is_available reg) (backend_strings_ordered reg) with
        | Some b => Ok b
        | None => Err NameError
        end
      end
    end ;;
  match lookup backend_string (AVAILABLE_BACKENDS reg) with
  | Some bk => Ok bk
  | None => Err BackendError
  end.

(** ** The propagator object *)

(** The interface every propagator class implements: [TST] reads the
    buffer [u_loc] and fills [u_ht] (it returns [u_loc] as it leaves it,
    since a transform may work in place), [iTST] reads [u_ht] and fills
    [u_iht]. *)
Class Transform (T : Type) : Type := {
  TST : T -> vec -> vec * vec;
  iTST : T -> vec -> vec
}.

(** The attributes a constructor sets and no method changes. *)
Record Propagator (T : Type) : Type := mk_Propagator {
  self_dtype : DType;
  bcknd : Backend;
  kz : list R;
  kr2 : list R;
  (** [self.kx] and [self.ky], which only [init_xykxy_fft2] sets *)
  kxy : option (list R * list R);
  (** sizes of the shapes [shape_trns] and [shape_trns_new] *)
  shape_trns : nat;
  shape_trns_new : nat;
  trns : T
}.

Arguments self_dtype {T} _.
Arguments bcknd {T} _.
Arguments kz {T} _.
Arguments kr2 {T} _.
Arguments kxy {T} _.
Arguments shape_trns {T} _.
Arguments shape_trns_new {T} _.
Arguments trns {T} _.

(** The attributes the methods overwrite: the three working buffers and
    the state of a stepping session ([None]: attribute not set yet).
    [u_loc] is bound to what [to_device] returns for a row of the
    caller's array: a view of that row when the backend moves nothing.
    Every method binds [u_loc] anew before it transforms, so a view
    left by an earlier call is never read. *)
Inductive Buffer : Type :=
| Owned (v : vec)       (* an array of the propagator's own *)
| ArgRow (ikz : nat).   (* a view of row [ikz] of the caller's array *)

Record Scratch : Type := mk_Scratch {
  u_loc : Buffer;
  u_ht : vec;
  u_iht : vec;
  stepping_image : option (list vec);
  phase_loc : option (list vec);
  z_propagation : option R
}.

(** What a call can touch: the propagator's mutable attributes and the
    array the caller passed in. *)
Record World : Type := mk_World {
  scratch : Scratch;
  arg : ndarray
}.

Definition set_u_loc (v : Buffer) (s : Scratch) : Scratch :=
  mk_Scratch v (u_ht s) (u_iht s) (stepping_image s) (phase_loc s)
    (z_propagation s).
Definition set_u_ht (v : vec) (s : Scratch) : Scratch :=
  mk_Scratch (u_loc s) v (u_iht s) (stepping_image s) (phase_loc s)
    (z_propagation s).
Definition set_u_iht (v : vec) (s : Scratch) : Scratch :=
  mk_Scratch (u_loc s) (u_ht s) v (stepping_image s) (phase_loc s)
    (z_propagation s).
Definition set_stepping_image (a : list vec) (s : Scratch) : Scratch :=
  mk_Scratch (u_loc s) (u_ht s) (u_iht s) (Some a) (phase_loc s)
    (z_propagation s).
Definition set_phase_loc (a : list vec) (s : Scratch) : Scratch :=
  mk_Scratch (u_loc s) (u_ht s) (u_iht s) (stepping_image s) (Some a)
    (z_propagation s).
Definition set_z_propagation (z : R) (s : Scratch) : Scratch :=
  mk_Scratch (u_loc s) (u_ht s) (u_iht s) (stepping_image s) (phase_loc s)
    (Some z).

(** A method body: it runs in a world, ends with a value or an
    exception, and leaves a world behind either way. *)
Definition M (A : Type) : Type := World -> Result A * World.

Definition ret {A : Type} (a : A) : M A := fun w => (Ok a, w).
Definition raise {A : Type} (e : PyError) : M A := fun w => (Err e, w).
Definition bindM {A B : Type} (c : M A) (k : A -> M B) : M B :=
  fun w =>
    match c w with
    | (Ok a, w') => k a w'
    | (Err e, w') => (Err e, w')
    end.
Definition lift {A : Type} (r : Result A) : M A := fun w => (r, w).
Definition get_scratch : M Scratch := fun w => (Ok (scratch w), w).
Definition get_arg : M ndarray := fun w => (Ok (arg w), w).
Definition modify_scratch (f : Scratch -> Scratch) : M unit :=
  fun w => (Ok tt, mk_World (f (scratch w)) (arg w)).
Definition put_arg_data (d : list vec) : M unit :=
  fun w => (Ok tt, mk_World (scratch w) (mk_ndarray (dtype (arg w)) d)).

Notation "x <~ c ;; k" := (bindM c (fun x => k))
  (at level 61, c at next level, right associativity).
Notation "c ;;; k" := (bindM c (fun _ => k))
  (at level 61, right associativity).

(** [for i in l: a = body(i, a)]. *)
Fixpoint for_each {A : Type} (body : nat -> A -> M A) (l : list nat) (a : A)
  : M A :=
  match l with
  | [] => ret a
  | i :: l' => a' <~ body i a ;; for_each body l' a'
  end.

(** [range(n)]. *)
Definition range (n : nat) : list nat := seq 0 n.

(** [a[i]] on the leading axis. *)
Definition index {A : Type} (a : list A) (i : nat) : Result A :=
  match nth_error a i with
  | Some x => Ok x
  | None => Err IndexError
  end.

(** [a[i] = v] for a slice [v]: numpy copies the samples into row [i],
    repeating a single sample over the row, and refuses another shape. *)
Definition assign (a : list vec) (i : nat) (v : vec) : Result (list vec) :=
  old <- index a i ;;
  if length v =? length old then Ok (set_nth i v a)
  else if length v =? 1 then Ok (set_nth i (repeat (hd C0 v) (length old)) a)
  else Err ValueError.

(** [np.empty] and [np.zeros]: the samples of an empty array are
    arbitrary; the model fills them with zeros. *)
Definition zeros (rows n : nat) : list vec := repeat (repeat C0 n) rows.
Definition zeros_like (a : list vec) : list vec :=
  map (fun s => repeat C0 (length s)) a.

(** ** The spectral phase *)

(** [(x >= 0.)] as the number numpy multiplies with. *)
Definition ge0 (x : R) : R := if Rle_dec 0 x then 1 else 0.

(** [sqrt((phase_loc >= 0.) * phase_loc)] for
    [phase_loc = kz[ikz]**2 - kr2]: the policy of [step] and of the
    stepping session. *)
Definition clamp_phase (kzi k2 : R) : R :=
  let phase_loc := kzi ^ 2 - k2 in sqrt (ge0 phase_loc * phase_loc).

(** [sqrt(abs(kz[ikz]**2 - kr2))]: the policy of [steps] and [get_Ez]. *)
Definition abs_phase (kzi k2 : R) : R := sqrt (Rabs (kzi ^ 2 - k2)).

(** [exp(1j * dz * phase)]. *)
Definition phase_factor (dz : R) (phase : C) : C :=
  Cexp (Ci * RtoC dz * phase)%C.

(** [np.diff]. *)
Definition diff (z : list R) : list R := zip_with Rminus (tl z) z.

(** What a method hands back: an array it allocated, or the very array
    the caller passed in. *)
Inductive Returned : Type :=
| Fresh (a : ndarray)
| TheArgument.

(** The stack of fields [steps] returns, indexed by step, then by
    wavenumber. *)
Record ndarray3 : Type := mk_ndarray3 {
  dtype3 : DType;
  data3 : list (list vec)
}.

(** [getattr]: an attribute that was never set. *)
Definition attr {A : Type} (a : option A) : Result A :=
  match a with
  | Some x => Ok x
  | None => Err AttributeError
  end.

(** [a[i, j, :] = v]. *)
Definition assign3 (a : list (list vec)) (i j : nat) (v : vec)
  : Result (list (list vec)) :=
  row <- index a i ;;
  row' <- assign row j v ;;
  Ok (set_nth i row' a).

(** ** PropagatorCommon: the stepping methods *)

Section PropagatorCommon.

Context {T : Type} `{Transform T}.
Variable self : Propagator T.

Definition Nkz : nat := length (kz self).

(** [self.u_loc = self.bcknd.to_device(u[ikz,:]); self.TST()].  A
    transform that works in place on [u_loc] writes through to the
    caller's row when [u_loc] is a view of it.  The backend's transform
    rejects a slice whose size is not that of [shape_trns]. *)
Definition transform_slice (ikz : nat) : M unit :=
  u <~ get_arg ;;
  row <~ lift (index (data u) ikz) ;;
  let copies := to_device_copies (bcknd self) in
  modify_scratch (set_u_loc (if copies then Owned row else ArgRow ikz)) ;;;
  (if length row =? shape_trns self then ret tt else raise ValueError) ;;;
  let (row', ht) := TST (trns self) row in
  (if copies then modify_scratch (set_u_loc (Owned row'))
   else put_arg_data (set_nth ikz row' (data u))) ;;;
  modify_scratch (set_u_ht ht).

(** [self.u_ht *= self.bcknd.exp(1j * dz * phase)] for a real array
    [phase]. *)
Definition mul_phase (dz : R) (phase : list R) : M unit :=
  modify_scratch (fun s =>
    set_u_ht
      (zip_with (fun u ph => (u * phase_factor dz (RtoC ph))%C) (u_ht s) phase)
      s).

(** [self.iTST()]. *)
Definition inverse_transform : M unit :=
  modify_scratch (fun s => set_u_iht (iTST (trns self) (u_ht s)) s).

(** [target[ikz] = self.bcknd.to_host(self.u_iht)], where [target] is
    an array of the method's own ([Some]) or the caller's array. *)
Definition store (target : option (list vec)) (ikz : nat)
  : M (option (list vec)) :=
  s <~ get_scratch ;;
  match target with
  | Some d =>
    d' <~ lift (assign d ikz (u_iht s)) ;;
    ret (Some d')
  | None =>
    u <~ get_arg ;;
    d' <~ lift (assign (data u) ikz (u_iht s)) ;;
    put_arg_data d' ;;;
    ret None
  end.

Definition returned (dt : DType) (target : option (list vec)) : Returned :=
  match target with
  | Some d => Fresh (mk_ndarray dt d)
  | None => TheArgument
  end.

(** [step(u, dz, overwrite)]: the caller's [u] is the world's [arg]. *)
Definition step (dz : R) (overwrite : bool) : M Returned :=
  u <~ get_arg ;;
  lift (assert (DType_eqb (dtype u) (self_dtype self))) ;;;
  let u_step :=
    if overwrite then None else Some (zeros Nkz (shape_trns_new self)) in
  u_step <~ for_each (fun ikz u_step =>
      transform_slice ikz ;;;
      mul_phase dz (map (clamp_phase (nth ikz (kz self) 0)) (kr2 self)) ;;;
      inverse_transform ;;;
      store u_step ikz)
    (range Nkz) u_step ;;
  ret (returned (dtype u) u_step).

(** [steps(u, dz, z_axis)]. *)
Definition steps (dz z_axis : option (list R)) : M (option ndarray3) :=
  u <~ get_arg ;;
  lift (assert (DType_eqb (dtype u) (self_dtype self))) ;;;
  dz <~ lift (match z_axis with
              | Some z => z0 <- index z 0 ;; Ok (Some (z0 :: diff z))
              | None => Ok dz
              end) ;;
  match dz with
  | None => raise TypeError
  | Some dz =>
    let Nsteps := length dz in
    if Nsteps =? 0 then ret None else
    let u_steps := repeat (zeros Nkz (shape_trns_new self)) Nsteps in
    u_steps <~ for_each (fun ikz u_steps =>
        transform_slice ikz ;;;
        let ik_loc := map (abs_phase (nth ikz (kz self) 0)) (kr2 self) in
        for_each (fun i_step u_steps =>
            mul_phase (nth i_step dz 0) ik_loc ;;;
            inverse_transform ;;;
            s <~ get_scratch ;;
            lift (assign3 u_steps i_step ikz (u_iht s)))
          (range Nsteps) u_steps)
      (range Nkz) u_steps ;;
    ret (Some (mk_ndarray3 (dtype u) u_steps))
  end.

(** [initiate_stepping(u)]. *)
Definition initiate_stepping : M unit :=
  u <~ get_arg ;;
  lift (assert (DType_eqb (dtype u) (self_dtype self))) ;;;
  modify_scratch (set_stepping_image (zeros_like (data u))) ;;;
  modify_scratch (set_phase_loc (zeros_like (data u))) ;;;
  modify_scratch (set_z_propagation 0) ;;;
  for_each (fun ikz _ =>
      transform_slice ikz ;;;
      s <~ get_scratch ;;
      image <~ lift (a <- attr (stepping_image s) ;; assign a ikz (u_ht s)) ;;
      modify_scratch (set_stepping_image image) ;;;
      let phase :=
        map (fun k2 => RtoC (clamp_phase (nth ikz (kz self) 0) k2)) (kr2 self) in
      phases <~ lift (a <- attr (phase_loc s) ;; assign a ikz phase) ;;
      modify_scratch (set_phase_loc phases))
    (range Nkz) tt.

(** [stepping(dz, u_out)]: [u_out], when given, is the world's [arg]. *)
Definition stepping (dz : R) (u_out_given : bool) : M Returned :=
  let u_out :=
    if u_out_given then None else Some (zeros Nkz (shape_trns_new self)) in
  u_out <~ for_each (fun ikz u_out =>
      s <~ get_scratch ;;
      image <~ lift (attr (stepping_image s)) ;;
      row <~ lift (index image ikz) ;;
      phases <~ lift (attr (phase_loc s)) ;;
      phase <~ lift (index phases ikz) ;;
      let row' := zip_with (fun u ph => (u * phase_factor dz ph)%C) row phase in
      modify_scratch (set_stepping_image (set_nth ikz row' image)) ;;;
      modify_scratch (set_u_ht row') ;;;
      inverse_transform ;;;
      store u_out ikz)
    (range Nkz) u_out ;;
  s <~ get_scratch ;;
  z <~ lift (attr (z_propagation s)) ;;
  modify_scratch (set_z_propagation (z + dz)) ;;;
  ret (returned (self_dtype self) u_out).

(** [get_Ez(ux)]. *)
Definition get_Ez : M ndarray :=
  ux <~ get_arg ;;
  let uz := zeros_like (data ux) in
  kxy <~ lift (attr (kxy self)) ;;
  let kx_2d := flat_map (fun kxp => map (fun _ => kxp * 1) (snd kxy)) (fst kxy) in
  uz <~ for_each (fun ikz uz =>
      transform_slice ikz ;;;
      let kz_loc := map (abs_phase (nth ikz (kz self) 0)) (kr2 self) in
      let factor := zip_with (fun k kzl => - k / kzl) kx_2d kz_loc in
      modify_scratch (fun s =>
        set_u_ht (zip_with (fun u f => Cscale f u) (u_ht s) factor) s) ;;;
      inverse_transform ;;;
      s <~ get_scratch ;;
      lift (assign uz ikz (u_iht s)))
    (range Nkz) uz ;;
  ret (mk_ndarray (dtype ux) uz).

End PropagatorCommon.

(** ** Special functions and host inversion *)

(** [scipy.special]: [jn order x] is the Bessel function of the first
    kind, [jn_zeros order nt] its first [nt] positive zeros.  The record
    carries the three facts about them the development relies on. *)
Record Special : Type := mk_Special {
  jn : nat -> R -> R;
  jn_zeros : nat -> nat -> list R;
  jn_zeros_length : forall order nt, length (jn_zeros order nt) = nt;
  jn_zeros_positive : forall order nt z, In z (jn_zeros order nt) -> 0 < z;
  jn_origin : forall order, order <> 0%nat -> jn order 0 = 0
}.

(** [jn_zeros] as called: scipy refuses [nt <= 0]. *)
Definition jn_zeros_call (sp : Special) (order nt : nat) : Result (list R) :=
  if nt =? 0 then Err ValueError else Ok (jn_zeros sp order nt).

(** Modelled from the spec: the backend's [inv_sqr_on_host] (the
    stabilized inversion for mode order 0) and [inv_on_host] (the general
    one); each takes the real matrix and returns a matrix of the
    propagator's type.  Nothing is assumed about what they return. *)
Record Inversion : Type := mk_Inversion {
  inv_sqr_on_host : list (list R) -> matrix;
  inv_on_host : list (list R) -> matrix
}.

(** ** PropagatorCommon: the grids *)

(** [np.linspace(a, b, num)] and its [endpoint=False] form. *)
Definition linspace (a b : R) (num : nat) : list R :=
  map (fun k => a + INR k * ((b - a) / INR (num - 1))) (seq 0 num).
Definition linspace_open (a b : R) (num : nat) : list R :=
  map (fun k => a + INR k * ((b - a) / INR num)) (seq 0 num).

(** [np.fft.fftfreq(n, d)]: the bins [0, 1, ..., -(n//2), ..., -1] over
    [n * d]. *)
Definition fftfreq (n : nat) (d : R) : list R :=
  map (fun k => INR k * (1 / (INR n * d))) (seq 0 ((n + 1) / 2)) ++
  map (fun k => (INR k - INR (n / 2)) * (1 / (INR n * d))) (seq 0 (n / 2)).

(** [a.max()]; numpy refuses an empty array. *)
Definition array_max (a : list R) : Result R :=
  match a with
  | [] => Err ValueError
  | x :: a' => Ok (fold_left Rbasic_fun.Rmax a' x)
  end.

(** [a.mean()]. *)
Definition mean (a : list R) : R := fold_right Rplus 0 a / INR (length a).

Inductive kz_axis_t : Type :=
| KzTuple (k0 Lkz : R) (Nkz : nat)
| KzArray (kz : list R).

Inductive r_axis_t : Type :=
| RTuple (Rmax : R) (Nr : nat)
| RArray (r : list R).

(** [init_kz]: the attribute [kz] ([Nkz] is its size). *)
Definition init_kz (kz_axis : kz_axis_t) : list R :=
  match kz_axis with
  | KzTuple k0 Lkz Nkz =>
    let Nkz_2 := ((Nkz + 1) / 2)%nat in
    let half_ax := linspace 0 1 Nkz_2 in
    let full_ax := map Ropp (rev (tl half_ax)) ++ half_ax in
    map (fun a => k0 + Lkz / 2 * a) full_ax
  | KzArray kz => kz
  end.

(** What [init_kr] sets. *)
Record kr_grid : Type := mk_kr_grid {
  g_alpha_np1 : R;
  g_alpha : list R;
  g_kr : list R;
  g_kr2 : list R
}.

Definition init_kr (sp : Special) (mode : nat) (Rmax : R) (Nr : nat)
  : Result kr_grid :=
  alpha <- (if negb (mode =? 0)
            then z <- jn_zeros_call sp mode Nr ;; Ok (0 :: z)
            else jn_zeros_call sp mode (Nr + 1)) ;;
  let alpha_np1 := last alpha 0 in
  let alpha := removelast alpha in
  let kr := map (fun a => a / Rmax) alpha in
  Ok (mk_kr_grid alpha_np1 alpha kr (map (fun k => k ^ 2) kr)).

(** The radial grids: each returns [(r, Rmax, Nr)]. *)
Definition init_r_sampled (r_axis : list R) : Result (list R * R * nat) :=
  let r := r_axis in
  let Nr := length r in
  let dr_est := mean (zip_with Rminus (tl r) r) in
  m <- array_max r ;;
  Ok (r, m + dr_est / 2, Nr).

Definition init_r_symmetric (sp : Special) (mode : nat) (Rmax : R) (Nr : nat)
  : Result (list R * R * nat) :=
  alpha <- jn_zeros_call sp mode (Nr + 1) ;;
  let alpha_np1 := last alpha 0 in
  let alpha := removelast alpha in
  Ok (map (fun a => Rmax * a / alpha_np1) alpha, Rmax, Nr).

Definition init_r_uniform (Rmax : R) (Nr : nat) : Result (list R * R * nat) :=
  let r := linspace_open 0 Rmax Nr in
  r0 <- index r 0 ;;
  r1 <- index r 1 ;;
  let dr := Rbasic_fun.Rmax r0 r1 - Rbasic_fun.Rmin r0 r1 in
  Ok (map (fun x => x + 0.5 * dr) r, Rmax, Nr).

(** What [init_xykxy_fft2] sets. *)
Record xy_grid : Type := mk_xy_grid {
  g_Lx : R; g_Ly : R; g_Nx : nat; g_Ny : nat;
  g_x : list R; g_y : list R;
  g_r : list R; g_Nr : nat;
  g_krxy : list R; g_kr2xy : list R;
  g_kx : list R; g_ky : list R
}.

(** [sqrt(a[:,None]**2 + b[None,:]**2)], flattened. *)
Definition hypot_grid (a b : list R) : list R :=
  flat_map (fun ap => map (fun bq => sqrt (ap ^ 2 + bq ^ 2)) b) a.

Definition init_xykxy_fft2 (Lx : R) (Nx : nat) (Ly : R) (Ny : nat)
  : Result xy_grid :=
  let x := linspace (- Lx / 2) (Lx / 2) Nx in
  let y := linspace (- Ly / 2) (Ly / 2) Ny in
  x1 <- index x 1 ;; x0 <- index x 0 ;;
  let dx := x1 - x0 in
  y1 <- index y 1 ;; y0 <- index y 0 ;;
  let dy := y1 - y0 in
  let '(x, dx) := if (Nx =? 1) && (1 <? Ny) then ([0], dy) else (x, dx) in
  let '(y, dy) := if (Ny =? 1) && (1 <? Nx) then ([0], dx) else (y, dy) in
  let kx := map (fun f => 2 * PI * f) (fftfreq Nx dx) in
  let ky := map (fun f => 2 * PI * f) (fftfreq Ny dy) in
  let r := hypot_grid x y in
  let kr := hypot_grid kx ky in
  Ok (mk_xy_grid Lx Ly Nx Ny x y r (length r) kr (map (fun k => k ^ 2) kr) kx ky).

(** [self.bcknd.zeros(n, dtype)] for the three working buffers; no
    stepping session yet. *)
Definition init_buffers (n n_new : nat) : Scratch :=
  mk_Scratch (Owned (repeat C0 n)) (repeat C0 n) (repeat C0 n_new)
    None None None.

(** [to_device(M, dtype)] for a real matrix. *)
Definition to_dtype (Mx : list (list R)) : matrix := map (map RtoC) Mx.

(** ** PropagatorSymmetric *)

Module PropagatorSymmetric.

Record t : Type := mk {
  mode : nat;
  r : list R; Rmax : R; Nr : nat;
  alpha_np1 : R; alpha : list R; kr : list R;
  Nr_new : nat; r_new : list R; Rmax_new : R;
  _j : list R;
  TM : matrix
}.

(** [TST]: [u_loc /= _j] in place, then the matrix product.
    [iTST]: the product with the first [Nr_new] rows, then
    [u_iht *= _j[:Nr_new]]. *)
#[global] Instance transform : Transform t := {|
  TST := fun s u_loc =>
    let u_loc := zip_with Cdiv_real u_loc (_j s) in
    (u_loc, matvec (TM s) u_loc);
  iTST := fun s u_ht =>
    zip_with (fun u j => Cscale j u)
      (matvec (firstn (Nr_new s) (TM s)) u_ht) (firstn (Nr_new s) (_j s))
|}.

(** The output grid of [__init__]: [(Nr_new, r_new, Rmax_new)].  The
    second branch reads the name [sel], which is bound nowhere. *)
Definition output_grid (r : list R) (Rmax : R) (Nr : nat) (alpha : list R)
    (Nr_new : option nat) : Result (nat * list R * R) :=
  match Nr_new with
  | None => Ok (Nr, r, Rmax)
  | Some Nr_new =>
    if Nr <=? Nr_new then Err NameError
    else
      let r_new := firstn Nr_new r in
      m <- array_max r_new ;;
      a1 <- index alpha Nr_new ;;
      a0 <- index alpha (Nr_new - 1) ;;
      Ok (Nr_new, r_new, m * a1 / a0)
  end.

(** [init_TST]: the scale vector [_j] and the matrix [TM]. *)
Definition scale_vector (sp : Special) (mode : nat) (alpha : list R) (Rmax : R)
  : list R :=
  map (fun a => Rabs (jn sp (mode + 1) a) / Rmax) alpha.

Definition transform_matrix (sp : Special) (mode : nat) (alpha : list R)
    (alpha_np1 : R) : matrix :=
  to_dtype
    (map (fun ai => map (fun ak =>
       2 * jn sp mode (ai * ak / alpha_np1) /
       (alpha_np1 * Rabs (jn sp (mode + 1) ai * jn sp (mode + 1) ak)))
       alpha) alpha).

(** [PropagatorSymmetric(r_axis, kz_axis, Nr_new, mode, dtype, backend)]. *)
Definition init (sp : Special) (reg : Registry) (r_axis : R * nat)
    (kz_axis : kz_axis_t) (Nr_new : option nat) (mode : nat) (dt : DType)
    (backend : option String.string) : Result (Propagator t * Scratch) :=
  bk <- init_backend reg backend ;;
  let kz := init_kz kz_axis in
  '(r, Rmax, Nr) <- init_r_symmetric sp mode (fst r_axis) (snd r_axis) ;;
  g <- init_kr sp mode Rmax Nr ;;
  '(Nr_new, r_new, Rmax_new) <- output_grid r Rmax Nr (g_alpha g) Nr_new ;;
  let s := mk mode r Rmax Nr (g_alpha_np1 g) (g_alpha g) (g_kr g)
              Nr_new r_new Rmax_new
              (scale_vector sp mode (g_alpha g) Rmax)
              (transform_matrix sp mode (g_alpha g) (g_alpha_np1 g)) in
  Ok (mk_Propagator t dt bk kz (g_kr2 g) None Nr Nr_new s,
      init_buffers Nr Nr_new).

End PropagatorSymmetric.

(** ** PropagatorResampling *)

Module PropagatorResampling.

Record t : Type := mk {
  mode : nat;
  r : list R; Rmax : R; Nr : nat;
  r_new : list R; Rmax_new : R; Nr_new : nat;
  alpha_np1 : R; alpha : list R; kr : list R;
  TM : matrix;
  invTM : matrix
}.

#[global] Instance transform : Transform t := {|
  TST := fun s u_loc => (u_loc, matvec (TM s) u_loc);
  iTST := fun s u_ht => matvec (invTM s) u_ht
|}.

(** [jn(mode, a[:,None] * kr[None,:])]. *)
Definition bessel_matrix (sp : Special) (mode : nat) (a kr : list R)
  : list (list R) :=
  map (fun aj => map (fun k => jn sp mode (aj * k)) kr) a.

Definition input_grid (sp : Special) (mode : nat) (r_axis : r_axis_t)
  : Result (list R * R * nat) :=
  match r_axis with
  | RTuple Rmax Nr => init_r_symmetric sp mode Rmax Nr
  | RArray r => init_r_sampled r
  end.

(** The output grid: [Rmax_new], when given, overrides [r_axis_new] by
    the pair [(Rmax_new, Nr_new)], and a pair with no count cannot be
    sampled. *)
Definition output_grid (r : list R) (Rmax : R) (Nr : nat)
    (Rmax_new : option R) (Nr_new : option nat) (r_axis_new : option r_axis_t)
  : Result (list R * R * nat) :=
  match Rmax_new with
  | Some Rmax_new =>
    match Nr_new with
    | Some Nr_new => init_r_uniform Rmax_new Nr_new
    | None => Err TypeError
    end
  | None =>
    match r_axis_new with
    | None => Ok (r, Rmax, Nr)
    | Some (RTuple Rmax_new Nr_new) => init_r_uniform Rmax_new Nr_new
    | Some (RArray r_new) => init_r_sampled r_new
    end
  end.

(** [PropagatorResampling(r_axis, kz_axis, Rmax_new, Nr_new, r_axis_new,
    mode, dtype, backend)]. *)
Definition init (sp : Special) (inv : Inversion) (reg : Registry)
    (r_axis : r_axis_t) (kz_axis : kz_axis_t) (Rmax_new : option R)
    (Nr_new : option nat) (r_axis_new : option r_axis_t) (mode : nat)
    (dt : DType) (backend : option String.string)
  : Result (Propagator t * Scratch) :=
  bk <- init_backend reg backend ;;
  let kz := init_kz kz_axis in
  '(r, Rmax, Nr) <- input_grid sp mode r_axis ;;
  '(r_new, Rmax_new, Nr_new) <-
     output_grid r Rmax Nr Rmax_new Nr_new r_axis_new ;;
  g <- init_kr sp mode Rmax Nr ;;
  let TM := bessel_matrix sp mode r (g_kr g) in
  let TM := if mode =? 0 then inv_sqr_on_host inv TM else inv_on_host inv TM in
  let invTM := to_dtype (bessel_matrix sp mode r_new (g_kr g)) in
  let s := mk mode r Rmax Nr r_new Rmax_new Nr_new
              (g_alpha_np1 g) (g_alpha g) (g_kr g) TM invTM in
  Ok (mk_Propagator t dt bk kz (g_kr2 g) None Nr Nr_new s,
      init_buffers Nr Nr_new).

End PropagatorResampling.

(** ** PropagatorFFT2 *)

Module PropagatorFFT2.

Record t : Type := mk {
  grid : xy_grid;
  Nr_new : nat
}.

#[global] Instance transform : Transform t := {|
  TST := fun s u_loc => (u_loc, fft2 (g_Nx (grid s)) (g_Ny (grid s)) u_loc);
  iTST := fun s u_ht => ifft2 (g_Nx (grid s)) (g_Ny (grid s)) u_ht
|}.

(** [PropagatorFFT2(x_axis, y_axis, kz_axis, dtype, backend)]. *)
Definition init (reg : Registry) (x_axis y_axis : R * nat)
    (kz_axis : kz_axis_t) (dt : DType) (backend : option String.string)
  : Result (Propagator t * Scratch) :=
  bk <- init_backend reg backend ;;
  let kz := init_kz kz_axis in
  g <- init_xykxy_fft2 (fst x_axis) (snd x_axis) (fst y_axis) (snd y_axis) ;;
  let n := (g_Nx g * g_Ny g)%nat in
  Ok (mk_Propagator t dt bk kz (g_kr2xy g) (Some (g_kx g, g_ky g)) n n
        (mk g (g_Nr g)),
      init_buffers n n).

End PropagatorFFT2.

(** ** PropagatorCommon: the absorbing boundary *)

(** [map] for a fallible function: the first error ends it. *)
Fixpoint map_result {A B : Type} (f : A -> Result B) (l : list A)
  : Result (list B) :=
  match l with
  | [] => Ok []
  | a :: l' => b <- f a ;; bs <- map_result f l' ;; Ok (b :: bs)
  end.

(** [absorb_layer_shape]: [cos(axis)**0.5] on the [nr_boundary] points
    [np.r_[0 : pi/2 : nr_boundary*1j]] (the closed [linspace]), its last
    sample then set to zero; there is no last sample to set when
    [nr_boundary] is 0.  On these points the cosine is not negative, so
    the power is the square root. *)
Definition absorb_layer_shape (nr_boundary : nat) : Result (list R) :=
  let absorb_layer_axis := linspace 0 (PI / 2) nr_boundary in
  let absorb_layer_shape := map (fun a => sqrt (cos a)) absorb_layer_axis in
  if nr_boundary =? 0 then Err IndexError
  else Ok (removelast absorb_layer_shape ++ [0]).

(** [row[-nb:] *= shape] for [nb = len(shape)] on one row of a
    two-dimensional field: the view [row[-nb:]] is the whole row when the
    row is shorter; numpy multiplies sample by sample when the view has
    [nb] samples, repeats a shape of one sample over the view, and
    refuses any other pair of sizes.  (A field without rows has no row
    size in this embedding; what is proved below is about fields with a
    row at least.) *)
Definition imul_tail (shape : list R) (row : vec) : Result vec :=
  let nb := length shape in
  let head := firstn (length row - nb) row in
  let view := skipn (length row - nb) row in
  if length view =? nb then Ok (head ++ zip_with Cscale shape view)
  else if nb =? 1 then Ok (head ++ map (Cscale (hd 0 shape)) view)
  else Err ValueError.

(** [apply_boundary(u, nr_boundary)] for a field [u] with one transverse
    axis: it works on the caller's array and returns that array. *)
Definition apply_boundary (nr_boundary : nat) : M Returned :=
  u <~ get_arg ;;
  absorb_layer_shape <~ lift (absorb_layer_shape nr_boundary) ;;
  d <~ lift (map_result (imul_tail absorb_layer_shape) (data u)) ;;
  put_arg_data d ;;;
  ret TheArgument.


(** * What the methods compute

    The loops of the stepping methods, read slice by slice, as plain
    functions of the caller's rows. *)

Section SliceFunctions.

Context {T : Type} `{Transform T}.
Variable self : Propagator T.

(** The inverse transform fills a buffer of the output shape. *)
Definition well_formed : Prop :=
  forall v, length (iTST (trns self) v) = shape_trns_new self.

(** A field with one row per wavenumber, each of the input shape. *)
Definition well_shaped (u : ndarray) : Prop :=
  length (data u) = Nkz self /\
  Forall (fun row => length row = shape_trns self) (data u).

(** The world [transform_slice] leaves behind on a row of [u]. *)
Definition transformed_world (w : World) (ikz : nat) (row : vec) : World :=
  let copies := to_device_copies (bcknd self) in
  let (row', ht) := TST (trns self) row in
  mk_World
    (set_u_ht ht
       (set_u_loc (if copies then Owned row' else ArgRow ikz) (scratch w)))
    (if copies then arg w
     else mk_ndarray (dtype (arg w)) (set_nth ikz row' (data (arg w)))).

(** The spectral samples [u_ht] of slice [ikz] after the phase
    multiplication of [step], and the row [step] stores. *)
Definition step_spectrum (dz : R) (ikz : nat) (row : vec) : vec :=
  zip_with (fun u ph => (u * phase_factor dz (RtoC ph))%C)
    (snd (TST (trns self) row))
    (map (clamp_phase (nth ikz (kz self) 0)) (kr2 self)).

Definition step_row (dz : R) (ikz : nat) (row : vec) : vec :=
  iTST (trns self) (step_spectrum dz ikz row).

Definition step_result (dz : R) (u : list vec) : list vec :=
  map (fun ikz => step_row dz ikz (nth ikz u [])) (range (Nkz self)).

(** The row [get_Ez] stores for slice [ikz]. *)
Definition Ez_row (kx ky : list R) (ikz : nat) (row : vec) : vec :=
  let kx_2d := flat_map (fun kxp => map (fun _ => kxp * 1) ky) kx in
  let kz_loc := map (abs_phase (nth ikz (kz self) 0)) (kr2 self) in
  let factor := zip_with (fun k kzl => - k / kzl) kx_2d kz_loc in
  iTST (trns self)
    (zip_with (fun u f => Cscale f u) (snd (TST (trns self) row)) factor).

(** The caller's rows as an in-place transform leaves them. *)
Definition normalised (u : list vec) : list vec :=
  map (fun row => fst (TST (trns self) row)) u.

End SliceFunctions.

(** Two propagator states with the same stepping session. *)
Definition same_session (s s' : Scratch) : Prop :=
  stepping_image s' = stepping_image s /\
  phase_loc s' = phase_loc s /\
  z_propagation s' = z_propagation s.

(** A method body that never ends with the exception [e]. *)
Definition never_raises {A : Type} (e : PyError) (c : M A) : Prop :=
  forall w, fst (c w) <> Err e.

Section BatchFunctions.

Context {T : Type} `{Transform T}.
Variable self : Propagator T.

(** One phase multiplication of the batch loop on the spectral samples
    [ht]: [u_ht *= exp(1j * dz * phase)]. *)
Definition advance (phase : list R) (ht : vec) (dz : R) : vec :=
  zip_with (fun u ph => (u * phase_factor dz (RtoC ph))%C) ht phase.

(** [ik_loc] of [steps] for slice [ikz]. *)
Definition ik_loc (ikz : nat) : list R :=
  map (abs_phase (nth ikz (kz self) 0)) (kr2 self).

(** The spectral samples of slice [ikz] in [steps] once the distances
    [dz] were applied, one after the other. *)
Definition steps_spectrum (dz : list R) (ikz : nat) (row : vec) : vec :=
  fold_left (advance (ik_loc ikz)) dz (snd (TST (trns self) row)).

(** Entry [(i_step, ikz)] of the stack [steps] returns. *)
Definition steps_entry (dz : list R) (u : list vec) (i_step ikz : nat) : vec :=
  iTST (trns self) (steps_spectrum (firstn (S i_step) dz) ikz (nth ikz u [])).

Definition steps_result (dz : list R) (u : list vec) : list (list vec) :=
  map (fun i_step => map (steps_entry dz u i_step) (range (Nkz self)))
    (range (length dz)).

End BatchFunctions.

(** ** Linear combinations of fields *)

(** [a * x + b * y], sample by sample. *)
Definition lincomb (a b : C) (x y : vec) : vec :=
  zip_with (fun xi yi => (a * xi + b * yi)%C) x y.

(** [a * u1 + b * u2] for two fields of one shape and type. *)
Definition field_lincomb (a b : C) (u1 u2 : ndarray) : ndarray :=
  mk_ndarray (dtype u1) (zip_with (lincomb a b) (data u1) (data u2)).

(** A transform pair that is linear on buffers of equal size. *)
Definition linear_strategy {T : Type} `{Transform T} (s : T) : Prop :=
  forall (a b : C) (x y : vec),
    length x = length y ->
    snd (TST s (lincomb a b x y)) = lincomb a b (snd (TST s x)) (snd (TST s y)) /\
    length (snd (TST s x)) = length (snd (TST s y)) /\
    iTST s (lincomb a b x y) = lincomb a b (iTST s x) (iTST s y).

(** [step(a * u1 + b * u2, dz) = a * step(u1, dz) + b * step(u2, dz)]
    for fields of the propagator's shape and type, whatever the buffers
    hold when the three calls start. *)
Definition step_is_linear {T : Type} `{Transform T} (self : Propagator T) : Prop :=
  forall (a b : C) (u1 u2 : ndarray) (dz : R) (s1 s2 s12 : Scratch),
    well_formed self ->
    well_shaped self u1 -> well_shaped self u2 ->
    dtype u1 = self_dtype self -> dtype u2 = self_dtype self ->
    exists r1 r2 r12 w1 w2 w12,
      step self dz false (mk_World s1 u1) = (Ok (Fresh r1), w1) /\
      step self dz false (mk_World s2 u2) = (Ok (Fresh r2), w2) /\
      step self dz false (mk_World s12 (field_lincomb a b u1 u2)) =
        (Ok (Fresh r12), w12) /\
      r12 = field_lincomb a b r1 r2.

(** ** The stepping session *)

Section SessionFunctions.

Context {T : Type} `{Transform T}.
Variable self : Propagator T.

(** The forward transform fills a buffer of the input shape, the shape
    of [kr2]. *)
Definition well_formed_spectrum : Prop :=
  (forall row, length row = shape_trns self ->
     length (snd (TST (trns self) row)) = shape_trns self) /\
  length (kr2 self) = shape_trns self.

(** Row [ikz] of [phase_loc] as [initiate_stepping] stores it. *)
Definition session_phase (ikz : nat) : vec :=
  map (fun k2 => RtoC (clamp_phase (nth ikz (kz self) 0) k2)) (kr2 self).

(** [image *= exp(1j * dz * phase)] on one row of [stepping_image]. *)
Definition advance_c (phase : vec) (ht : vec) (dz : R) : vec :=
  zip_with (fun u ph => (u * phase_factor dz ph)%C) ht phase.

(** A driver for the session: the calls [stepping(d)] for the distances
    of a schedule, one after the other, collecting what they return; and
    the whole session, started by [initiate_stepping(u)]. *)
Fixpoint stepping_calls (ds : list R) : M (list Returned) :=
  match ds with
  | [] => ret []
  | d :: ds' =>
    r <~ stepping self d false ;;
    rs <~ stepping_calls ds' ;;
    ret (r :: rs)
  end.

Definition stepping_session (ds : list R) : M (list Returned) :=
  initiate_stepping self ;;; stepping_calls ds.

(** [stepping_image] after one call, and the rows the calls return. *)
Definition advance_image (image phases : list vec) (dz : R) : list vec :=
  map (fun k => advance_c (nth k phases []) (nth k image []) dz)
    (range (Nkz self)).

Fixpoint session_outputs (image phases : list vec) (ds : list R)
  : list (list vec) :=
  match ds with
  | [] => []
  | d :: ds' =>
    let image' := advance_image image phases d in
    map (iTST (trns self)) image' :: session_outputs image' phases ds'
  end.

End SessionFunctions.

(** ** Round trips *)

(** Column [j] of a matrix, the product of two matrices ([n] columns in
    the second), and the identity. *)
Definition column (j : nat) (B : matrix) : vec := map (fun row => nth j row C0) B.

Definition matmul (A B : matrix) (n : nat) : matrix :=
  map (fun row => map (fun j => dot row (column j B)) (seq 0 n)) A.

Definition identity (n : nat) : matrix :=
  map (fun i => map (fun k => if i =? k then C1 else C0) (seq 0 n)) (seq 0 n).

(** [A] and [B] are [n x n] and [A . B] is the identity. *)
Definition inverse_pair (A B : matrix) (n : nat) : Prop :=
  length A = n /\ length B = n /\
  Forall (fun row => length row = n) A /\
  Forall (fun row => length row = n) B /\
  matmul A B n = identity n.

(** [inverse_transform(transform(u)) = u] for every slice of [n]
    samples. *)
Definition round_trip {T : Type} `{Transform T} (s : T) (n : nat) : Prop :=
  forall row : vec, length row = n -> iTST s (snd (TST s row)) = row.


(** * Concrete providers

    Instances of the external records, for running the model on
    concrete inputs. *)

(** A backend that moves the data to a device of its own, and one that
    works on the host array itself. *)
Definition device_backend : Backend := mk_Backend "CU"%string true.
Definition host_backend : Backend := mk_Backend "NP"%string false.

Definition demo_registry : Registry :=
  mk_Registry [("NP"%string, host_backend); ("CU"%string, device_backend)]
    ["CU"%string; "NP"%string] None.

(** A trigonometric stand-in for the Bessel functions with the same
    shape: [cos] for order 0 (value 1 at the origin, zeros at
    [(k + 1/2) pi]) and [sin] for the other orders (value 0 at the
    origin, positive zeros at [(k + 1) pi]). *)
Definition trig_jn (order : nat) (x : R) : R :=
  if order =? 0 then cos x else sin x.

Definition trig_jn_zeros (order nt : nat) : list R :=
  map (fun k => (INR k + (if order =? 0 then 1 / 2 else 1)) * PI) (seq 0 nt).

Lemma trig_jn_zeros_length (order nt : nat) :
  length (trig_jn_zeros order nt) = nt.
Proof. unfold trig_jn_zeros. now rewrite length_map, length_seq. Qed.

Lemma trig_jn_zeros_positive (order nt : nat) (z : R) :
  In z (trig_jn_zeros order nt) -> 0 < z.
Proof.
  unfold trig_jn_zeros. rewrite in_map_iff. intros (k & <- & _).
  pose proof PI_RGT_0. pose proof (pos_INR k).
  destruct (order =? 0); nra.
Qed.

Lemma trig_jn_origin (order : nat) : order <> 0%nat -> trig_jn order 0 = 0.
Proof.
  intros Hne. unfold trig_jn.
  destruct (Nat.eqb_spec order 0) as [E|_]; [contradiction | apply sin_0].
Qed.

Definition trig_special : Special :=
  mk_Special trig_jn trig_jn_zeros
    trig_jn_zeros_length trig_jn_zeros_positive trig_jn_origin.

(** [PropagatorFFT2((1., 2), (1., 2), np.array([1.]))] with the default
    type, on the first backend available. *)
Definition fft2_demo : Result (Propagator PropagatorFFT2.t * Scratch) :=
  PropagatorFFT2.init demo_registry (1, 2%nat) (1, 2%nat) (KzArray [1])
    complex128 None.

(** A field for it: one wavenumber, the four samples of a 2 x 2 slice. *)
Definition demo_field : ndarray := mk_ndarray complex128 [[C1; C0; C0; C0]].

(** The same propagator for the wavenumber [kz = 6], above every
    transverse wavenumber of its grid. *)
Definition fft2_demo_fast : Result (Propagator PropagatorFFT2.t * Scratch) :=
  PropagatorFFT2.init demo_registry (1, 2%nat) (1, 2%nat) (KzArray [6])
    complex128 None.

(** [PropagatorSymmetric((1., 2), np.array([1.]), backend='NP')] over the
    stand-in special functions, and a field for it. *)
Definition symmetric_demo
  : Result (Propagator PropagatorSymmetric.t * Scratch) :=
  PropagatorSymmetric.init trig_special demo_registry (1, 2%nat) (KzArray [1])
    None 0 complex128 (Some "NP"%string).

Definition radial_field : ndarray := mk_ndarray complex128 [[C1; C0]].
(** * Further reference definitions *)

(** A registry in which no name of the preference order is registered. *)
Definition orphan_registry : Registry :=
  mk_Registry [("XX"%string, host_backend)] ["CU"%string; "NP"%string] None.

(** The row [imul_tail] leaves when the row holds the whole layer. *)
Definition absorbed (shape : list R) (row : vec) : vec :=
  firstn (length row - length shape) row ++
  zip_with Cscale shape (skipn (length row - length shape) row).


(** [a.sum()]. *)
Definition Rsum (l : list R) : R := fold_right Rplus 0 l.

Section PositionFunctions.

Context {T : Type} `{Transform T}.
Variable self : Propagator T.

(** Row [ikz] of the field at the distance [z] from the input plane, in
    the phase policy of [steps]. *)
Definition steps_at (z : R) (ikz : nat) (row : vec) : vec :=
  iTST (trns self) (advance (ik_loc self ikz) (snd (TST (trns self) row)) z).

Definition field_at (z : R) (u : list vec) : list vec :=
  map (fun ikz => steps_at z ikz (nth ikz u [])) (range (Nkz self)).

End PositionFunctions.


(** A host inversion that hands the matrix back as it is: a stand-in
    for running the constructor where the inverse plays no part. *)
Definition passthrough_inversion : Inversion := mk_Inversion to_dtype to_dtype.



(** ** Round trips of built propagators *)












(** * Properties

    ** Complex samples and data types *)

Lemma Cexp_imaginary (t : R) : Cexp (Ci * RtoC t)%C = cis t.
Proof.
  unfold Cexp, Ci, RtoC, Cmult, cis; simpl.
  replace (0 * t - 1 * 0) with 0 by ring.
  replace (0 * 0 + 1 * t) with t by ring.
  rewrite exp_0. f_equal; ring.
Qed.

Lemma cis_0 : cis 0 = C1.
Proof. unfold cis, C1, RtoC. now rewrite cos_0, sin_0. Qed.

Lemma cis_plus (s t : R) : cis (s + t) = (cis s * cis t)%C.
Proof.
  unfold cis, Cmult; simpl. rewrite cos_plus, sin_plus. f_equal; ring.
Qed.

Lemma Cmod_mult_cis (z : C) (t : R) : Cmod (z * cis t)%C = Cmod z.
Proof.
  destruct z as [a b]. unfold Cmod, Cmult, cis; simpl. f_equal.
  pose proof (sin2_cos2 t) as H. unfold Rsqr in H.
  replace ((a * cos t - b * sin t) * (a * cos t - b * sin t) +
           (a * sin t + b * cos t) * (a * sin t + b * cos t))
    with ((a * a + b * b) * (sin t * sin t + cos t * cos t)) by ring.
  rewrite H. ring.
Qed.

Lemma DType_eqb_eq (a b : DType) : DType_eqb a b = true <-> a = b.
Proof. destruct a, b; simpl; split; congruence. Qed.

Lemma DType_eqb_neq (a b : DType) : DType_eqb a b = false <-> a <> b.
Proof. destruct a, b; simpl; split; congruence. Qed.


(** ** Loops and list updates *)

Lemma for_each_inv {A : Type} (body : nat -> A -> M A)
    (Inv : nat -> A -> World -> Prop) (n : nat) :
  forall (s : nat) (a : A) (w : World),
    Inv s a w ->
    (forall i a w, (s <= i < s + n)%nat -> Inv i a w ->
       exists a' w', body i a w = (Ok a', w') /\ Inv (S i) a' w') ->
    exists a' w', for_each body (seq s n) a w = (Ok a', w') /\ Inv (s + n)%nat a' w'.
Proof.
  induction n as [|n IH]; intros s a w H0 Hstep; simpl.
  - exists a, w. rewrite Nat.add_0_r. now split.
  - destruct (Hstep s a w) as (a1 & w1 & E1 & I1); [lia | assumption |].
    destruct (IH (S s) a1 w1 I1) as (a2 & w2 & E2 & I2).
    + intros i a' w' Hi. apply Hstep. lia.
    + exists a2, w2. unfold bindM. rewrite E1. split; [exact E2|].
      now replace (s + S n)%nat with (S s + n)%nat by lia.
Qed.

Lemma set_nth_app {A : Type} (P l : list A) (v : A) (i : nat) :
  length P = i -> (i < length l)%nat ->
  set_nth i v (P ++ skipn i l) = (P ++ [v]) ++ skipn (S i) l.
Proof.
  revert l i; induction P as [|a P IH]; intros l i HP Hi; simpl in *.
  - subst i. destruct l; simpl in *; [lia | reflexivity].
  - subst i. destruct l as [|b l]; simpl in *; [lia|].
    f_equal. 
    specialize (IH l (length P) eq_refl ltac:(lia)). 
    rewrite <- IH. reflexivity.
Qed.

Lemma nth_error_skipn_0 {A : Type} (l : list A) (i : nat) :
  nth_error (skipn i l) 0 = nth_error l i.
Proof.
  revert l; induction i as [|i IH]; intros [|a l]; try reflexivity.
  exact (IH l).
Qed.

Lemma nth_error_app_skipn {A : Type} (P l : list A) (i : nat) :
  length P = i -> nth_error (P ++ skipn i l) i = nth_error l i.
Proof.
  intros HP. rewrite nth_error_app2 by lia. rewrite HP, Nat.sub_diag.
  apply nth_error_skipn_0.
Qed.

Lemma bindM_Ok {A B : Type} (c : M A) (k : A -> M B) (w w' : World) (a : A) :
  c w = (Ok a, w') -> bindM c k w = k a w'.
Proof. intros E. unfold bindM. now rewrite E. Qed.

Lemma firstn_succ_nth {A : Type} (l : list A) (i : nat) (d : A) :
  (i < length l)%nat -> firstn (S i) l = firstn i l ++ [nth i l d].
Proof.
  revert i; induction l as [|a l IH]; intros i Hi; simpl in Hi; [lia|].
  destruct i as [|i]; [reflexivity|].
  cbn [firstn nth app]. f_equal. apply IH. lia.
Qed.

(** ** The single step *)

Section StepSpec.

Context {T : Type} `{Transform T}.
Variable self : Propagator T.

Lemma transform_slice_ok (w : World) (ikz : nat) (row : vec) :
  nth_error (data (arg w)) ikz = Some row ->
  length row = shape_trns self ->
  transform_slice self ikz w = (Ok tt, transformed_world self w ikz row).
Proof.
  intros Hrow Hlen. unfold transform_slice, transformed_world, bindM, get_arg, lift, index.
  rewrite Hrow. unfold modify_scratch at 1. cbn [scratch arg].
  rewrite Hlen, Nat.eqb_refl. unfold ret.
  destruct (TST (trns self) row) as [row' ht].
  destruct (to_device_copies (bcknd self)); reflexivity.
Qed.

Lemma row_of_well_shaped (u : ndarray) (i : nat) :
  well_shaped self u -> (i < Nkz self)%nat ->
  nth_error (data u) i = Some (nth i (data u) []) /\
  length (nth i (data u) []) = shape_trns self.
Proof.
  intros [Hlen Hrows] Hi. split.
  - apply nth_error_nth'. lia.
  - rewrite Forall_forall in Hrows. apply Hrows, nth_In. lia.
Qed.

Lemma step_spec (dz : R) (w : World) :
  well_formed self -> well_shaped self (arg w) ->
  dtype (arg w) = self_dtype self ->
  exists w',
    step self dz false w =
      (Ok (Fresh (mk_ndarray (dtype (arg w)) (step_result self dz (data (arg w))))), w') /\
    same_session (scratch w) (scratch w') /\
    dtype (arg w') = dtype (arg w) /\
    data (arg w') = if to_device_copies (bcknd self) then data (arg w)
                    else normalised self (data (arg w)).
Proof.
  intros Hwf Hws Hdt.
  set (u0 := data (arg w)).
  set (Z := zeros (Nkz self) (shape_trns_new self)).
  set (F := fun k => step_row self dz k (nth k u0 [])).
  pose (Inv := fun (i : nat) (acc : option (list vec)) (w' : World) =>
    acc = Some (map F (seq 0 i) ++ skipn i Z) /\
    same_session (scratch w) (scratch w') /\
    dtype (arg w') = dtype (arg w) /\
    data (arg w') = if to_device_copies (bcknd self) then u0
                    else normalised self (firstn i u0) ++ skipn i u0).
  destruct (for_each_inv
    (fun ikz u_step =>
      transform_slice self ikz ;;;
      mul_phase dz (map (clamp_phase (nth ikz (kz self) 0)) (kr2 self)) ;;;
      inverse_transform self ;;;
      store u_step ikz)
    Inv (Nkz self) 0 (Some Z) w) as (acc & w' & Eloop & Iacc & Isess & Idt & Idata).
  - unfold Inv. simpl. repeat split; try reflexivity.
    now destruct (to_device_copies (bcknd self)).
  - intros i acc w1 Hi (Iacc & Isess & Idt & Idata).
    destruct (row_of_well_shaped (arg w) i Hws ltac:(lia)) as [Hrow Hlen].
    fold u0 in Hrow, Hlen.
    assert (Hrow1 : nth_error (data (arg w1)) i = Some (nth i u0 [])).
    { rewrite Idata. destruct (to_device_copies (bcknd self)); [exact Hrow|].
      rewrite nth_error_app_skipn; [exact Hrow|].
      unfold normalised. rewrite length_map, length_firstn.
      destruct Hws as [Hl _]. fold u0 in Hl. lia. }
    unfold bindM at 1. rewrite (transform_slice_ok w1 i _ Hrow1 Hlen).
    unfold transformed_world.
    destruct (TST (trns self) (nth i u0 [])) as [row' ht] eqn:ETST.
    subst acc.
    unfold mul_phase, inverse_transform, store, assign, index, bind,
      modify_scratch, get_scratch, lift, ret, bindM.
    cbn [scratch arg u_ht u_iht set_u_ht set_u_iht set_u_loc].
    rewrite nth_error_app_skipn by (now rewrite length_map, length_seq).
    assert (HZ : nth_error Z i = Some (repeat C0 (shape_trns_new self))).
    { unfold Z, zeros. rewrite nth_error_repeat by lia. reflexivity. }
    rewrite HZ. rewrite Hwf, repeat_length, Nat.eqb_refl.
    eexists _, _. split; [reflexivity|]. unfold Inv. cbn [scratch arg].
    split; [|split; [|split]].
    + f_equal. rewrite set_nth_app.
      * rewrite seq_S, map_app. simpl. unfold F at 3, step_row, step_spectrum.
        rewrite ETST. reflexivity.
      * now rewrite length_map, length_seq.
      * unfold Z, zeros. rewrite repeat_length. lia.
    + destruct Isess as (? & ? & ?). repeat split; assumption.
    + destruct (to_device_copies (bcknd self)); [exact Idt | exact Idt].
    + destruct (to_device_copies (bcknd self)); [exact Idata|].
      cbn [data]. rewrite Idata.
      destruct Hws as [Hl _]. fold u0 in Hl.
      rewrite set_nth_app.
      * unfold normalised.
        rewrite (firstn_succ_nth u0 i []) by lia.
        rewrite map_app. simpl. now rewrite ETST.
      * unfold normalised. rewrite length_map, length_firstn. lia.
      * lia.
  - exists w'. unfold step.
    erewrite bindM_Ok by reflexivity.
    erewrite bindM_Ok
      by (unfold lift, assert; now rewrite (proj2 (DType_eqb_eq _ _) Hdt)).
    erewrite bindM_Ok by exact Eloop. unfold ret.
    subst acc. simpl. repeat split; try assumption; try apply Isess.
    + f_equal.
      rewrite skipn_all2 by (unfold Z, zeros; rewrite repeat_length; lia).
      now rewrite app_nil_r.
    + rewrite Idata. destruct (to_device_copies (bcknd self)); [reflexivity|].
      destruct Hws as [Hl _]. fold u0 in Hl.
      rewrite Nat.add_0_l, <- Hl, firstn_all, skipn_all. now rewrite app_nil_r.
Qed.

End StepSpec.


(** ** Grid construction *)

Lemma removelast_length {A : Type} (l : list A) :
  length (removelast l) = (length l - 1)%nat.
Proof.
  induction l as [|a [|b l] IH]; simpl in *; try reflexivity.
  rewrite IH. lia.
Qed.

Lemma init_kr_mode0 (sp : Special) (Rmax : R) (Nr : nat) :
  let roots := jn_zeros sp 0 (Nr + 1) in
  init_kr sp 0 Rmax Nr =
    Ok (mk_kr_grid (last roots 0) (removelast roots)
          (map (fun a => a / Rmax) (removelast roots))
          (map (fun k => k ^ 2) (map (fun a => a / Rmax) (removelast roots)))).
Proof.
  unfold init_kr, jn_zeros_call. simpl.
  replace (Nr + 1 =? 0)%nat with false by (symmetry; apply Nat.eqb_neq; lia).
  reflexivity.
Qed.

Lemma init_kr_higher_mode (sp : Special) (mode : nat) (Rmax : R) (Nr : nat) :
  mode <> 0%nat -> Nr <> 0%nat ->
  let roots := jn_zeros sp mode Nr in
  let alpha := 0 :: removelast roots in
  init_kr sp mode Rmax Nr =
    Ok (mk_kr_grid (last roots 0) alpha
          (map (fun a => a / Rmax) alpha)
          (map (fun k => k ^ 2) (map (fun a => a / Rmax) alpha))).
Proof.
  intros Hm Hn. unfold init_kr, jn_zeros_call.
  rewrite (proj2 (Nat.eqb_neq mode 0) Hm), (proj2 (Nat.eqb_neq Nr 0) Hn).
  cbn [negb bind].
  pose proof (jn_zeros_length sp mode Nr) as Hlen.
  destruct (jn_zeros sp mode Nr) as [|z zs]; [simpl in Hlen; lia|].
  reflexivity.
Qed.

Lemma init_r_symmetric_ok (sp : Special) (mode : nat) (Rmax : R) (Nr : nat) :
  let roots := jn_zeros sp mode (Nr + 1) in
  init_r_symmetric sp mode Rmax Nr =
    Ok (map (fun a => Rmax * a / last roots 0) (removelast roots), Rmax, Nr).
Proof.
  unfold init_r_symmetric, jn_zeros_call.
  replace (Nr + 1 =? 0)%nat with false by (symmetry; apply Nat.eqb_neq; lia).
  reflexivity.
Qed.

(** C5 (as amended).  For mode order 0 the spectral grid is
    [kr = alpha / Rmax] with [alpha] the first [Nr] of the [Nr + 1] roots
    [jn_zeros(0, Nr + 1)], whose last calibrates the scale: the very
    roots the symmetric radial grid is built from.  For a mode order
    other than 0 (and [Nr > 0]) [alpha] is 0 followed by the first
    [Nr - 1] of the roots [jn_zeros(mode, Nr)], whose last calibrates the
    scale, so [kr[0] = 0]. *)
Theorem spectral_radial_grid (sp : Special) (mode : nat) (Rmax : R) (Nr : nat) :
  (mode = 0%nat ->
   let roots := jn_zeros sp mode (Nr + 1) in
   exists g,
     init_kr sp mode Rmax Nr = Ok g /\
     g_alpha g = removelast roots /\
     g_alpha_np1 g = last roots 0 /\
     g_kr g = map (fun a => a / Rmax) (g_alpha g) /\
     init_r_symmetric sp mode Rmax Nr =
       Ok (map (fun a => Rmax * a / g_alpha_np1 g) (g_alpha g), Rmax, Nr)) /\
  (mode <> 0%nat -> Nr <> 0%nat ->
   let roots := jn_zeros sp mode Nr in
   exists g,
     init_kr sp mode Rmax Nr = Ok g /\
     g_alpha g = 0 :: removelast roots /\
     g_alpha_np1 g = last roots 0 /\
     g_kr g = map (fun a => a / Rmax) (g_alpha g)).
Proof.
  split.
  - intros ->. eexists. rewrite init_kr_mode0. split; [reflexivity|].
    cbn [g_alpha g_alpha_np1 g_kr]. repeat split.
    apply init_r_symmetric_ok.
  - intros Hm Hn. eexists. rewrite init_kr_higher_mode by assumption.
    split; [reflexivity|]. cbn [g_alpha g_alpha_np1 g_kr]. repeat split.
Qed.

(** The claim of C5 as stated fails for mode order 1 with one node:
    whatever the roots are, [kr] is built from [alpha = [0]], while the
    first of the two positive roots the radial grid uses is not 0. *)
Lemma spectral_radial_grid_mode1_counterexample :
  exists (mode Nr : nat),
    forall (sp : Special) (Rmax : R),
    exists g,
      init_kr sp mode Rmax Nr = Ok g /\
      g_alpha g = [0] /\
      g_kr g = [0 / Rmax] /\
      g_alpha g <> removelast (jn_zeros sp mode (Nr + 1)).
Proof.
  exists 1%nat, 1%nat. intros sp Rmax0. eexists.
  rewrite init_kr_higher_mode by lia. split; [reflexivity|].
  cbn [g_alpha g_kr].
  pose proof (jn_zeros_length sp 1 1) as H1.
  pose proof (jn_zeros_length sp 1 (1 + 1)) as H2.
  pose proof (jn_zeros_positive sp 1 (1 + 1)) as Hpos.
  destruct (jn_zeros sp 1 1) as [|a [|? ?]]; simpl in H1; try lia.
  destruct (jn_zeros sp 1 (1 + 1)) as [|z1 [|z2 [|? ?]]]; simpl in H2; try lia.
  cbn [removelast map]. repeat split.
  intros E. injection E as E. specialize (Hpos z1 (or_introl eq_refl)). lra.
Qed.

Lemma spectral_radial_grid_witness :
  (exists g,
     init_kr trig_special 0 1 2 = Ok g /\
     g_alpha g = removelast (jn_zeros trig_special 0 (2 + 1)) /\
     g_alpha_np1 g = last (jn_zeros trig_special 0 (2 + 1)) 0 /\
     g_kr g = map (fun a => a / 1) (g_alpha g) /\
     init_r_symmetric trig_special 0 1 2 =
       Ok (map (fun a => 1 * a / g_alpha_np1 g) (g_alpha g), 1, 2%nat)) /\
  (exists g,
     init_kr trig_special 1 1 2 = Ok g /\
     g_alpha g = 0 :: removelast (jn_zeros trig_special 1 2) /\
     g_alpha_np1 g = last (jn_zeros trig_special 1 2) 0 /\
     g_kr g = map (fun a => a / 1) (g_alpha g)).
Proof.
  split.
  - apply (proj1 (spectral_radial_grid trig_special 0 1 2)). reflexivity.
  - apply (proj2 (spectral_radial_grid trig_special 1 1 2)); discriminate.
Defined.
(** ** Construction *)

Lemma symmetric_output_grid_request (r : list R) (Rmax : R) (Nr : nat)
    (alpha : list R) (k : nat) :
  PropagatorSymmetric.output_grid r Rmax Nr alpha (Some (Nr + k)%nat) =
    Err NameError.
Proof.
  unfold PropagatorSymmetric.output_grid.
  now rewrite (proj2 (Nat.leb_le Nr (Nr + k)) (Nat.le_add_r Nr k)).
Qed.

(** C6 (the code as it is).  A truncation request [Nr_new >= Nr] makes
    [PropagatorSymmetric] run its first steps (backend, radial and
    spectral grids) and then raise [NameError]: no propagator is built. *)
Theorem symmetric_truncation_request_raises (sp : Special) (reg : Registry)
    (Rmax : R) (Nr k : nat) (kz_axis : kz_axis_t) (mode : nat) (dt : DType)
    (backend : option string) :
  PropagatorSymmetric.init sp reg (Rmax, Nr) kz_axis (Some (Nr + k)%nat)
    mode dt backend =
  (_ <- init_backend reg backend ;;
   _ <- init_r_symmetric sp mode Rmax Nr ;;
   _ <- init_kr sp mode Rmax Nr ;;
   Err NameError).
Proof.
  unfold PropagatorSymmetric.init. cbn [fst snd].
  destruct (init_backend reg backend) as [bk|e]; [|reflexivity].
  cbn [bind]. rewrite init_r_symmetric_ok. cbn [bind].
  destruct (init_kr sp mode Rmax Nr) as [g|e]; [|reflexivity].
  cbn [bind]. now rewrite symmetric_output_grid_request.
Qed.

(** With no request the output grid is the input grid. *)
Lemma symmetric_no_request (r : list R) (Rmax : R) (Nr : nat) (alpha : list R) :
  PropagatorSymmetric.output_grid r Rmax Nr alpha None = Ok (Nr, r, Rmax).
Proof. reflexivity. Qed.

Lemma linspace_index (a b : R) (num i : nat) :
  (i < num)%nat ->
  index (linspace a b num) i = Ok (a + INR i * ((b - a) / INR (num - 1))).
Proof.
  intros Hi. unfold index, linspace.
  rewrite nth_error_map, nth_error_seq.
  rewrite (proj2 (Nat.ltb_lt i num) Hi). reflexivity.
Qed.

Lemma linspace_index_out (a b : R) (num i : nat) :
  (num <= i)%nat -> index (linspace a b num) i = Err IndexError.
Proof.
  intros Hi. unfold index.
  rewrite (proj2 (nth_error_None _ _)); [reflexivity|].
  unfold linspace. now rewrite length_map, length_seq.
Qed.

Lemma init_xykxy_fft2_single_x (Lx Ly : R) (Ny : nat) :
  init_xykxy_fft2 Lx 1 Ly Ny = Err IndexError.
Proof.
  unfold init_xykxy_fft2.
  rewrite (linspace_index_out _ _ 1 1) by lia. reflexivity.
Qed.

Lemma init_xykxy_fft2_single_y (Lx Ly : R) (n : nat) :
  init_xykxy_fft2 Lx (S (S n)) Ly 1 = Err IndexError.
Proof.
  unfold init_xykxy_fft2.
  rewrite (linspace_index _ _ (S (S n)) 1), (linspace_index _ _ (S (S n)) 0)
    by lia.
  cbn [bind]. rewrite (linspace_index_out _ _ 1 1) by lia. reflexivity.
Qed.

(** C7 (the code as it is).  With a single sample on the x axis
    [init_xykxy_fft2] raises [IndexError] when it reads [x[1]], and with
    a single sample on the y axis (and more on x) when it reads [y[1]]:
    the branches for a degenerate axis are never reached. *)
Theorem fft2_single_sample_axis_raises (Lx Ly : R) (n : nat) :
  init_xykxy_fft2 Lx 1 Ly n = Err IndexError /\
  init_xykxy_fft2 Lx (S (S n)) Ly 1 = Err IndexError.
Proof.
  split; [apply init_xykxy_fft2_single_x | apply init_xykxy_fft2_single_y].
Qed.

(** The constructor then fails the same way, once it has a backend. *)
Lemma fft2_init_degenerate (reg : Registry) (Lx Ly : R) (n : nat)
    (kz_axis : kz_axis_t) (dt : DType) (backend : option string) :
  PropagatorFFT2.init reg (Lx, 1%nat) (Ly, n) kz_axis dt backend =
    (_ <- init_backend reg backend ;; Err IndexError).
Proof.
  unfold PropagatorFFT2.init. cbn [fst snd].
  destruct (init_backend reg backend); [|reflexivity]. cbn [bind].
  now rewrite init_xykxy_fft2_single_x.
Qed.

Lemma tabulate2_length (Nx Ny : nat) (f : nat -> nat -> C) :
  length (tabulate2 Nx Ny f) = (Nx * Ny)%nat.
Proof.
  unfold tabulate2. generalize 0%nat at 2.
  induction Nx as [|Nx IH]; intros s; simpl; [reflexivity|].
  now rewrite length_app, length_map, length_seq, IH.
Qed.

Lemma hypot_grid_length (a b : list R) :
  length (hypot_grid a b) = (length a * length b)%nat.
Proof.
  induction a as [|x a IH]; [reflexivity|].
  change (hypot_grid (x :: a) b)
    with (map (fun bq => sqrt (x ^ 2 + bq ^ 2)) b ++ hypot_grid a b).
  rewrite length_app, length_map, IH. reflexivity.
Qed.

Lemma fftfreq_length (n : nat) (d : R) : length (fftfreq n d) = n.
Proof.
  unfold fftfreq. rewrite length_app, !length_map, !length_seq.
  pose proof (Nat.div_mod_eq n 2) as E1.
  pose proof (Nat.div_mod_eq (n + 1) 2) as E2.
  pose proof (Nat.mod_upper_bound n 2 ltac:(lia)) as B1.
  pose proof (Nat.mod_upper_bound (n + 1) 2 ltac:(lia)) as B2.
  assert (Hpar : ((n + 1) mod 2 = 1 - n mod 2)%nat).
  { rewrite Nat.Div0.add_mod. destruct (n mod 2) as [|[|?]] eqn:En; try lia; reflexivity. }
  lia.
Qed.

Lemma linspace_length (a b : R) (num : nat) : length (linspace a b num) = num.
Proof. unfold linspace. now rewrite length_map, length_seq. Qed.

Lemma init_xykxy_fft2_ok (Lx Ly : R) (Nx Ny : nat) :
  (2 <= Nx)%nat -> (2 <= Ny)%nat ->
  exists g,
    init_xykxy_fft2 Lx Nx Ly Ny = Ok g /\
    g_Nx g = Nx /\ g_Ny g = Ny /\
    g_x g = linspace (- Lx / 2) (Lx / 2) Nx /\
    g_y g = linspace (- Ly / 2) (Ly / 2) Ny /\
    length (g_kx g) = Nx /\ length (g_ky g) = Ny /\
    length (g_kr2xy g) = (Nx * Ny)%nat.
Proof.
  intros Hx Hy. unfold init_xykxy_fft2.
  rewrite (linspace_index _ _ Nx 1), (linspace_index _ _ Nx 0) by lia.
  cbn [bind].
  rewrite (linspace_index _ _ Ny 1), (linspace_index _ _ Ny 0) by lia.
  cbn [bind].
  replace (Nx =? 1)%nat with false by (symmetry; apply Nat.eqb_neq; lia).
  replace (Ny =? 1)%nat with false by (symmetry; apply Nat.eqb_neq; lia).
  cbn [andb]. eexists. split; [reflexivity|].
  cbn [g_Nx g_Ny g_x g_y g_kx g_ky g_kr2xy].
  repeat split; rewrite ?length_map, ?hypot_grid_length, ?length_map,
    ?fftfreq_length; reflexivity.
Qed.

Lemma fft2_init_ok (reg : Registry) (bk : Backend) (Lx Ly : R) (Nx Ny : nat)
    (kz_axis : kz_axis_t) (dt : DType) (backend : option string) :
  init_backend reg backend = Ok bk ->
  (2 <= Nx)%nat -> (2 <= Ny)%nat ->
  exists p s,
    PropagatorFFT2.init reg (Lx, Nx) (Ly, Ny) kz_axis dt backend = Ok (p, s) /\
    self_dtype p = dt /\ bcknd p = bk /\ kz p = init_kz kz_axis /\
    shape_trns p = (Nx * Ny)%nat /\ shape_trns_new p = (Nx * Ny)%nat /\
    length (kr2 p) = (Nx * Ny)%nat /\
    g_Nx (PropagatorFFT2.grid (trns p)) = Nx /\
    g_Ny (PropagatorFFT2.grid (trns p)) = Ny /\
    well_formed p /\ well_formed_spectrum p.
Proof.
  intros Hbk Hx Hy. unfold PropagatorFFT2.init. rewrite Hbk. cbn [bind fst snd].
  destruct (init_xykxy_fft2_ok Lx Ly Nx Ny Hx Hy)
    as (g & -> & HNx & HNy & _ & _ & _ & _ & Hkr2).
  cbn [bind]. eexists _, _. split; [reflexivity|].
  unfold well_formed_spectrum.
  cbn [self_dtype bcknd kz shape_trns shape_trns_new kr2 trns PropagatorFFT2.grid].
  rewrite HNx, HNy. repeat split; try assumption.
  - intros v. cbn. unfold ifft2. rewrite tabulate2_length. now rewrite HNx, HNy.
  - intros row _. cbn. unfold fft2. rewrite tabulate2_length.
    now rewrite HNx, HNy.
Qed.

Lemma demo_backend : init_backend demo_registry None = Ok device_backend.
Proof. reflexivity. Qed.

Lemma fft2_demo_ok :
  exists p s,
    fft2_demo = Ok (p, s) /\
    self_dtype p = complex128 /\ bcknd p = device_backend /\ kz p = [1] /\
    shape_trns p = 4%nat /\ shape_trns_new p = 4%nat /\
    length (kr2 p) = 4%nat /\ well_formed p.
Proof.
  destruct (fft2_init_ok demo_registry device_backend 1 1 2 2 (KzArray [1])
              complex128 None demo_backend ltac:(lia) ltac:(lia))
    as (p & s & E & ? & ? & ? & ? & ? & ? & _ & _ & ? & _).
  exists p, s. repeat split; assumption.
Qed.

Lemma sqrt_hypot_sqr (a b : R) :
  sqrt (a * (a * 1) + b * (b * 1)) * (sqrt (a * (a * 1) + b * (b * 1)) * 1) =
  a * a + b * b.
Proof.
  rewrite (Rmult_1_r (sqrt _)), sqrt_sqrt by nra. ring.
Qed.

(** The spectral grid of [PropagatorFFT2((1., 2), (1., 2), kz)]. *)
Lemma fft2_unit_grid (kzs : list R) (p : Propagator PropagatorFFT2.t)
    (s : Scratch) :
  PropagatorFFT2.init demo_registry (1, 2%nat) (1, 2%nat) (KzArray kzs)
    complex128 None = Ok (p, s) ->
  kz p = kzs /\ kr2 p = [0; PI ^ 2; PI ^ 2; 2 * PI ^ 2].
Proof.
  unfold PropagatorFFT2.init. rewrite demo_backend.
  cbn [bind fst snd]. unfold init_xykxy_fft2.
  rewrite !(linspace_index _ _ 2 1), !(linspace_index _ _ 2 0) by lia.
  cbn [bind Nat.eqb Nat.ltb Nat.leb andb].
  intros E. injection E as <- _.
  cbn [kz kr2 init_kz g_kr2xy]. split; [reflexivity|].
  unfold fftfreq.
  change ((2 + 1) / 2)%nat with 1%nat. change (2 / 2)%nat with 1%nat.
  cbn [seq map app hypot_grid flat_map Nat.sub Nat.add].
  rewrite !sqrt_hypot_sqr.
  repeat (f_equal; [field|]). f_equal. field.
Qed.


(** ** The guards of the entry points *)

Section Guards.

Context {T : Type} `{Transform T}.
Variable self : Propagator T.

Lemma assert_dtype_fails (u : ndarray) :
  dtype u <> self_dtype self ->
  assert (DType_eqb (dtype u) (self_dtype self)) = Err AssertionError.
Proof.
  intros Hne. unfold assert. now rewrite (proj2 (DType_eqb_neq _ _) Hne).
Qed.

Lemma assert_dtype_passes (u : ndarray) :
  dtype u = self_dtype self ->
  assert (DType_eqb (dtype u) (self_dtype self)) = Ok tt.
Proof.
  intros He. unfold assert. now rewrite (proj2 (DType_eqb_eq _ _) He).
Qed.

Lemma steps_no_schedule (w : World) :
  dtype (arg w) = self_dtype self ->
  steps self (Some []) None w = (Ok None, w).
Proof.
  intros Hdt. unfold steps.
  erewrite bindM_Ok by reflexivity.
  erewrite bindM_Ok by (unfold lift; now rewrite assert_dtype_passes).
  erewrite bindM_Ok by reflexivity.
  reflexivity.
Qed.


Lemma never_raises_bind {A B : Type} (e : PyError) (c : M A) (k : A -> M B) :
  never_raises e c -> (forall a, never_raises e (k a)) ->
  never_raises e (bindM c k).
Proof.
  intros Hc Hk w. unfold bindM. specialize (Hc w).
  destruct (c w) as [[a|e'] w']; simpl in *.
  - apply Hk.
  - intros E. apply Hc. congruence.
Qed.

Lemma never_raises_for_each {A : Type} (e : PyError) (body : nat -> A -> M A)
    (l : list nat) :
  (forall i a, never_raises e (body i a)) ->
  forall a, never_raises e (for_each body l a).
Proof.
  intros Hb. induction l as [|i l IH]; intros a; simpl.
  - intros w. discriminate.
  - apply never_raises_bind; [apply Hb | exact IH].
Qed.

Lemma never_raises_lift {A : Type} (e : PyError) (r : Result A) :
  r <> Err e -> never_raises e (lift r).
Proof. intros Hr w. exact Hr. Qed.

Lemma never_raises_ret {A : Type} (e : PyError) (a : A) : never_raises e (ret a).
Proof. intros w. discriminate. Qed.

Lemma never_raises_modify (e : PyError) (f : Scratch -> Scratch) :
  never_raises e (modify_scratch f).
Proof. intros w. discriminate. Qed.

Lemma index_no_assertion {A : Type} (a : list A) (i : nat) :
  index a i <> Err AssertionError.
Proof. unfold index. destruct (nth_error a i); discriminate. Qed.

Lemma attr_no_assertion {A : Type} (a : option A) : attr a <> Err AssertionError.
Proof. destruct a; discriminate. Qed.

Lemma assign_no_assertion (a : list vec) (i : nat) (v : vec) :
  assign a i v <> Err AssertionError.
Proof.
  unfold assign, index. destruct (nth_error a i); simpl; [|discriminate].
  destruct (_ =? _); [discriminate|]. destruct (_ =? _); discriminate.
Qed.

Lemma transform_slice_no_assertion (ikz : nat) :
  never_raises AssertionError (transform_slice self ikz).
Proof.
  unfold transform_slice.
  apply never_raises_bind; [intros w; discriminate | intros u].
  apply never_raises_bind;
    [apply never_raises_lift, index_no_assertion | intros row].
  apply never_raises_bind; [apply never_raises_modify | intros _].
  apply never_raises_bind.
  { destruct (_ =? _); intros w; discriminate. }
  intros _. destruct (TST (trns self) row) as [row' ht].
  apply never_raises_bind; [|intros _; apply never_raises_modify].
  destruct (to_device_copies (bcknd self)); intros w; discriminate.
Qed.

Lemma store_no_assertion (target : option (list vec)) (ikz : nat) :
  never_raises AssertionError (store target ikz).
Proof.
  unfold store. apply never_raises_bind; [intros w; discriminate | intros s].
  destruct target as [d|].
  - apply never_raises_bind;
      [apply never_raises_lift, assign_no_assertion | intros; apply never_raises_ret].
  - apply never_raises_bind; [intros w; discriminate | intros u].
    apply never_raises_bind;
      [apply never_raises_lift, assign_no_assertion | intros d'].
    apply never_raises_bind; [intros w; discriminate | intros; apply never_raises_ret].
Qed.

Lemma stepping_no_assertion (dz : R) (u_out_given : bool) :
  never_raises AssertionError (stepping self dz u_out_given).
Proof.
  unfold stepping.
  apply never_raises_bind.
  - apply never_raises_for_each. intros ikz u_out.
    apply never_raises_bind; [intros w; discriminate | intros s].
    apply never_raises_bind;
      [apply never_raises_lift, attr_no_assertion | intros image].
    apply never_raises_bind;
      [apply never_raises_lift, index_no_assertion | intros row].
    apply never_raises_bind;
      [apply never_raises_lift, attr_no_assertion | intros phases].
    apply never_raises_bind;
      [apply never_raises_lift, index_no_assertion | intros phase].
    apply never_raises_bind; [apply never_raises_modify | intros _].
    apply never_raises_bind; [apply never_raises_modify | intros _].
    apply never_raises_bind; [apply never_raises_modify | intros _].
    apply store_no_assertion.
  - intros u_out.
    apply never_raises_bind; [intros w; discriminate | intros s].
    apply never_raises_bind;
      [apply never_raises_lift, attr_no_assertion | intros z].
    apply never_raises_bind;
      [apply never_raises_modify | intros; apply never_raises_ret].
Qed.

Lemma get_Ez_no_assertion : never_raises AssertionError (get_Ez self).
Proof.
  unfold get_Ez.
  apply never_raises_bind; [intros w; discriminate | intros ux].
  apply never_raises_bind;
    [apply never_raises_lift, attr_no_assertion | intros kxy].
  apply never_raises_bind; [|intros; apply never_raises_ret].
  apply never_raises_for_each. intros ikz uz.
  apply never_raises_bind; [apply transform_slice_no_assertion | intros _].
  apply never_raises_bind; [apply never_raises_modify | intros _].
  apply never_raises_bind; [apply never_raises_modify | intros _].
  apply never_raises_bind; [intros w; discriminate | intros s].
  apply never_raises_lift, assign_no_assertion.
Qed.

(** C8 (as amended).  When the type of the field differs from the
    propagator's, [step], [steps] and [initiate_stepping] raise
    [AssertionError] at once, leaving the propagator and the field
    untouched.  [stepping] takes no field; its optional output array is
    not checked, and it never raises that error. *)
Theorem dtype_mismatch (w : World) :
  dtype (arg w) <> self_dtype self ->
  (forall dz overwrite, step self dz overwrite w = (Err AssertionError, w)) /\
  (forall dz z_axis, steps self dz z_axis w = (Err AssertionError, w)) /\
  initiate_stepping self w = (Err AssertionError, w) /\
  (forall dz u_out, fst (stepping self dz u_out w) <> Err AssertionError).
Proof.
  intros Hne. repeat split.
  - intros dz overwrite. unfold step. erewrite bindM_Ok by reflexivity.
    unfold bindM, lift. now rewrite assert_dtype_fails.
  - intros dz z_axis. unfold steps. erewrite bindM_Ok by reflexivity.
    unfold bindM, lift. now rewrite assert_dtype_fails.
  - unfold initiate_stepping. erewrite bindM_Ok by reflexivity.
    unfold bindM, lift. now rewrite assert_dtype_fails.
  - intros dz u_out. apply stepping_no_assertion.
Qed.

End Guards.

Section GetEzSpec.

Context {T : Type} `{Transform T}.
Variable self : Propagator T.

Lemma zeros_like_nth_error (u : list vec) (i : nat) (row : vec) :
  nth_error u i = Some row ->
  nth_error (zeros_like u) i = Some (repeat C0 (length row)).
Proof.
  intros Hrow. unfold zeros_like. rewrite nth_error_map.
  now rewrite Hrow.
Qed.

Lemma get_Ez_spec (w : World) (kx ky : list R) :
  well_formed self -> well_shaped self (arg w) ->
  shape_trns_new self = shape_trns self ->
  kxy self = Some (kx, ky) ->
  exists w',
    get_Ez self w =
      (Ok (mk_ndarray (dtype (arg w))
             (map (fun ikz => Ez_row self kx ky ikz (nth ikz (data (arg w)) []))
                (range (Nkz self)))), w').
Proof.
  intros Hwf Hws Hshape Hk.
  set (u0 := data (arg w)).
  set (Z := zeros_like u0).
  set (F := fun k => Ez_row self kx ky k (nth k u0 [])).
  pose (Inv := fun (i : nat) (acc : list vec) (w' : World) =>
    acc = map F (seq 0 i) ++ skipn i Z /\
    dtype (arg w') = dtype (arg w) /\
    data (arg w') = if to_device_copies (bcknd self) then u0
                    else normalised self (firstn i u0) ++ skipn i u0).
  assert (Hl : length u0 = Nkz self) by apply Hws.
  unfold get_Ez.
  erewrite bindM_Ok by reflexivity.
  erewrite bindM_Ok by (unfold lift; now rewrite Hk).
  cbn [fst snd]. fold u0. fold Z.
  match goal with
  | |- context [for_each ?b _ _] =>
    destruct (for_each_inv b Inv (Nkz self) 0 Z w)
      as (acc & w' & Eloop & Iacc & Idt & Idata)
  end.
  - unfold Inv. simpl. repeat split.
    now destruct (to_device_copies (bcknd self)).
  - intros i acc w1 Hi (Iacc & Idt & Idata).
    destruct (row_of_well_shaped self (arg w) i Hws ltac:(lia)) as [Hrow Hlen].
    fold u0 in Hrow, Hlen.
    assert (Hrow1 : nth_error (data (arg w1)) i = Some (nth i u0 [])).
    { rewrite Idata. destruct (to_device_copies (bcknd self)); [exact Hrow|].
      rewrite nth_error_app_skipn; [exact Hrow|].
      unfold normalised. rewrite length_map, length_firstn. lia. }
    unfold bindM at 1. rewrite (transform_slice_ok self w1 i _ Hrow1 Hlen).
    unfold transformed_world.
    destruct (TST (trns self) (nth i u0 [])) as [row' ht] eqn:ETST.
    subst acc.
    unfold inverse_transform, assign, index, bind,
      modify_scratch, get_scratch, lift, ret, bindM.
    cbn [scratch arg u_ht u_iht set_u_ht set_u_iht set_u_loc].
    rewrite nth_error_app_skipn by (now rewrite length_map, length_seq).
    unfold Z. rewrite (zeros_like_nth_error u0 i _ Hrow).
    rewrite Hwf, repeat_length, Hlen, Hshape, Nat.eqb_refl.
    eexists _, _. split; [reflexivity|]. unfold Inv. cbn [scratch arg].
    split; [|split].
    + fold Z. rewrite set_nth_app.
      * rewrite seq_S, map_app. simpl. unfold F at 3, Ez_row.
        rewrite ETST. reflexivity.
      * now rewrite length_map, length_seq.
      * unfold Z, zeros_like. rewrite length_map. lia.
    + destruct (to_device_copies (bcknd self)); exact Idt.
    + destruct (to_device_copies (bcknd self)); [exact Idata|].
      cbn [data]. rewrite Idata.
      rewrite set_nth_app.
      * unfold normalised.
        rewrite (firstn_succ_nth u0 i []) by lia.
        rewrite map_app. simpl. now rewrite ETST.
      * unfold normalised. rewrite length_map, length_firstn. lia.
      * lia.
  - exists w'. unfold range. erewrite bindM_Ok by exact Eloop. unfold ret.
    subst acc. rewrite Nat.add_0_l.
    rewrite skipn_all2
      by (unfold Z, zeros_like; rewrite length_map; lia).
    now rewrite app_nil_r.
Qed.

End GetEzSpec.


(** ** The batch of steps *)

Section StepsSpec.

Context {T : Type} `{Transform T}.
Variable self : Propagator T.

Lemma fold_left_firstn_succ (phase : list R) (dz : list R) (t : nat) (ht : vec) :
  (t < length dz)%nat ->
  fold_left (advance phase) (firstn (S t) dz) ht =
  advance phase (fold_left (advance phase) (firstn t dz) ht) (nth t dz 0).
Proof.
  intros Ht. rewrite (firstn_succ_nth dz t 0 Ht), fold_left_app. reflexivity.
Qed.

Lemma steps_spec (dz : list R) (w : World) :
  well_formed self -> well_shaped self (arg w) ->
  dtype (arg w) = self_dtype self ->
  dz <> [] ->
  exists w',
    steps self (Some dz) None w =
      (Ok (Some (mk_ndarray3 (dtype (arg w)) (steps_result self dz (data (arg w))))),
       w') /\
    same_session (scratch w) (scratch w') /\
    dtype (arg w') = dtype (arg w) /\
    data (arg w') = if to_device_copies (bcknd self) then data (arg w)
                    else normalised self (data (arg w)).
Proof.
  intros Hwf Hws Hdt Hne.
  set (u0 := data (arg w)).
  set (Nsteps := length dz).
  set (Zrow := zeros (Nkz self) (shape_trns_new self)).
  set (E := steps_entry self dz u0).
  set (OUT := fun i => map (fun s => map (E s) (seq 0 i) ++ skipn i Zrow)
                         (seq 0 Nsteps)).
  assert (Hl : length u0 = Nkz self) by apply Hws.
  assert (HZ : length Zrow = Nkz self) by apply repeat_length.
  pose (Inv := fun (i : nat) (acc : list (list vec)) (w' : World) =>
    acc = OUT i /\
    same_session (scratch w) (scratch w') /\
    dtype (arg w') = dtype (arg w) /\
    data (arg w') = if to_device_copies (bcknd self) then u0
                    else normalised self (firstn i u0) ++ skipn i u0).
  unfold steps.
  erewrite bindM_Ok by reflexivity.
  erewrite bindM_Ok by (unfold lift; now rewrite assert_dtype_passes).
  erewrite bindM_Ok by reflexivity.
  cbv iota beta. fold Nsteps.
  replace (Nsteps =? 0)%nat with false
    by (symmetry; apply Nat.eqb_neq; unfold Nsteps; destruct dz; simpl; congruence).
  fold Zrow.
  match goal with
  | |- context [for_each ?b (range (Nkz self)) ?a0] =>
    destruct (for_each_inv b Inv (Nkz self) 0 a0 w)
      as (acc & w' & Eloop & Iacc & Isess & Idt & Idata)
  end.
  - unfold Inv. repeat split.
    + unfold OUT. simpl. clear. generalize 0%nat.
      induction Nsteps as [|n IH]; intros s; simpl; [reflexivity|].
      f_equal. apply IH.
    + now destruct (to_device_copies (bcknd self)).
  - intros i acc w1 Hi (Iacc & Isess & Idt & Idata).
    destruct (row_of_well_shaped self (arg w) i Hws ltac:(lia)) as [Hrow Hlen].
    fold u0 in Hrow, Hlen.
    assert (Hrow1 : nth_error (data (arg w1)) i = Some (nth i u0 [])).
    { rewrite Idata. destruct (to_device_copies (bcknd self)); [exact Hrow|].
      rewrite nth_error_app_skipn; [exact Hrow|].
      unfold normalised. rewrite length_map, length_firstn. lia. }
    unfold bindM at 1. rewrite (transform_slice_ok self w1 i _ Hrow1 Hlen).
    set (w2 := transformed_world self w1 i (nth i u0 [])).
    set (ht0 := snd (TST (trns self) (nth i u0 []))).
    assert (Hw2 : u_ht (scratch w2) = ht0 /\
                  same_session (scratch w) (scratch w2) /\
                  dtype (arg w2) = dtype (arg w) /\
                  data (arg w2) = if to_device_copies (bcknd self) then u0
                    else normalised self (firstn (S i) u0) ++ skipn (S i) u0).
    { unfold w2, ht0, transformed_world.
      destruct (TST (trns self) (nth i u0 [])) as [row' ht] eqn:ETST.
      cbn [scratch arg u_ht set_u_ht set_u_loc snd].
      split; [reflexivity|]. split; [exact Isess|].
      destruct (to_device_copies (bcknd self)); [split; assumption|].
      cbn [dtype data]. split; [exact Idt|]. rewrite Idata.
      rewrite set_nth_app.
      - unfold normalised. rewrite (firstn_succ_nth u0 i []) by lia.
        rewrite map_app. simpl. now rewrite ETST.
      - unfold normalised. rewrite length_map, length_firstn. lia.
      - lia. }
    clearbody w2. destruct Hw2 as (Hht & Hsess2 & Hdt2 & Hdata2).
    pose (InvIn := fun (t : nat) (acc' : list (list vec)) (w' : World) =>
      acc' = map (fun s => map (E s) (seq 0 (S i)) ++ skipn (S i) Zrow) (seq 0 t)
               ++ skipn t (OUT i) /\
      u_ht (scratch w') = fold_left (advance (ik_loc self i)) (firstn t dz) ht0 /\
      same_session (scratch w) (scratch w') /\
      arg w' = arg w2).
    match goal with
    | |- context [for_each ?b _ ?a0 w2] =>
      destruct (for_each_inv b InvIn Nsteps 0 a0 w2)
        as (acc' & w3 & Ein & Iacc' & _ & Isess3 & Iarg3)
    end.
    + unfold InvIn. subst acc. repeat split; try apply Hsess2; assumption.
    + intros t acc' w' Ht (Iacc' & Iht & Isess' & Iarg').
      unfold mul_phase, inverse_transform, assign3, assign, index, bind,
        modify_scratch, get_scratch, lift, ret, bindM.
      cbn [scratch arg u_ht u_iht set_u_ht set_u_iht].
      subst acc'.
      rewrite nth_error_app_skipn by (now rewrite length_map, length_seq).
      unfold OUT at 1. rewrite nth_error_map, nth_error_seq.
      replace (t <? Nsteps)%nat with true by (symmetry; apply Nat.ltb_lt; lia).
      cbn [option_map Nat.add].
      rewrite nth_error_app_skipn by (now rewrite length_map, length_seq).
      unfold Zrow at 1, zeros. rewrite nth_error_repeat by lia.
      rewrite Hwf, repeat_length, Nat.eqb_refl.
      eexists _, _. split; [reflexivity|]. unfold InvIn. cbn [scratch arg u_ht].
      repeat split; try apply Isess'; try assumption.
      * rewrite set_nth_app.
        -- rewrite (seq_S t), map_app. cbn [map Nat.add]. do 3 f_equal.
           fold (zeros (Nkz self) (shape_trns_new self)). fold Zrow.
           rewrite set_nth_app.
           ++ rewrite (seq_S i), map_app. cbn [map Nat.add]. do 3 f_equal.
              unfold E, steps_entry, steps_spectrum. fold ht0.
              rewrite fold_left_firstn_succ by (fold Nsteps; lia).
              rewrite Iht. reflexivity.
           ++ now rewrite length_map, length_seq.
           ++ lia.
        -- now rewrite length_map, length_seq.
        -- unfold OUT. rewrite length_map, length_seq. lia.
      * rewrite Iht. symmetry. apply fold_left_firstn_succ. fold Nsteps. lia.
    + exists acc', w3. split; [exact Ein|]. unfold Inv.
      rewrite Iarg3. repeat split; try apply Isess3; try assumption.
      subst acc'. rewrite Nat.add_0_l.
      rewrite (skipn_all2 (OUT i) (n := Nsteps))
        by (unfold OUT; rewrite length_map, length_seq; lia).
      now rewrite app_nil_r.
  - exists w'. unfold range. erewrite bindM_Ok by exact Eloop. unfold ret.
    repeat split; try apply Isess; try assumption.
    + assert (Hres : acc = steps_result self dz u0); [|now rewrite Hres].
      subst acc. unfold OUT, steps_result, range.
      apply map_ext. intros s. rewrite Nat.add_0_l.
      rewrite (skipn_all2 Zrow (n := Nkz self)) by lia. now rewrite app_nil_r.
    + rewrite Idata. destruct (to_device_copies (bcknd self)); [reflexivity|].
      rewrite Nat.add_0_l, <- Hl, firstn_all, skipn_all. now rewrite app_nil_r.
Qed.

End StepsSpec.


(** ** What a step leaves of its input *)

Section StepFrame.

Context {T : Type} `{Transform T}.
Variable self : Propagator T.

(** With a backend that transforms the caller's row itself, each row of
    the input is left as the transform's in-place step leaves it. *)
Lemma step_writes_through (dz : R) (w : World) :
  well_formed self -> well_shaped self (arg w) ->
  dtype (arg w) = self_dtype self ->
  to_device_copies (bcknd self) = false ->
  exists r w',
    step self dz false w = (Ok r, w') /\
    data (arg w') = normalised self (data (arg w)).
Proof.
  intros Hwf Hws Hdt Hc.
  destruct (step_spec self dz w Hwf Hws Hdt) as (w' & E & _ & _ & Hdata).
  rewrite Hc in Hdata. eauto.
Qed.

End StepFrame.


(** The rows [PropagatorSymmetric] leaves in the caller's array on such a
    backend: each divided by the scale vector [_j]. *)
Lemma symmetric_step_divides_input (self : Propagator PropagatorSymmetric.t)
    (dz : R) (w : World) :
  well_formed self -> well_shaped self (arg w) ->
  dtype (arg w) = self_dtype self ->
  to_device_copies (bcknd self) = false ->
  exists r w',
    step self dz false w = (Ok r, w') /\
    data (arg w') =
      map (fun row => zip_with Cdiv_real row (PropagatorSymmetric._j (trns self)))
        (data (arg w)).
Proof. exact (step_writes_through self dz w). Qed.

Lemma demo_field_well_shaped (p : Propagator PropagatorFFT2.t) (k : R) :
  kz p = [k] -> shape_trns p = 4%nat -> well_shaped p demo_field.
Proof.
  intros Hkz Hs. split.
  - unfold Nkz. now rewrite Hkz.
  - constructor; [|constructor]. now rewrite Hs.
Qed.



Lemma dtype_mismatch_witness :
  let w := mk_World (init_buffers 4 4) (mk_ndarray complex64 [[C1; C0; C0; C0]]) in
  exists p s,
    fft2_demo = Ok (p, s) /\
    step p 1 false w = (Err AssertionError, w) /\
    steps p (Some [1]) None w = (Err AssertionError, w) /\
    initiate_stepping p w = (Err AssertionError, w) /\
    fst (stepping p 1 false w) <> Err AssertionError.
Proof.
  intros w.
  destruct fft2_demo_ok as (p & s & E & Hdt & _).
  exists p, s. split; [exact E|].
  assert (Hne : dtype (arg w) <> self_dtype p) by (rewrite Hdt; discriminate).
  destruct (dtype_mismatch p w Hne) as (H1 & H2 & H3 & H4).
  repeat split; auto.
Defined.


(** ** Evanescent modes *)

Lemma phase_factor_real (dz ph : R) : phase_factor dz (RtoC ph) = cis (dz * ph).
Proof.
  unfold phase_factor, Cexp, Ci, RtoC, Cmult, cis. cbn [fst snd].
  replace ((0 * dz - 1 * 0) * ph - (0 * 0 + 1 * dz) * 0) with 0 by ring.
  replace ((0 * dz - 1 * 0) * 0 + (0 * 0 + 1 * dz) * ph) with (dz * ph) by ring.
  rewrite exp_0. f_equal; ring.
Qed.

Lemma clamp_phase_evanescent (kzi k2 : R) : kzi ^ 2 < k2 -> clamp_phase kzi k2 = 0.
Proof.
  intros Hlt. unfold clamp_phase, ge0.
  destruct (Rle_dec 0 (kzi ^ 2 - k2)) as [Hle|_]; [lra|].
  rewrite Rmult_0_l. apply sqrt_0.
Qed.

Lemma clamp_phase_propagating (kzi k2 : R) :
  k2 <= kzi ^ 2 -> clamp_phase kzi k2 = sqrt (kzi ^ 2 - k2).
Proof.
  intros Hle. unfold clamp_phase, ge0.
  destruct (Rle_dec 0 (kzi ^ 2 - k2)) as [_|Hn]; [|lra].
  now rewrite Rmult_1_l.
Qed.

Lemma abs_phase_evanescent (kzi k2 : R) :
  kzi ^ 2 < k2 -> abs_phase kzi k2 = sqrt (k2 - kzi ^ 2).
Proof.
  intros Hlt. unfold abs_phase. rewrite Rabs_left by lra. f_equal. ring.
Qed.

Lemma abs_phase_propagating (kzi k2 : R) :
  k2 <= kzi ^ 2 -> abs_phase kzi k2 = sqrt (kzi ^ 2 - k2).
Proof.
  intros Hle. unfold abs_phase. rewrite Rabs_right by lra. reflexivity.
Qed.

(** Sample [j] of a spectrum after a phase multiplication. *)
Lemma nth_advance (phase : list R) (ht : list C) (dz : R) (j : nat) :
  (j < length phase)%nat ->
  nth j (advance phase ht dz) C0 =
    (nth j ht C0 * phase_factor dz (RtoC (nth j phase 0)))%C.
Proof.
  unfold advance. revert phase j.
  induction ht as [|u ht IH]; intros [|ph phase] j Hj; simpl in Hj; try lia.
  - destruct j; simpl; ring.
  - destruct j as [|j]; simpl; [reflexivity|]. apply IH. lia.
Qed.

Section Evanescent.

Context {T : Type} `{Transform T}.
Variable self : Propagator T.

Lemma step_spectrum_evanescent (dz : R) (ikz j : nat) (row : list C) :
  (j < length (kr2 self))%nat ->
  (nth ikz (kz self) 0) ^ 2 < nth j (kr2 self) 0 ->
  nth j (step_spectrum self dz ikz row) C0 =
    nth j (snd (TST (trns self) row)) C0.
Proof.
  intros Hj Hev. unfold step_spectrum.
  change (zip_with _ ?ht ?phase) with (advance phase ht dz).
  rewrite nth_advance by (now rewrite length_map).
  rewrite (nth_indep _ 0 (clamp_phase (nth ikz (kz self) 0) 0))
    by (now rewrite length_map).
  rewrite map_nth, clamp_phase_evanescent by exact Hev.
  rewrite phase_factor_real, Rmult_0_r, cis_0. ring.
Qed.

Lemma steps_spectrum_evanescent (dz : R) (ikz j : nat) (row : list C) :
  (j < length (kr2 self))%nat ->
  (nth ikz (kz self) 0) ^ 2 < nth j (kr2 self) 0 ->
  nth j (steps_spectrum self [dz] ikz row) C0 =
    (nth j (snd (TST (trns self) row)) C0 *
     cis (dz * sqrt (nth j (kr2 self) 0 - (nth ikz (kz self) 0) ^ 2)))%C.
Proof.
  intros Hj Hev. unfold steps_spectrum. cbn [fold_left].
  unfold ik_loc. rewrite nth_advance by (now rewrite length_map).
  rewrite (nth_indep _ 0 (abs_phase (nth ikz (kz self) 0) 0))
    by (now rewrite length_map).
  rewrite map_nth, abs_phase_evanescent by exact Hev.
  now rewrite phase_factor_real.
Qed.

(** C1 (as amended).  For a slice [ikz] and a spectral mode [j] with
    [0 <= kz[ikz] < kr[j]], [step] leaves the spectral sample of that mode
    as the transform gave it, while [steps] with the schedule [[dz]]
    multiplies it by the unit phasor
    [exp(1j * dz * sqrt(kr[j]**2 - kz[ikz]**2))]: the phase of the mode
    turns, and its amplitude is unchanged there too.  The rows both
    methods return are the inverse transforms of these spectra. *)
Theorem evanescent_mode (dz : R) (w : World) (ikz j : nat) (kr_j : R) :
  well_formed self -> well_shaped self (arg w) ->
  dtype (arg w) = self_dtype self ->
  (ikz < Nkz self)%nat -> (j < length (kr2 self))%nat ->
  nth j (kr2 self) 0 = kr_j ^ 2 ->
  0 <= nth ikz (kz self) 0 < kr_j ->
  let row := nth ikz (data (arg w)) [] in
  let a := nth j (snd (TST (trns self) row)) C0 in
  let s1 := step_spectrum self dz ikz row in
  let s2 := steps_spectrum self [dz] ikz row in
  (exists u1 w1,
     step self dz false w = (Ok (Fresh u1), w1) /\
     nth ikz (data u1) [] = iTST (trns self) s1) /\
  (exists u2 w2,
     steps self (Some [dz]) None w = (Ok (Some u2), w2) /\
     nth ikz (nth 0 (data3 u2) []) [] = iTST (trns self) s2) /\
  nth j s1 C0 = a /\
  nth j s2 C0 =
    (a * cis (dz * sqrt (kr_j ^ 2 - (nth ikz (kz self) 0) ^ 2)))%C /\
  Cmod (nth j s2 C0) = Cmod a.
Proof.
  intros Hwf Hws Hdt Hi Hj Hkr Hev row a s1 s2.
  assert (Hlt : (nth ikz (kz self) 0) ^ 2 < nth j (kr2 self) 0).
  { rewrite Hkr. nra. }
  assert (Hs2 : nth j s2 C0 =
    (a * cis (dz * sqrt (kr_j ^ 2 - (nth ikz (kz self) 0) ^ 2)))%C).
  { unfold s2, a. rewrite steps_spectrum_evanescent by assumption.
    now rewrite Hkr. }
  split; [|split; [|split; [|split]]].
  - destruct (step_spec self dz w Hwf Hws Hdt) as (w1 & E & _).
    eexists _, w1. split; [exact E|]. cbn [data]. unfold step_result, range.
    rewrite (nth_indep _ [] (step_row self dz 0 (nth 0 (data (arg w)) [])))
      by (now rewrite length_map, length_seq).
    rewrite (map_nth (fun k => step_row self dz k (nth k (data (arg w)) []))).
    rewrite seq_nth by exact Hi. reflexivity.
  - destruct (steps_spec self [dz] w Hwf Hws Hdt ltac:(discriminate))
      as (w2 & E & _).
    eexists _, w2. split; [exact E|]. cbn [data3]. unfold steps_result, range.
    cbn [length seq map nth].
    rewrite (nth_indep _ [] (steps_entry self [dz] (data (arg w)) 0 0))
      by (now rewrite length_map, length_seq).
    rewrite (map_nth (steps_entry self [dz] (data (arg w)) 0)).
    rewrite seq_nth by exact Hi. reflexivity.
  - unfold s1, a. now apply step_spectrum_evanescent.
  - exact Hs2.
  - rewrite Hs2. apply Cmod_mult_cis.
Qed.

End Evanescent.

(** The spectral grid of the demonstration propagator: the mode (0, 1)
    has [kr = pi], above the wavenumber [kz = 1]. *)
Lemma fft2_demo_grid (p : Propagator PropagatorFFT2.t) (s : Scratch) :
  fft2_demo = Ok (p, s) ->
  nth 0 (kz p) 0 = 1 /\ nth 1 (kr2 p) 0 = PI ^ 2.
Proof.
  unfold fft2_demo, PropagatorFFT2.init. rewrite demo_backend.
  cbn [bind fst snd]. unfold init_xykxy_fft2.
  rewrite !(linspace_index _ _ 2 1), !(linspace_index _ _ 2 0) by lia.
  cbn [bind Nat.eqb Nat.ltb Nat.leb andb].
  intros E. injection E as <- _.
  cbn [kz kr2 init_kz g_kr2xy nth]. split; [reflexivity|].
  unfold fftfreq. 
  change ((2 + 1) / 2)%nat with 1%nat. change (2 / 2)%nat with 1%nat.
  cbn [seq map app hypot_grid flat_map nth Nat.sub].
  match goal with
  | |- context [sqrt ?X] => replace X with (PI ^ 2) by (simpl; field)
  end.
  rewrite sqrt_pow2 by (pose proof PI_RGT_0; lra). simpl. ring.
Qed.

Lemma twiddle_0_r (s : R) (N k : nat) : twiddle s N k 0 = C1.
Proof.
  unfold twiddle. simpl INR.
  replace (s * (2 * PI * INR k * 0 / INR N)) with 0
    by (unfold Rdiv; ring).
  apply cis_0.
Qed.

Lemma Cmod_C1 : Cmod C1 = 1.
Proof.
  unfold Cmod, C1, RtoC. cbn [fst snd].
  replace (1 * 1 + 0 * 0) with 1 by ring. apply sqrt_1.
Qed.

(** The transform of the demonstration field: every mode has amplitude 1. *)
Lemma fft2_demo_field :
  fft2 2 2 [C1; C0; C0; C0] = [C1; C1; C1; C1].
Proof.
  unfold fft2, tabulate2, Csum, Csum_list, at2.
  cbn [seq map flat_map app fold_right nth Nat.mul Nat.add].
  rewrite !twiddle_0_r.
  repeat (f_equal; [ring|]). f_equal. ring.
Qed.

(** The claim of C1 as stated fails for [steps]: on the propagator built
    by [PropagatorFFT2((1., 2), (1., 2), np.array([1.]))] the mode (0, 1)
    has [kr = pi > kz = 1]; for the field that is 1 at the first sample
    its amplitude is 1 after the transform and still 1 after
    [steps(u, [1.])]. *)
Lemma evanescent_mode_counterexample :
  exists p s,
    fft2_demo = Ok (p, s) /\
    0 <= nth 0 (kz p) 0 < PI /\ nth 1 (kr2 p) 0 = PI ^ 2 /\
    let row := nth 0 (data demo_field) [] in
    let s2 := steps_spectrum p [1] 0 row in
    (exists u2 w2,
       steps p (Some [1]) None (mk_World s demo_field) = (Ok (Some u2), w2) /\
       nth 0 (nth 0 (data3 u2) []) [] = iTST (trns p) s2) /\
    Cmod (nth 1 (snd (TST (trns p) row)) C0) = 1 /\
    Cmod (nth 1 s2 C0) = 1.
Proof.
  destruct (fft2_init_ok demo_registry device_backend 1 1 2 2 (KzArray [1])
              complex128 None demo_backend ltac:(lia) ltac:(lia))
    as (p & s & E & Hdt & Hbk & Hkz & Hs & Hsn & Hkr & HNx & HNy & Hwf & _).
  destruct (fft2_demo_grid p s E) as [Hkz0 Hkr1].
  exists p, s. split; [exact E|].
  assert (Hpi : 1 < PI) by (pose proof PI2_1; lra).
  split; [rewrite Hkz0; lra|]. split; [exact Hkr1|].
  intros row s2.
  assert (Ha : nth 1 (snd (TST (trns p) row)) C0 = C1).
  { unfold row. cbn [demo_field data nth TST PropagatorFFT2.transform snd].
    rewrite HNx, HNy, fft2_demo_field. reflexivity. }
  assert (Hws : well_shaped p (arg (mk_World s demo_field)))
    by (apply (demo_field_well_shaped p 1); assumption).
  split; [|split].
  - destruct (steps_spec p [1] (mk_World s demo_field) Hwf Hws
                (eq_sym Hdt) ltac:(discriminate)) as (w2 & E2 & _).
    eexists _, w2. split; [exact E2|]. cbn [data3 arg].
    unfold steps_result, range, Nkz. rewrite Hkz. reflexivity.
  - rewrite Ha. apply Cmod_C1.
  - unfold s2. rewrite steps_spectrum_evanescent.
    + rewrite Ha, Cmod_mult_cis. apply Cmod_C1.
    + rewrite Hkr. lia.
    + rewrite Hkz0, Hkr1. nra.
Qed.

Lemma evanescent_mode_witness :
  exists p s,
    fft2_demo = Ok (p, s) /\
    let w := mk_World s demo_field in
    let row := nth 0 (data demo_field) [] in
    let a := nth 1 (snd (TST (trns p) row)) C0 in
    let s1 := step_spectrum p 1 0 row in
    let s2 := steps_spectrum p [1] 0 row in
    (exists u1 w1,
       step p 1 false w = (Ok (Fresh u1), w1) /\
       nth 0 (data u1) [] = iTST (trns p) s1) /\
    (exists u2 w2,
       steps p (Some [1]) None w = (Ok (Some u2), w2) /\
       nth 0 (nth 0 (data3 u2) []) [] = iTST (trns p) s2) /\
    nth 1 s1 C0 = a /\
    nth 1 s2 C0 = (a * cis (1 * sqrt (PI ^ 2 - (nth 0 (kz p) 0) ^ 2)))%C /\
    Cmod (nth 1 s2 C0) = Cmod a.
Proof.
  destruct (fft2_init_ok demo_registry device_backend 1 1 2 2 (KzArray [1])
              complex128 None demo_backend ltac:(lia) ltac:(lia))
    as (p & s & E & Hdt & Hbk & Hkz & Hs & Hsn & Hkr & HNx & HNy & Hwf & _).
  destruct (fft2_demo_grid p s E) as [Hkz0 Hkr1].
  exists p, s. split; [exact E|].
  assert (Hpi : 1 < PI) by (pose proof PI2_1; lra).
  apply (evanescent_mode p 1 (mk_World s demo_field) 0 1 PI Hwf).
  - apply (demo_field_well_shaped p 1); assumption.
  - now rewrite Hdt.
  - unfold Nkz. rewrite Hkz. simpl. lia.
  - rewrite Hkr. lia.
  - exact Hkr1.
  - rewrite Hkz0. lra.
Defined.


(** ** Linearity *)

Lemma lincomb_length (a b : C) (x y : list C) :
  length x = length y -> length (lincomb a b x y) = length x.
Proof.
  unfold lincomb. revert y; induction x as [|xi x IH]; intros [|yi y] Hl;
    simpl in *; try lia. f_equal. apply IH. lia.
Qed.

Lemma zip_with_lincomb_l {B : Type} (f : C -> B -> C) (a b : C)
    (x y : list C) (l : list B) :
  (forall xi yi e, f (a * xi + b * yi)%C e = (a * f xi e + b * f yi e)%C) ->
  length x = length y ->
  zip_with f (lincomb a b x y) l = lincomb a b (zip_with f x l) (zip_with f y l).
Proof.
  intros Hf. unfold lincomb. revert y l.
  induction x as [|xi x IH]; intros [|yi y] [|e l] Hl; simpl in *;
    try lia; try reflexivity.
  rewrite Hf. f_equal. apply IH. lia.
Qed.

Lemma Csum_list_lincomb (a b : C) (x y : list C) :
  length x = length y ->
  Csum_list (lincomb a b x y) = (a * Csum_list x + b * Csum_list y)%C.
Proof.
  unfold lincomb, Csum_list. revert y.
  induction x as [|xi x IH]; intros [|yi y] Hl; simpl in *; try lia.
  - ring.
  - rewrite IH by lia. ring.
Qed.

Lemma zip_with_lincomb_r (f : C -> C -> C) (a b : C) (l x y : list C) :
  (forall e xi yi, f e (a * xi + b * yi)%C = (a * f e xi + b * f e yi)%C) ->
  length x = length y ->
  zip_with f l (lincomb a b x y) = lincomb a b (zip_with f l x) (zip_with f l y).
Proof.
  intros Hf. unfold lincomb. revert x y.
  induction l as [|e l IH]; intros [|xi x] [|yi y] Hl; simpl in *;
    try lia; try reflexivity.
  rewrite Hf. f_equal. apply IH. lia.
Qed.

Lemma zip_with_length_r {A B D : Type} (f : A -> B -> D) (l : list A)
    (x y : list B) :
  length x = length y -> length (zip_with f l x) = length (zip_with f l y).
Proof.
  revert x y. induction l as [|e l IH]; intros [|xi x] [|yi y] Hl; simpl in *;
    try lia. f_equal. apply IH. lia.
Qed.

Lemma zip_with_length_l {A B D : Type} (f : A -> B -> D) (x y : list A)
    (l : list B) :
  length x = length y -> length (zip_with f x l) = length (zip_with f y l).
Proof.
  revert y l. induction x as [|xi x IH]; intros [|yi y] [|e l] Hl; simpl in *;
    try lia. f_equal. apply IH. lia.
Qed.

Lemma dot_lincomb (a b : C) (row x y : list C) :
  length x = length y ->
  dot row (lincomb a b x y) = (a * dot row x + b * dot row y)%C.
Proof.
  intros Hl. unfold dot.
  rewrite (zip_with_lincomb_r Cmult a b row x y) by (intros; ring || exact Hl).
  apply Csum_list_lincomb, zip_with_length_r, Hl.
Qed.

Lemma lincomb_map {A : Type} (a b : C) (g h : A -> C) (l : list A) :
  lincomb a b (map g l) (map h l) = map (fun e => (a * g e + b * h e)%C) l.
Proof.
  unfold lincomb. induction l as [|e l IH]; simpl; [reflexivity|]. now rewrite IH.
Qed.

Lemma matvec_lincomb (a b : C) (Mx : list (list C)) (x y : list C) :
  length x = length y ->
  matvec Mx (lincomb a b x y) = lincomb a b (matvec Mx x) (matvec Mx y).
Proof.
  intros Hl. unfold matvec. rewrite lincomb_map.
  apply map_ext. intros row. now apply dot_lincomb.
Qed.

Lemma matvec_length (Mx : list (list C)) (x : list C) :
  length (matvec Mx x) = length Mx.
Proof. unfold matvec. apply length_map. Qed.

Lemma nth_lincomb (a b : C) (x y : list C) (k : nat) :
  length x = length y ->
  nth k (lincomb a b x y) C0 = (a * nth k x C0 + b * nth k y C0)%C.
Proof.
  unfold lincomb. revert y k.
  induction x as [|xi x IH]; intros [|yi y] k Hl; simpl in *; try lia.
  - destruct k; ring.
  - destruct k as [|k]; [reflexivity|]. apply IH. lia.
Qed.

Lemma Csum_lincomb (a b : C) (n : nat) (f g : nat -> C) :
  Csum n (fun k => (a * f k + b * g k)%C) = (a * Csum n f + b * Csum n g)%C.
Proof.
  unfold Csum. rewrite <- lincomb_map. apply Csum_list_lincomb.
  now rewrite !length_map.
Qed.

Lemma Csum_ext (n : nat) (f g : nat -> C) :
  (forall k, (k < n)%nat -> f k = g k) -> Csum n f = Csum n g.
Proof.
  intros Hfg. unfold Csum. f_equal. apply map_ext_in.
  intros k Hk. apply in_seq in Hk. apply Hfg. lia.
Qed.

Lemma zip_with_app {A B D : Type} (f : A -> B -> D) (l1 l1' : list A)
    (l2 l2' : list B) :
  length l1 = length l2 ->
  zip_with f (l1 ++ l1') (l2 ++ l2') = zip_with f l1 l2 ++ zip_with f l1' l2'.
Proof.
  revert l2. induction l1 as [|x l1 IH]; intros [|y l2] Hl; simpl in *;
    try lia; [reflexivity|]. f_equal. apply IH. lia.
Qed.

Lemma tabulate2_lincomb (a b : C) (Nx Ny : nat) (f g : nat -> nat -> C) :
  tabulate2 Nx Ny (fun p q => (a * f p q + b * g p q)%C) =
  lincomb a b (tabulate2 Nx Ny f) (tabulate2 Nx Ny g).
Proof.
  unfold tabulate2. induction (seq 0 Nx) as [|p P IH]; [reflexivity|].
  cbn [flat_map]. rewrite IH. unfold lincomb at 2.
  rewrite zip_with_app by (now rewrite !length_map).
  f_equal. symmetry. apply (lincomb_map a b (f p) (g p)).
Qed.

Lemma fft2_lincomb (a b : C) (Nx Ny : nat) (x y : list C) :
  length x = length y ->
  fft2 Nx Ny (lincomb a b x y) = lincomb a b (fft2 Nx Ny x) (fft2 Nx Ny y).
Proof.
  intros Hl. unfold fft2. rewrite <- tabulate2_lincomb.
  unfold tabulate2. apply flat_map_ext. intros p. apply map_ext. intros q.
  rewrite <- Csum_lincomb. apply Csum_ext. intros m _.
  rewrite <- Csum_lincomb. apply Csum_ext. intros n _.
  unfold at2. rewrite nth_lincomb by exact Hl. ring.
Qed.

Lemma Cscale_lincomb (r : R) (a b x y : C) :
  Cscale r (a * x + b * y)%C = (a * Cscale r x + b * Cscale r y)%C.
Proof.
  destruct a, b, x, y. unfold Cscale, Cmult, Cplus. cbn [fst snd]. f_equal; ring.
Qed.

Lemma Cdiv_real_lincomb (r : R) (a b x y : C) :
  Cdiv_real (a * x + b * y)%C r = (a * Cdiv_real x r + b * Cdiv_real y r)%C.
Proof.
  destruct a, b, x, y. unfold Cdiv_real, Cmult, Cplus, Rdiv. cbn [fst snd].
  f_equal; ring.
Qed.

Lemma ifft2_lincomb (a b : C) (Nx Ny : nat) (x y : list C) :
  length x = length y ->
  ifft2 Nx Ny (lincomb a b x y) = lincomb a b (ifft2 Nx Ny x) (ifft2 Nx Ny y).
Proof.
  intros Hl. unfold ifft2. rewrite <- tabulate2_lincomb.
  unfold tabulate2. apply flat_map_ext. intros p. apply map_ext. intros q.
  rewrite <- Cscale_lincomb. f_equal.
  rewrite <- Csum_lincomb. apply Csum_ext. intros m _.
  rewrite <- Csum_lincomb. apply Csum_ext. intros n _.
  unfold at2. rewrite nth_lincomb by exact Hl. ring.
Qed.

Lemma symmetric_linear (s : PropagatorSymmetric.t) : linear_strategy s.
Proof.
  intros a b x y Hl. cbn [TST iTST PropagatorSymmetric.transform snd].
  repeat split.
  - rewrite zip_with_lincomb_l by (intros; apply Cdiv_real_lincomb || exact Hl).
    apply matvec_lincomb. now apply zip_with_length_l.
  - now rewrite !matvec_length.
  - rewrite matvec_lincomb by exact Hl.
    apply zip_with_lincomb_l; [intros; apply Cscale_lincomb|].
    now rewrite !matvec_length.
Qed.

Lemma resampling_linear (s : PropagatorResampling.t) : linear_strategy s.
Proof.
  intros a b x y Hl. cbn [TST iTST PropagatorResampling.transform snd].
  repeat split.
  - now apply matvec_lincomb.
  - now rewrite !matvec_length.
  - now apply matvec_lincomb.
Qed.

Lemma fft2_strategy_linear (s : PropagatorFFT2.t) : linear_strategy s.
Proof.
  intros a b x y Hl. cbn [TST iTST PropagatorFFT2.transform snd].
  repeat split.
  - now apply fft2_lincomb.
  - unfold fft2. now rewrite !tabulate2_length.
  - now apply ifft2_lincomb.
Qed.

Lemma zip_with_map {A B D E : Type} (f : B -> D -> E) (g : A -> B) (h : A -> D)
    (l : list A) :
  zip_with f (map g l) (map h l) = map (fun e => f (g e) (h e)) l.
Proof. induction l as [|e l IH]; simpl; [reflexivity|]. now rewrite IH. Qed.

Lemma nth_zip_with_lincomb (a b : C) (d1 d2 : list (list C)) (k : nat) :
  length d1 = length d2 ->
  nth k (zip_with (lincomb a b) d1 d2) [] =
    lincomb a b (nth k d1 []) (nth k d2 []).
Proof.
  revert d2 k. induction d1 as [|x d1 IH]; intros [|y d2] k Hl; simpl in *;
    try lia.
  - destruct k; reflexivity.
  - destruct k as [|k]; [reflexivity|]. apply IH. lia.
Qed.

Lemma zip_with_length {A B D : Type} (f : A -> B -> D) (l : list A) (m : list B) :
  length l = length m -> length (zip_with f l m) = length l.
Proof.
  revert m. induction l as [|x l IH]; intros [|y m] Hl; simpl in *; try lia.
  f_equal. apply IH. lia.
Qed.

Section Linearity.

Context {T : Type} `{Transform T}.
Variable self : Propagator T.

Lemma field_lincomb_well_shaped (a b : C) (u1 u2 : ndarray) :
  well_shaped self u1 -> well_shaped self u2 ->
  well_shaped self (field_lincomb a b u1 u2).
Proof.
  intros [Hl1 Hr1] [Hl2 Hr2]. unfold field_lincomb. split; cbn [data].
  - rewrite zip_with_length; congruence.
  - revert Hr1 Hr2. generalize (data u1) (data u2). clear.
    induction l as [|x l IH]; intros [|y m] H1 H2; simpl; try constructor.
    + inversion H1; inversion H2; subst.
      rewrite lincomb_length; congruence.
    + inversion H1; inversion H2; subst. now apply IH.
Qed.

Lemma step_row_lincomb (a b : C) (dz : R) (ikz : nat) (x y : list C) :
  linear_strategy (trns self) -> length x = length y ->
  step_row self dz ikz (lincomb a b x y) =
    lincomb a b (step_row self dz ikz x) (step_row self dz ikz y).
Proof.
  intros Hlin Hl. unfold step_row, step_spectrum.
  destruct (Hlin a b x y Hl) as (-> & Hlen & _).
  rewrite zip_with_lincomb_l by (intros; ring || exact Hlen).
  apply Hlin. now apply zip_with_length_l.
Qed.

Lemma step_result_lincomb (a b : C) (dz : R) (u1 u2 : ndarray) :
  linear_strategy (trns self) ->
  well_shaped self u1 -> well_shaped self u2 ->
  step_result self dz (data (field_lincomb a b u1 u2)) =
    zip_with (lincomb a b) (step_result self dz (data u1))
      (step_result self dz (data u2)).
Proof.
  intros Hlin Hws1 Hws2. unfold step_result. rewrite zip_with_map.
  apply map_ext_in. intros k Hk. apply in_seq in Hk.
  cbn [field_lincomb data].
  rewrite nth_zip_with_lincomb by (destruct Hws1, Hws2; congruence).
  apply step_row_lincomb; [exact Hlin|].
  destruct (row_of_well_shaped self u1 k Hws1 ltac:(lia)) as [_ ->].
  destruct (row_of_well_shaped self u2 k Hws2 ltac:(lia)) as [_ ->].
  reflexivity.
Qed.

Lemma linear_strategy_step : linear_strategy (trns self) -> step_is_linear self.
Proof.
  intros Hlin a b u1 u2 dz s1 s2 s12 Hwf Hws1 Hws2 Hdt1 Hdt2.
  destruct (step_spec self dz (mk_World s1 u1) Hwf Hws1 Hdt1) as (w1 & E1 & _).
  destruct (step_spec self dz (mk_World s2 u2) Hwf Hws2 Hdt2) as (w2 & E2 & _).
  destruct (step_spec self dz (mk_World s12 (field_lincomb a b u1 u2)) Hwf
              (field_lincomb_well_shaped a b u1 u2 Hws1 Hws2) Hdt1)
    as (w12 & E12 & _).
  eexists _, _, _, w1, w2, w12.
  split; [exact E1|]. split; [exact E2|]. split; [exact E12|].
  cbn [arg]. rewrite step_result_lincomb by assumption. reflexivity.
Qed.

End Linearity.

(** C4.  For each of the three propagator classes, and for fields [u1],
    [u2] of the propagator's shape and type, complex scalars [a], [b] and
    any distance [dz]:
    [step(a * u1 + b * u2, dz) = a * step(u1, dz) + b * step(u2, dz)]. *)
Theorem step_linear :
  (forall self : Propagator PropagatorSymmetric.t, step_is_linear self) /\
  (forall self : Propagator PropagatorResampling.t, step_is_linear self) /\
  (forall self : Propagator PropagatorFFT2.t, step_is_linear self).
Proof.
  repeat split; intros self; apply linear_strategy_step.
  - apply symmetric_linear.
  - apply resampling_linear.
  - apply fft2_strategy_linear.
Qed.

Lemma step_linear_witness :
  exists p s r1 r2 r12 w1 w2 w12,
    fft2_demo = Ok (p, s) /\
    step p 1 false (mk_World s demo_field) = (Ok (Fresh r1), w1) /\
    step p 1 false (mk_World s demo_field) = (Ok (Fresh r2), w2) /\
    step p 1 false (mk_World s (field_lincomb Ci C1 demo_field demo_field)) =
      (Ok (Fresh r12), w12) /\
    r12 = field_lincomb Ci C1 r1 r2.
Proof.
  destruct fft2_demo_ok as (p & s & E & Hdt & Hbk & Hkz & Hs & _ & _ & Hwf).
  destruct (proj2 (proj2 step_linear) p Ci C1 demo_field demo_field 1 s s s Hwf
              (demo_field_well_shaped p 1 Hkz Hs) (demo_field_well_shaped p 1 Hkz Hs)
              (eq_sym Hdt) (eq_sym Hdt))
    as (r1 & r2 & r12 & w1 & w2 & w12 & E1 & E2 & E12 & Hr).
  exists p, s, r1, r2, r12, w1, w2, w12. repeat split; assumption.
Defined.


(** ** The stepping session *)

Section SessionSpec.

Context {T : Type} `{Transform T}.
Variable self : Propagator T.

Lemma initiate_stepping_spec (w : World) :
  well_formed_spectrum self -> well_shaped self (arg w) ->
  dtype (arg w) = self_dtype self ->
  exists w',
    initiate_stepping self w = (Ok tt, w') /\
    stepping_image (scratch w') =
      Some (map (fun row => snd (TST (trns self) row)) (data (arg w))) /\
    phase_loc (scratch w') = Some (map (session_phase self) (range (Nkz self))) /\
    z_propagation (scratch w') = Some 0.
Proof.
  intros [Hspec Hkr] Hws Hdt.
  set (u0 := data (arg w)).
  set (Z := zeros_like u0).
  set (G := fun row => snd (TST (trns self) row)).
  assert (Hl : length u0 = Nkz self) by apply Hws.
  pose (Inv := fun (i : nat) (_ : unit) (w' : World) =>
    stepping_image (scratch w') = Some (map G (firstn i u0) ++ skipn i Z) /\
    phase_loc (scratch w') =
      Some (map (session_phase self) (seq 0 i) ++ skipn i Z) /\
    z_propagation (scratch w') = Some 0 /\
    data (arg w') = if to_device_copies (bcknd self) then u0
                    else normalised self (firstn i u0) ++ skipn i u0).
  unfold initiate_stepping.
  erewrite bindM_Ok by reflexivity.
  erewrite bindM_Ok by (unfold lift; now rewrite assert_dtype_passes).
  erewrite bindM_Ok by reflexivity.
  erewrite bindM_Ok by reflexivity.
  erewrite bindM_Ok by reflexivity.
  fold u0. fold Z.
  match goal with
  | |- context [for_each ?b (range (Nkz self)) tt ?w0] =>
    destruct (for_each_inv b Inv (Nkz self) 0 tt w0)
      as ([] & w' & Eloop & Iimg & Iph & Iz & Idata)
  end.
  - unfold Inv. cbn. repeat split.
    now destruct (to_device_copies (bcknd self)).
  - intros i [] w1 Hi (Iimg & Iph & Iz & Idata).
    destruct (row_of_well_shaped self (arg w) i Hws ltac:(lia)) as [Hrow Hlen].
    fold u0 in Hrow, Hlen.
    assert (Hrow1 : nth_error (data (arg w1)) i = Some (nth i u0 [])).
    { rewrite Idata. destruct (to_device_copies (bcknd self)); [exact Hrow|].
      rewrite nth_error_app_skipn; [exact Hrow|].
      unfold normalised. rewrite length_map, length_firstn. lia. }
    unfold bindM at 1. rewrite (transform_slice_ok self w1 i _ Hrow1 Hlen).
    pose proof (Hspec _ Hlen) as Hht.
    unfold transformed_world.
    destruct (TST (trns self) (nth i u0 [])) as [row' ht] eqn:ETST.
    cbn [snd] in Hht.
    unfold assign, index, bind, attr,
      modify_scratch, get_scratch, lift, ret, bindM.
    cbn [scratch arg u_ht set_u_ht set_u_loc stepping_image phase_loc
         set_stepping_image set_phase_loc z_propagation].
    rewrite Iimg, Iph.
    rewrite !nth_error_app_skipn
      by (rewrite length_map, ?length_firstn, ?length_seq; lia).
    unfold Z. rewrite (zeros_like_nth_error u0 i _ Hrow).
    rewrite repeat_length, Hlen, Hht, Nat.eqb_refl.
    unfold session_phase at 1. rewrite length_map, Hkr, Nat.eqb_refl.
    eexists tt, _. split; [reflexivity|]. unfold Inv.
    cbn [scratch arg u_ht set_u_ht set_u_loc stepping_image phase_loc
         set_stepping_image set_phase_loc z_propagation].
    fold Z.
    assert (HZ : (i < length Z)%nat)
      by (unfold Z, zeros_like; rewrite length_map; lia).
    repeat split.
    + f_equal.
      rewrite (set_nth_app (map G (firstn i u0)) Z ht i)
        by (rewrite ?length_map, ?length_firstn; lia).
      rewrite (firstn_succ_nth u0 i []) by lia. rewrite map_app.
      cbn [map]. unfold G at 3. now rewrite ETST.
    + f_equal.
      rewrite (set_nth_app (map (session_phase self) (seq 0 i)) Z _ i)
        by (rewrite ?length_map, ?length_seq; lia).
      now rewrite (seq_S i), map_app.
    + exact Iz.
    + destruct (to_device_copies (bcknd self)); [exact Idata|].
      cbn [data]. rewrite Idata.
      rewrite set_nth_app.
      * unfold normalised.
        rewrite (firstn_succ_nth u0 i []) by lia.
        rewrite map_app. simpl. now rewrite ETST.
      * unfold normalised. rewrite length_map, length_firstn. lia.
      * lia.
  - exists w'. split; [exact Eloop|].
    assert (HZ : length Z = Nkz self)
      by (unfold Z, zeros_like; rewrite length_map; exact Hl).
    rewrite Iimg, Iph, Iz, Nat.add_0_l.
    rewrite (skipn_all2 Z (n := Nkz self)) by lia.
    rewrite <- Hl at 1. rewrite firstn_all, !app_nil_r. repeat split.
Qed.

Lemma stepping_spec (dz : R) (w : World) (image phases : list (list C)) (z : R) :
  well_formed self ->
  stepping_image (scratch w) = Some image ->
  phase_loc (scratch w) = Some phases ->
  z_propagation (scratch w) = Some z ->
  length image = Nkz self -> length phases = Nkz self ->
  exists w',
    stepping self dz false w =
      (Ok (Fresh (mk_ndarray (self_dtype self)
                    (map (iTST (trns self)) (advance_image self image phases dz)))),
       w') /\
    stepping_image (scratch w') = Some (advance_image self image phases dz) /\
    phase_loc (scratch w') = Some phases /\
    z_propagation (scratch w') = Some (z + dz) /\
    arg w' = arg w.
Proof.
  intros Hwf Himg Hph Hz Hli Hlp.
  set (Z := zeros (Nkz self) (shape_trns_new self)).
  set (G := fun k => advance_c (nth k phases []) (nth k image []) dz).
  set (F := fun k => iTST (trns self) (G k)).
  pose (Inv := fun (i : nat) (acc : option (list (list C))) (w' : World) =>
    acc = Some (map F (seq 0 i) ++ skipn i Z) /\
    stepping_image (scratch w') = Some (map G (seq 0 i) ++ skipn i image) /\
    phase_loc (scratch w') = Some phases /\
    z_propagation (scratch w') = Some z /\
    arg w' = arg w).
  unfold stepping. fold Z.
  match goal with
  | |- context [for_each ?b (range (Nkz self)) ?a0] =>
    destruct (for_each_inv b Inv (Nkz self) 0 a0 w)
      as (acc & w' & Eloop & Iacc & Iimg & Iph & Iz & Iarg)
  end.
  - unfold Inv. cbn. repeat split; assumption.
  - intros i acc w1 Hi (Iacc & Iimg & Iph & Iz & Iarg).
    subst acc.
    unfold inverse_transform, store, assign, index, bind, attr,
      modify_scratch, get_scratch, lift, ret, bindM.
    cbn [scratch arg u_ht u_iht set_u_ht set_u_iht stepping_image phase_loc
         set_stepping_image z_propagation].
    rewrite Iimg, Iph.
    rewrite (nth_error_app_skipn (map G (seq 0 i)) image i)
      by (now rewrite length_map, length_seq).
    rewrite (nth_error_nth' image [] (n := i)) by lia.
    rewrite (nth_error_nth' phases [] (n := i)) by lia.
    cbn [scratch arg u_ht u_iht set_u_ht set_u_iht stepping_image phase_loc
         set_stepping_image z_propagation].
    rewrite (nth_error_app_skipn (map F (seq 0 i)) Z i)
      by (now rewrite length_map, length_seq).
    unfold Z at 1, zeros. rewrite nth_error_repeat by lia.
    rewrite Hwf, repeat_length, Nat.eqb_refl.
    eexists _, _. split; [reflexivity|]. unfold Inv.
    cbn [scratch arg u_ht u_iht set_u_ht set_u_iht stepping_image phase_loc
         set_stepping_image z_propagation].
    fold (zeros (Nkz self) (shape_trns_new self)). fold Z.
    repeat split; try assumption.
    + f_equal.
      rewrite (set_nth_app (map F (seq 0 i)) Z _ i)
        by (rewrite ?length_map, ?length_seq, ?repeat_length;
            unfold Z, zeros; rewrite ?repeat_length; lia).
      now rewrite (seq_S i), map_app.
    + f_equal.
      rewrite (set_nth_app (map G (seq 0 i)) image _ i)
        by (rewrite ?length_map, ?length_seq; lia).
      now rewrite (seq_S i), map_app.
  - erewrite bindM_Ok by exact Eloop.
    erewrite bindM_Ok by reflexivity.
    erewrite bindM_Ok by (unfold lift; now rewrite Iz).
    erewrite bindM_Ok by reflexivity.
    exists (mk_World (set_z_propagation (z + dz) (scratch w')) (arg w')).
    assert (Hacc : acc = Some (map (iTST (trns self))
                                 (advance_image self image phases dz))).
    { subst acc. rewrite Nat.add_0_l.
      rewrite (skipn_all2 Z (n := Nkz self))
        by (unfold Z, zeros; rewrite repeat_length; lia).
      rewrite app_nil_r. unfold advance_image, range. now rewrite map_map. }
    rewrite Hacc.
    cbn [scratch arg stepping_image phase_loc z_propagation set_z_propagation].
    repeat split; try assumption.
    rewrite Iimg, Nat.add_0_l. rewrite (skipn_all2 image (n := Nkz self)) by lia.
    now rewrite app_nil_r.
Qed.

Lemma advance_image_length (image phases : list (list C)) (dz : R) :
  length (advance_image self image phases dz) = Nkz self.
Proof. unfold advance_image, range. now rewrite length_map, length_seq. Qed.

Lemma stepping_calls_spec (ds : list R) :
  well_formed self ->
  forall (w : World) (image phases : list (list C)) (z : R),
    stepping_image (scratch w) = Some image ->
    phase_loc (scratch w) = Some phases ->
    z_propagation (scratch w) = Some z ->
    length image = Nkz self -> length phases = Nkz self ->
    exists w',
      stepping_calls self ds w =
        (Ok (map (fun rows => Fresh (mk_ndarray (self_dtype self) rows))
               (session_outputs self image phases ds)), w').
Proof.
  intros Hwf. induction ds as [|d ds IH]; intros w image phases z Hi Hp Hz Hli Hlp.
  - exists w. reflexivity.
  - destruct (stepping_spec d w image phases z Hwf Hi Hp Hz Hli Hlp)
      as (w1 & E1 & Hi1 & Hp1 & Hz1 & _).
    destruct (IH w1 _ phases _ Hi1 Hp1 Hz1
                (advance_image_length image phases d) Hlp) as (w2 & E2).
    exists w2. cbn [stepping_calls session_outputs map].
    erewrite bindM_Ok by exact E1.
    erewrite bindM_Ok by exact E2.
    reflexivity.
Qed.

End SessionSpec.

Lemma zip_with_map_r {A B B' D : Type} (f : A -> B -> D) (g : B' -> B)
    (l : list A) (m : list B') :
  zip_with f l (map g m) = zip_with (fun a b => f a (g b)) l m.
Proof.
  revert m. induction l as [|a l IH]; intros [|b m]; simpl; try reflexivity.
  now rewrite IH.
Qed.

Lemma zip_with_ext_in {A B D : Type} (f g : A -> B -> D) (l : list A)
    (m : list B) :
  (forall a b, In b m -> f a b = g a b) -> zip_with f l m = zip_with g l m.
Proof.
  revert m. induction l as [|a l IH]; intros [|b m] Hfg; simpl; try reflexivity.
  rewrite Hfg by now left. f_equal. apply IH. intros a' b' Hb. apply Hfg.
  now right.
Qed.

Lemma fold_left_ext {A B : Type} (f g : A -> B -> A) (l : list B) (a : A) :
  (forall a b, f a b = g a b) -> fold_left f l a = fold_left g l a.
Proof.
  intros Hfg. revert a. induction l as [|b l IH]; intros a; simpl; [reflexivity|].
  now rewrite Hfg, IH.
Qed.

Section SessionVersusBatch.

Context {T : Type} `{Transform T}.
Variable self : Propagator T.

Lemma session_outputs_closed (phases : list (list C)) (ds : list R) :
  forall image : list (list C),
    session_outputs self image phases ds =
      map (fun s => map (fun k =>
             iTST (trns self)
               (fold_left (advance_c (nth k phases [])) (firstn (S s) ds)
                  (nth k image [])))
             (range (Nkz self)))
        (range (length ds)).
Proof.
  induction ds as [|d ds IH]; intros image; [reflexivity|].
  cbn [session_outputs length].
  change (range (S (length ds))) with (0%nat :: seq 1 (length ds)).
  cbn [map]. f_equal.
  - unfold advance_image. rewrite map_map. reflexivity.
  - rewrite IH, <- seq_shift, map_map. unfold range.
    apply map_ext. intros s. apply map_ext_in. intros k Hk. apply in_seq in Hk.
    cbn [firstn fold_left]. do 2 f_equal.
    unfold advance_image, range.
    rewrite (nth_indep _ [] (advance_c (nth 0 phases []) (nth 0 image []) d))
      by (rewrite length_map, length_seq; lia).
    rewrite (map_nth (fun k => advance_c (nth k phases []) (nth k image []) d)).
    rewrite seq_nth by lia. reflexivity.
Qed.

(** Where no mode is evanescent the two phase policies agree. *)
Lemma advance_policies_agree (ikz : nat) (ht : list C) (dz : R) :
  (forall j, (j < length (kr2 self))%nat ->
     nth j (kr2 self) 0 <= (nth ikz (kz self) 0) ^ 2) ->
  advance_c (session_phase self ikz) ht dz = advance (ik_loc self ikz) ht dz.
Proof.
  intros Hprop. unfold advance_c, advance, session_phase, ik_loc.
  rewrite !zip_with_map_r. apply zip_with_ext_in. intros u k2 Hin.
  destruct (In_nth _ _ 0 Hin) as (j & Hj & <-).
  rewrite clamp_phase_propagating, abs_phase_propagating by (apply Hprop, Hj).
  reflexivity.
Qed.

(** C3.  On a propagator none of whose modes is evanescent
    ([kr2[j] <= kz[i]**2] throughout), the fields returned by
    [initiate_stepping(u)] followed by [stepping(d)] for the distances
    [d] of a schedule are, one by one, the entries of the stack that
    [steps(u, schedule)] returns (no field and no stack for the empty
    schedule). *)
Theorem stepping_matches_steps (ds : list R) (w : World) :
  well_formed self -> well_formed_spectrum self ->
  well_shaped self (arg w) -> dtype (arg w) = self_dtype self ->
  (forall i j, (i < Nkz self)%nat -> (j < length (kr2 self))%nat ->
     nth j (kr2 self) 0 <= (nth i (kz self) 0) ^ 2) ->
  exists outs batch w1 w2,
    stepping_session self ds w = (Ok outs, w1) /\
    steps self (Some ds) None w = (Ok batch, w2) /\
    outs = match batch with
           | Some b => map (fun rows => Fresh (mk_ndarray (dtype3 b) rows)) (data3 b)
           | None => []
           end.
Proof.
  intros Hwf Hwfs Hws Hdt Hprop.
  destruct (initiate_stepping_spec self w Hwfs Hws Hdt)
    as (w0 & E0 & Himg & Hph & Hz).
  assert (Hl : length (data (arg w)) = Nkz self) by apply Hws.
  destruct (stepping_calls_spec self ds Hwf w0 _ _ _ Himg Hph Hz) as (w1 & E1).
  { now rewrite length_map. }
  { unfold range. now rewrite length_map, length_seq. }
  assert (Esess : stepping_session self ds w =
            (Ok (map (fun rows => Fresh (mk_ndarray (self_dtype self) rows))
                   (session_outputs self
                      (map (fun row => snd (TST (trns self) row)) (data (arg w)))
                      (map (session_phase self) (range (Nkz self))) ds)), w1)).
  { unfold stepping_session. erewrite bindM_Ok by exact E0. exact E1. }
  destruct ds as [|d ds].
  - exists [], None, w1, w. split; [exact Esess|].
    split; [now apply steps_no_schedule | reflexivity].
  - destruct (steps_spec self (d :: ds) w Hwf Hws Hdt ltac:(discriminate))
      as (w2 & E2 & _).
    eexists _, _, w1, w2. split; [exact Esess|]. split; [exact E2|].
    cbn [dtype3 data3]. rewrite Hdt. f_equal.
    rewrite session_outputs_closed. unfold steps_result.
    apply map_ext. intros s. apply map_ext_in. intros k Hk.
    unfold range in Hk. apply in_seq in Hk.
    unfold steps_entry, steps_spectrum. f_equal.
    rewrite (nth_indep _ [] (session_phase self 0))
      by (unfold range; rewrite length_map, length_seq; lia).
    unfold range at 1. rewrite (map_nth (session_phase self)).
    rewrite seq_nth by lia. cbn [Nat.add].
    rewrite (nth_indep _ [] (snd (TST (trns self) []))) by (rewrite length_map; lia).
    rewrite (map_nth (fun row => snd (TST (trns self) row))).
    apply fold_left_ext. intros ht d'. apply advance_policies_agree.
    intros j Hj. apply Hprop; [lia | exact Hj].
Qed.

End SessionVersusBatch.

Lemma stepping_matches_steps_witness :
  exists p s outs batch w1 w2,
    fft2_demo_fast = Ok (p, s) /\
    stepping_session p [1; 2] (mk_World s demo_field) = (Ok outs, w1) /\
    steps p (Some [1; 2]) None (mk_World s demo_field) = (Ok batch, w2) /\
    outs = match batch with
           | Some b => map (fun rows => Fresh (mk_ndarray (dtype3 b) rows)) (data3 b)
           | None => []
           end.
Proof.
  destruct (fft2_init_ok demo_registry device_backend 1 1 2 2 (KzArray [6])
              complex128 None demo_backend ltac:(lia) ltac:(lia))
    as (p & s & E & Hdt & Hbk & Hkz & Hs & Hsn & Hkr & HNx & HNy & Hwf & Hwfs).
  destruct (fft2_unit_grid [6] p s E) as [_ Hkr2].
  destruct (stepping_matches_steps p [1; 2] (mk_World s demo_field) Hwf Hwfs)
    as (outs & batch & w1 & w2 & E1 & E2 & Eq).
  - apply (demo_field_well_shaped p 6); assumption.
  - now rewrite Hdt.
  - intros i j Hi Hj. unfold Nkz in Hi. rewrite Hkz in Hi. cbn in Hi.
    rewrite Hkr2 in *. rewrite Hkz. cbn in Hj.
    assert (Hi0 : i = 0%nat) by lia. subst i.
    pose proof PI_4 as H4. pose proof PI_RGT_0 as H0.
    destruct j as [|[|[|[|j]]]]; cbn [nth init_kz]; try lia; nra.
  - exists p, s, outs, batch, w1, w2. repeat split; assumption.
Defined.


Section SteppingInto.

Context {T : Type} `{Transform T}.
Variable self : Propagator T.

(** [stepping(dz, u_out)] with an output array of the caller's: the rows
    are written into it, whatever its type, and it is returned. *)
Lemma stepping_into_spec (dz : R) (w : World) (image phases : list (list C))
    (z : R) :
  well_formed self ->
  stepping_image (scratch w) = Some image ->
  phase_loc (scratch w) = Some phases ->
  z_propagation (scratch w) = Some z ->
  length image = Nkz self -> length phases = Nkz self ->
  length (data (arg w)) = Nkz self ->
  Forall (fun row => length row = shape_trns_new self) (data (arg w)) ->
  exists w',
    stepping self dz true w = (Ok TheArgument, w') /\
    arg w' = mk_ndarray (dtype (arg w))
               (map (iTST (trns self)) (advance_image self image phases dz)) /\
    stepping_image (scratch w') = Some (advance_image self image phases dz) /\
    z_propagation (scratch w') = Some (z + dz).
Proof.
  intros Hwf Himg Hph Hz Hli Hlp Hlu Hrows.
  set (Z := data (arg w)).
  set (G := fun k => advance_c (nth k phases []) (nth k image []) dz).
  set (F := fun k => iTST (trns self) (G k)).
  pose (Inv := fun (i : nat) (acc : option (list (list C))) (w' : World) =>
    acc = None /\
    arg w' = mk_ndarray (dtype (arg w)) (map F (seq 0 i) ++ skipn i Z) /\
    stepping_image (scratch w') = Some (map G (seq 0 i) ++ skipn i image) /\
    phase_loc (scratch w') = Some phases /\
    z_propagation (scratch w') = Some z).
  unfold stepping.
  match goal with
  | |- context [for_each ?b (range (Nkz self)) ?a0] =>
    destruct (for_each_inv b Inv (Nkz self) 0 a0 w)
      as (acc & w' & Eloop & Iacc & Iarg & Iimg & Iph & Iz)
  end.
  - unfold Inv. cbn. repeat split; try assumption.
    now destruct (arg w).
  - intros i acc w1 Hi (Iacc & Iarg & Iimg & Iph & Iz).
    subst acc.
    unfold inverse_transform, store, assign, index, bind, attr,
      modify_scratch, get_scratch, get_arg, put_arg_data, lift, ret, bindM.
    cbn [scratch arg u_ht u_iht set_u_ht set_u_iht stepping_image phase_loc
         set_stepping_image z_propagation].
    rewrite Iimg, Iph.
    rewrite (nth_error_app_skipn (map G (seq 0 i)) image i)
      by (now rewrite length_map, length_seq).
    rewrite (nth_error_nth' image [] (n := i)) by lia.
    rewrite (nth_error_nth' phases [] (n := i)) by lia.
    cbn [scratch arg u_ht u_iht set_u_ht set_u_iht stepping_image phase_loc
         set_stepping_image z_propagation].
    rewrite Iarg. cbn [data dtype].
    rewrite (nth_error_app_skipn (map F (seq 0 i)) Z i)
      by (now rewrite length_map, length_seq).
    rewrite (nth_error_nth' Z [] (n := i)) by (unfold Z; lia).
    assert (Hrow : length (nth i Z []) = shape_trns_new self).
    { rewrite Forall_forall in Hrows. apply Hrows, nth_In. unfold Z. lia. }
    rewrite Hwf, Hrow, Nat.eqb_refl.
    eexists _, _. split; [reflexivity|]. unfold Inv.
    cbn [scratch arg u_ht u_iht set_u_ht set_u_iht stepping_image phase_loc
         set_stepping_image z_propagation dtype].
    repeat split; try assumption.
    + f_equal.
      rewrite (set_nth_app (map F (seq 0 i)) Z _ i)
        by (rewrite ?length_map, ?length_seq; unfold Z; lia).
      now rewrite (seq_S i), map_app.
    + f_equal.
      rewrite (set_nth_app (map G (seq 0 i)) image _ i)
        by (rewrite ?length_map, ?length_seq; lia).
      now rewrite (seq_S i), map_app.
  - erewrite bindM_Ok by exact Eloop.
    erewrite bindM_Ok by reflexivity.
    erewrite bindM_Ok by (unfold lift; now rewrite Iz).
    erewrite bindM_Ok by reflexivity.
    exists (mk_World (set_z_propagation (z + dz) (scratch w')) (arg w')).
    subst acc.
    cbn [scratch arg stepping_image phase_loc z_propagation set_z_propagation
         returned].
    repeat split.
    + rewrite Iarg, Nat.add_0_l. f_equal.
      rewrite (skipn_all2 Z (n := Nkz self)) by (unfold Z; lia).
      rewrite app_nil_r. unfold advance_image, range. now rewrite map_map.
    + rewrite Iimg, Nat.add_0_l.
      rewrite (skipn_all2 image (n := Nkz self)) by lia.
      now rewrite app_nil_r.
Qed.

(** [steps] with an empty axis [z_axis] reads [z_axis[0]] and raises. *)
Lemma steps_empty_z_axis (dz : option (list R)) (w : World) :
  dtype (arg w) = self_dtype self ->
  steps self dz (Some []) w = (Err IndexError, w).
Proof.
  intros Hdt. unfold steps.
  erewrite bindM_Ok by reflexivity.
  erewrite bindM_Ok by (unfold lift; now rewrite assert_dtype_passes).
  reflexivity.
Qed.

End SteppingInto.

(** The claim of C8 as stated fails for [stepping] and for [get_Ez]: the
    propagator built by [PropagatorFFT2((1., 2), (1., 2), np.array([1.]))]
    holds [complex128]; after [initiate_stepping] on a field of that type,
    [stepping(1., u_out)] fills and returns a [complex64] array [u_out],
    and [get_Ez] on a [complex64] field returns a field. *)
Lemma dtype_mismatch_counterexample :
  let u64 := mk_ndarray complex64 [[C1; C0; C0; C0]] in
  exists p s w0,
    fft2_demo = Ok (p, s) /\
    dtype u64 <> self_dtype p /\
    initiate_stepping p (mk_World s demo_field) = (Ok tt, w0) /\
    (exists w1, stepping p 1 true (mk_World (scratch w0) u64) =
                  (Ok TheArgument, w1)) /\
    (exists uz w2, get_Ez p (mk_World s u64) = (Ok uz, w2)).
Proof.
  intros u64.
  destruct (fft2_init_ok demo_registry device_backend 1 1 2 2 (KzArray [1])
              complex128 None demo_backend ltac:(lia) ltac:(lia))
    as (p & s & E & Hdt & Hbk & Hkz & Hs & Hsn & Hkr & _ & _ & Hwf & Hwfs).
  assert (Hws : well_shaped p demo_field)
    by (apply (demo_field_well_shaped p 1); assumption).
  assert (HN : Nkz p = 1%nat) by (unfold Nkz; now rewrite Hkz).
  destruct (initiate_stepping_spec p (mk_World s demo_field) Hwfs Hws
              (eq_sym Hdt)) as (w0 & E0 & Himg & Hph & Hz).
  exists p, s, w0. split; [exact E|]. split; [rewrite Hdt; discriminate|].
  split; [exact E0|]. split.
  - destruct (stepping_into_spec p 1 (mk_World (scratch w0) u64) _ _ _ Hwf
                Himg Hph Hz) as (w1 & E1 & _).
    + rewrite length_map. apply Hws.
    + unfold range. now rewrite length_map, length_seq.
    + now rewrite HN.
    + cbn [arg data]. constructor; [|constructor]. now rewrite Hsn.
    + eauto.
  - assert (Hk : exists kx ky, kxy p = Some (kx, ky)).
    { unfold PropagatorFFT2.init in E. rewrite demo_backend in E.
      cbn [bind fst snd] in E.
      destruct (init_xykxy_fft2 1 2 1 2) as [g|]; [|discriminate].
      injection E as <- _. cbn. eauto. }
    destruct Hk as (kx & ky & Hk).
    destruct (get_Ez_spec p (mk_World s u64) kx ky Hwf) as (w' & Ew).
    + split; [now rewrite HN|].
      cbn [arg data]. constructor; [|constructor]. now rewrite Hs.
    + congruence.
    + exact Hk.
    + eauto.
Qed.


(** ** Finite sums and the discrete Fourier transform *)

Lemma Csum_S (n : nat) (f : nat -> C) : Csum (S n) f = (Csum n f + f n)%C.
Proof.
  unfold Csum, Csum_list. rewrite seq_S, map_app, fold_right_app. cbn [map fold_right Nat.add].
  generalize (map f (seq 0 n)). intros l.
  induction l as [|x l IH]; cbn [fold_right]; [ring | rewrite IH; ring].
Qed.

Lemma Csum_0 (f : nat -> C) : Csum 0 f = C0.
Proof. reflexivity. Qed.

Lemma Csum_scal (n : nat) (c : C) (f : nat -> C) :
  Csum n (fun k => (c * f k)%C) = (c * Csum n f)%C.
Proof.
  induction n as [|n IH]; [rewrite !Csum_0; ring|].
  rewrite !Csum_S, IH. ring.
Qed.

Lemma Csum_plus (n : nat) (f g : nat -> C) :
  Csum n (fun k => (f k + g k)%C) = (Csum n f + Csum n g)%C.
Proof.
  induction n as [|n IH]; [rewrite !Csum_0; ring|].
  rewrite !Csum_S, IH. ring.
Qed.

Lemma Csum_zero (n : nat) : Csum n (fun _ => C0) = C0.
Proof.
  induction n as [|n IH]; [reflexivity|]. rewrite Csum_S, IH. ring.
Qed.

Lemma Csum_swap (n m : nat) (f : nat -> nat -> C) :
  Csum n (fun i => Csum m (fun j => f i j)) =
  Csum m (fun j => Csum n (fun i => f i j)).
Proof.
  induction n as [|n IH].
  - rewrite Csum_0. symmetry. apply Csum_zero.
  - rewrite Csum_S, IH, <- Csum_plus. apply Csum_ext. intros j _.
    now rewrite Csum_S.
Qed.

(** A sum against a Kronecker delta picks one term. *)
Lemma Csum_delta (n a : nat) (f : nat -> C) :
  (a < n)%nat ->
  Csum n (fun k => if k =? a then f k else C0) = f a.
Proof.
  induction n as [|n IH]; intros Ha; [lia|].
  rewrite Csum_S. destruct (Nat.eq_dec a n) as [->|Hne].
  - rewrite Nat.eqb_refl.
    rewrite (Csum_ext n _ (fun _ => C0)).
    + rewrite Csum_zero. ring.
    + intros k Hk. destruct (Nat.eqb_spec k n); [lia | reflexivity].
  - rewrite IH by lia. destruct (Nat.eqb_spec n a); [lia | ring].
Qed.

Lemma cis_INR_S (t : R) (k : nat) : cis (INR (S k) * t) = (cis (INR k * t) * cis t)%C.
Proof. rewrite S_INR, <- cis_plus. f_equal. ring. Qed.

(** The geometric sum of the powers of a phasor. *)
Lemma geometric_sum (t : R) (n : nat) :
  ((cis t - C1) * Csum n (fun k => cis (INR k * t)))%C = (cis (INR n * t) - C1)%C.
Proof.
  induction n as [|n IH].
  - rewrite Csum_0. cbn [INR]. rewrite Rmult_0_l, cis_0. ring.
  - rewrite Csum_S, cis_INR_S.
    replace ((cis t - C1) * (Csum n (fun k => cis (INR k * t)) + cis (INR n * t)))%C
      with ((cis t - C1) * Csum n (fun k => cis (INR k * t)) +
            (cis t - C1) * cis (INR n * t))%C by ring.
    rewrite IH. ring.
Qed.

Lemma Cmult_integral (z w : C) : (z * w)%C = C0 -> z = C0 \/ w = C0.
Proof.
  destruct z as [a b], w as [c d]. unfold Cmult, C0, RtoC. cbn [fst snd].
  intros E. injection E as E1 E2.
  destruct (Req_dec a 0) as [Ha|Ha]; destruct (Req_dec b 0) as [Hb|Hb];
    try (left; subst; reflexivity); right;
    assert (Hc : c * (a * a + b * b) = 0) by nra;
    assert (Hd : d * (a * a + b * b) = 0) by nra;
    assert (Hn : a * a + b * b <> 0) by nra;
    apply Rmult_integral in Hc, Hd;
    destruct Hc as [->|?], Hd as [->|?]; try contradiction; reflexivity.
Qed.

Lemma cis_2PI_nat (k : nat) : cis (2 * PI * INR k) = C1.
Proof.
  induction k as [|k IH].
  - cbn [INR]. rewrite Rmult_0_r. apply cis_0.
  - rewrite S_INR, Rmult_plus_distr_l, cis_plus, IH, Rmult_1_r.
    unfold cis. rewrite cos_2PI, sin_2PI. unfold C1, RtoC, Cmult. cbn [fst snd].
    f_equal; ring.
Qed.

Lemma cis_not_1 (x : R) : - PI < x < PI -> x <> 0 -> cis (2 * x) <> C1.
Proof.
  intros Hx Hne E. unfold cis, C1, RtoC in E. injection E as Ec _.
  rewrite cos_2a_sin in Ec.
  assert (Hs : sin x <> 0).
  { destruct (Rlt_dec 0 x) as [Hpos|Hneg].
    - pose proof (sin_gt_0 x Hpos ltac:(lra)). lra.
    - pose proof (sin_gt_0 (- x) ltac:(lra) ltac:(lra)) as Hm.
      rewrite sin_neg in Hm. lra. }
  nra.
Qed.

(** Orthogonality of the twiddle factors. *)
Lemma twiddle_orthogonal (N a m : nat) :
  (a < N)%nat -> (m < N)%nat ->
  Csum N (fun p => (twiddle 1 N a p * twiddle (-1) N p m)%C) =
    if a =? m then RtoC (INR N) else C0.
Proof.
  intros Ha Hm.
  assert (HN : INR N <> 0) by (apply not_0_INR; lia).
  set (t := 2 * (PI * (INR a - INR m) / INR N)).
  rewrite (Csum_ext N _ (fun p => cis (INR p * t))).
  2:{ intros p _. unfold twiddle. rewrite <- cis_plus. f_equal.
      unfold t. field. exact HN. }
  destruct (Nat.eqb_spec a m) as [->|Hne].
  - unfold t. rewrite Rminus_diag.
    rewrite (Csum_ext N _ (fun _ => C1)).
    + clear. induction N as [|N IH]; [reflexivity|].
      rewrite Csum_S, IH, S_INR. unfold C1, RtoC, Cplus. cbn [fst snd].
      f_equal; ring.
    + intros p _. replace (INR p * _) with 0 by (field; exact HN). apply cis_0.
  - pose proof (geometric_sum t N) as Hg.
    assert (H1 : cis (INR N * t) = C1).
    { replace (INR N * t) with (2 * PI * INR a + - (2 * PI * INR m))
        by (unfold t; field; exact HN).
      assert (Hp : (cis (2 * PI * INR a + - (2 * PI * INR m)) *
                    cis (2 * PI * INR m))%C = C1).
      { rewrite <- cis_plus.
        replace (2 * PI * INR a + - (2 * PI * INR m) + 2 * PI * INR m)
          with (2 * PI * INR a) by ring.
        apply cis_2PI_nat. }
      rewrite cis_2PI_nat in Hp. rewrite <- Hp. ring. }
    rewrite H1 in Hg. replace (C1 - C1)%C with C0 in Hg by ring.
    apply Cmult_integral in Hg. destruct Hg as [Hz|Hs]; [|exact Hs].
    exfalso. apply (cis_not_1 (PI * (INR a - INR m) / INR N)).
    + pose proof PI_RGT_0 as Hpi.
      assert (HNpos : 0 < INR N) by (apply lt_0_INR; lia).
      assert (Hb1 : INR a - INR m < INR N).
      { apply lt_INR in Ha. pose proof (pos_INR m). lra. }
      assert (Hb2 : - INR N < INR a - INR m).
      { apply lt_INR in Hm. pose proof (pos_INR a). lra. }
      split.
      * apply Rmult_lt_reg_r with (INR N); [exact HNpos|].
        unfold Rdiv. rewrite Rmult_assoc, Rinv_l, Rmult_1_r by exact HN. nra.
      * apply Rmult_lt_reg_r with (INR N); [exact HNpos|].
        unfold Rdiv. rewrite Rmult_assoc, Rinv_l, Rmult_1_r by exact HN. nra.
    + intros E0. apply Hne. apply INR_eq.
      assert (Hnum : PI * (INR a - INR m) = 0).
      { apply Rmult_eq_reg_r with (/ INR N);
          [|apply Rinv_neq_0_compat; exact HN].
        rewrite Rmult_0_l. exact E0. }
      pose proof PI_RGT_0. nra.
    + fold t. replace (cis t) with ((cis t - C1) + C1)%C by ring.
      rewrite Hz. ring.
Qed.

Lemma at2_tabulate2 (Nx Ny : nat) (f : nat -> nat -> C) (m n : nat) :
  (m < Nx)%nat -> (n < Ny)%nat -> at2 Ny (tabulate2 Nx Ny f) m n = f m n.
Proof.
  unfold at2, tabulate2.
  assert (Hgen : forall s,
    nth (m * Ny + n)
      (flat_map (fun p => map (f p) (seq 0 Ny)) (seq s Nx)) C0 = f (s + m)%nat n
    \/ ~ (m < Nx)%nat \/ ~ (n < Ny)%nat).
  { revert m. induction Nx as [|Nx IH]; intros m s; [right; left; lia|].
    destruct (Nat.lt_ge_cases n Ny) as [Hn|Hn]; [|right; right; lia].
    destruct m as [|m].
    - left. cbn [seq flat_map Nat.mul Nat.add].
      rewrite app_nth1 by (now rewrite length_map, length_seq).
      rewrite (nth_indep _ C0 (f s 0%nat)) by (now rewrite length_map, length_seq).
      rewrite (map_nth (f s)), seq_nth by exact Hn.
      now rewrite Nat.add_0_r.
    - destruct (IH m (S s)) as [E|[Hm|Hn']].
      + left. cbn [seq flat_map].
        rewrite app_nth2 by (rewrite length_map, length_seq; lia).
        rewrite length_map, length_seq.
        replace (S m * Ny + n - Ny)%nat with (m * Ny + n)%nat by lia.
        rewrite E. f_equal. lia.
      + right; left. lia.
      + right; right. exact Hn'. }
  intros Hm Hn. destruct (Hgen 0%nat) as [E|[?|?]]; [exact E | lia | lia].
Qed.

Lemma tabulate2_ext (Nx Ny : nat) (f g : nat -> nat -> C) :
  (forall m n, (m < Nx)%nat -> (n < Ny)%nat -> f m n = g m n) ->
  tabulate2 Nx Ny f = tabulate2 Nx Ny g.
Proof.
  intros Hfg. unfold tabulate2. rewrite !flat_map_concat_map. f_equal.
  apply map_ext_in. intros m Hm. apply in_seq in Hm.
  apply map_ext_in. intros n Hn. apply in_seq in Hn.
  apply Hfg; lia.
Qed.

Lemma tabulate2_at2 (Nx Ny : nat) (v : list C) :
  length v = (Nx * Ny)%nat -> tabulate2 Nx Ny (at2 Ny v) = v.
Proof.
  intros Hl. apply (nth_ext _ _ C0 C0).
  - now rewrite tabulate2_length.
  - rewrite tabulate2_length. intros i Hi.
    assert (HNy : (0 < Ny)%nat) by (destruct Ny; [lia | lia]).
    pose proof (Nat.div_mod_eq i Ny) as Hdm.
    pose proof (Nat.mod_upper_bound i Ny ltac:(lia)) as Hmod.
    assert (Hdiv : (i / Ny < Nx)%nat) by (apply Nat.Div0.div_lt_upper_bound; lia).
    replace i with (i / Ny * Ny + i mod Ny)%nat at 1 by lia.
    change (nth (i / Ny * Ny + i mod Ny) (tabulate2 Nx Ny (at2 Ny v)) C0)
      with (at2 Ny (tabulate2 Nx Ny (at2 Ny v)) (i / Ny) (i mod Ny)).
    rewrite at2_tabulate2 by assumption.
    unfold at2. f_equal. lia.
Qed.

Lemma Cscale_RtoC (r : R) (z : C) : Cscale r z = (RtoC r * z)%C.
Proof.
  destruct z. unfold Cscale, RtoC, Cmult. cbn [fst snd]. f_equal; ring.
Qed.

Lemma RtoC_mult (x y : R) : RtoC (x * y) = (RtoC x * RtoC y)%C.
Proof. unfold RtoC, Cmult. cbn [fst snd]. f_equal; ring. Qed.

(** Inversion of the one-dimensional transform at one sample. *)
Lemma dft_inversion_1d (N a : nat) (g : nat -> C) :
  (a < N)%nat ->
  Csum N (fun p =>
    (twiddle 1 N a p * Csum N (fun m => g m * twiddle (-1) N p m))%C) =
  (RtoC (INR N) * g a)%C.
Proof.
  intros Ha.
  rewrite (Csum_ext N _ (fun p =>
    Csum N (fun m => (g m * (twiddle 1 N a p * twiddle (-1) N p m))%C))).
  2:{ intros p _. rewrite <- Csum_scal. apply Csum_ext. intros m _. ring. }
  rewrite Csum_swap.
  rewrite (Csum_ext N _ (fun m =>
    if m =? a then (RtoC (INR N) * g m)%C else C0)).
  - now apply Csum_delta.
  - intros m Hm. rewrite Csum_scal, twiddle_orthogonal by assumption.
    rewrite (Nat.eqb_sym m a). destruct (a =? m); ring.
Qed.

(** The inverse transform undoes the forward one. *)
Lemma ifft2_fft2 (Nx Ny : nat) (v : list C) :
  length v = (Nx * Ny)%nat -> ifft2 Nx Ny (fft2 Nx Ny v) = v.
Proof.
  intros Hl. rewrite <- (tabulate2_at2 Nx Ny v Hl) at 2.
  unfold ifft2. apply tabulate2_ext. intros a b Ha Hb.
  assert (HNx : INR Nx <> 0) by (apply not_0_INR; lia).
  assert (HNy : INR Ny <> 0) by (apply not_0_INR; lia).
  set (h := fun p n => Csum Nx (fun m => (at2 Ny v m n * twiddle (-1) Nx p m)%C)).
  rewrite (Csum_ext Nx _ (fun p =>
    (twiddle 1 Nx a p * (RtoC (INR Ny) * h p b))%C)).
  2:{ intros p Hp.
      rewrite <- (dft_inversion_1d Ny b (h p) Hb), <- Csum_scal.
      apply Csum_ext. intros q Hq.
      unfold fft2. rewrite at2_tabulate2 by assumption.
      rewrite Csum_swap.
      replace (Csum Ny (fun n => (h p n * twiddle (-1) Ny q n)%C))
        with (Csum Ny (fun n =>
                Csum Nx (fun m =>
                  (at2 Ny v m n * (twiddle (-1) Nx p m * twiddle (-1) Ny q n))%C))).
      - ring.
      - apply Csum_ext. intros n _. unfold h.
        rewrite (C_ring_theory.(Rmul_comm) (Csum Nx _)).
        rewrite <- (Csum_scal Nx (twiddle (-1) Ny q n)).
        apply Csum_ext. intros m _. ring. }
  rewrite (Csum_ext Nx _ (fun p =>
    (RtoC (INR Ny) *
     (twiddle 1 Nx a p *
      Csum Nx (fun m => at2 Ny v m b * twiddle (-1) Nx p m)))%C))
    by (intros p _; unfold h; ring).
  rewrite Csum_scal, dft_inversion_1d by exact Ha.
  rewrite Cscale_RtoC, mult_INR.
  replace (RtoC (/ (INR Nx * INR Ny)) *
           (RtoC (INR Ny) * (RtoC (INR Nx) * at2 Ny v a b)))%C
    with (RtoC (/ (INR Nx * INR Ny) * (INR Ny * INR Nx)) * at2 Ny v a b)%C
    by (rewrite !RtoC_mult; ring).
  replace (/ (INR Nx * INR Ny) * (INR Ny * INR Nx)) with 1
    by (field; split; assumption).
  fold C1. ring.
Qed.

(** The transforms fill buffers of the size of the grid. *)
Lemma fft2_length (Nx Ny : nat) (v : list C) :
  length (fft2 Nx Ny v) = (Nx * Ny)%nat.
Proof. unfold fft2. apply tabulate2_length. Qed.


(** ** Matrices *)

Lemma Csum_shift (n : nat) (f : nat -> C) :
  Csum (S n) f = (f 0%nat + Csum n (fun k => f (S k)))%C.
Proof.
  unfold Csum. cbn [seq map Csum_list fold_right].
  now rewrite <- seq_shift, map_map.
Qed.

Lemma dot_Csum (row v : list C) :
  length row = length v ->
  dot row v = Csum (length v) (fun k => (nth k row C0 * nth k v C0)%C).
Proof.
  revert v. induction row as [|x row IH]; intros [|y v] Hl; simpl in Hl; try lia.
  - reflexivity.
  - cbn [length]. rewrite Csum_shift. cbn [nth].
    unfold dot in *. cbn [zip_with Csum_list fold_right].
    f_equal. apply IH. lia.
Qed.

Lemma nth_matvec (B : list (list C)) (v : list C) (i : nat) :
  nth i (matvec B v) C0 = if i <? length B then dot (nth i B []) v else C0.
Proof.
  unfold matvec. destruct (Nat.ltb_spec i (length B)) as [Hi|Hi].
  - rewrite (nth_indep _ C0 (dot [] v)) by (now rewrite length_map).
    apply (map_nth (fun row => dot row v)).
  - apply nth_overflow. now rewrite length_map.
Qed.

Lemma matvec_matmul (A B : list (list C)) (v : list C) (n : nat) :
  length v = n ->
  Forall (fun row => length row = n) B ->
  Forall (fun row => length row = length B) A ->
  matvec A (matvec B v) = matvec (matmul A B n) v.
Proof.
  intros Hv HB HA. unfold matvec at 1, matmul. unfold matvec at 2.
  rewrite map_map. apply map_ext_in. intros row Hrow.
  rewrite Forall_forall in HA, HB. specialize (HA row Hrow).
  rewrite dot_Csum by (now rewrite matvec_length).
  rewrite dot_Csum by (now rewrite length_map, length_seq).
  rewrite matvec_length, Hv.
  rewrite (Csum_ext (length B) _ (fun i =>
    Csum n (fun j => (nth i row C0 * nth j (nth i B []) C0 * nth j v C0)%C))).
  2:{ intros i Hi. rewrite nth_matvec.
      rewrite (proj2 (Nat.ltb_lt i (length B)) Hi).
      rewrite dot_Csum by (rewrite Hv; apply HB, nth_In, Hi).
      rewrite Hv, <- Csum_scal. apply Csum_ext. intros j _. ring. }
  rewrite Csum_swap. apply Csum_ext. intros j Hj.
  rewrite (nth_indep (map (fun j => dot row (column j B)) (seq 0 n)) C0
             (dot row (column 0 B)))
    by (now rewrite length_map, length_seq).
  rewrite (map_nth (fun j => dot row (column j B))), seq_nth by exact Hj.
  cbn [Nat.add].
  rewrite dot_Csum by (unfold column; now rewrite length_map).
  unfold column at 1. rewrite length_map.
  rewrite (C_ring_theory.(Rmul_comm) (Csum _ _)), <- Csum_scal.
  apply Csum_ext. intros i Hi.
  unfold column.
  rewrite (nth_indep (map (fun r => nth j r C0) B) C0 (nth j [] C0))
    by (now rewrite length_map).
  rewrite (map_nth (fun r => nth j r C0)). ring.
Qed.

Lemma matvec_identity (v : list C) (n : nat) :
  length v = n -> matvec (identity n) v = v.
Proof.
  intros Hv. apply (nth_ext _ _ C0 C0).
  - rewrite matvec_length. unfold identity. now rewrite length_map, length_seq.
  - rewrite matvec_length. unfold identity at 1. rewrite length_map, length_seq.
    intros i Hi. rewrite nth_matvec.
    unfold identity. rewrite length_map, length_seq.
    rewrite (proj2 (Nat.ltb_lt i n) Hi).
    rewrite (nth_indep _ [] (map (fun k => if 0 =? k then C1 else C0) (seq 0 n)))
      by (now rewrite length_map, length_seq).
    rewrite (map_nth (fun i => map (fun k => if i =? k then C1 else C0) (seq 0 n))).
    rewrite seq_nth by exact Hi. cbn [Nat.add].
    rewrite dot_Csum by (now rewrite length_map, length_seq).
    rewrite Hv.
    rewrite (Csum_ext n _ (fun k => if k =? i then nth k v C0 else C0)).
    + now apply Csum_delta.
    + intros k Hk.
      rewrite (nth_indep (map (fun k => if i =? k then C1 else C0) (seq 0 n))
                 C0 (if i =? 0 then C1 else C0))
        by (now rewrite length_map, length_seq).
      rewrite (map_nth (fun k => if i =? k then C1 else C0)).
      rewrite seq_nth by exact Hk. cbn [Nat.add].
      rewrite (Nat.eqb_sym k i). destruct (i =? k); ring.
Qed.

Lemma inverse_pair_round_trip (A B : list (list C)) (n : nat) (v : list C) :
  inverse_pair A B n -> length v = n -> matvec A (matvec B v) = v.
Proof.
  intros (HlA & HlB & HA & HB & Hprod) Hv.
  rewrite (matvec_matmul A B v n Hv HB) by (now rewrite HlB).
  rewrite Hprod. now apply matvec_identity.
Qed.

(** ** Round trips of the three transforms *)

Lemma zip_with_neutral {A B : Type} (f : A -> B -> A) (l : list A) (m : list B) :
  length l = length m -> (forall a b, f a b = a) -> zip_with f l m = l.
Proof.
  intros Hl Hf. revert m Hl.
  induction l as [|a l IH]; intros [|b m] Hl; simpl in *; try lia; [reflexivity|].
  rewrite Hf. f_equal. apply IH. lia.
Qed.


Lemma fft2_round_trip (s : PropagatorFFT2.t) :
  round_trip s (g_Nx (PropagatorFFT2.grid s) * g_Ny (PropagatorFFT2.grid s)).
Proof. intros row Hl. cbn. now apply ifft2_fft2. Qed.

Lemma resampling_round_trip (s : PropagatorResampling.t) (n : nat) :
  inverse_pair (PropagatorResampling.invTM s) (PropagatorResampling.TM s) n ->
  round_trip s n.
Proof. intros Hinv row Hl. cbn. now apply (inverse_pair_round_trip _ _ n). Qed.


Section IdentityPhase.

Context {T : Type} `{Transform T}.
Variable self : Propagator T.

Lemma step_spectrum_zero (ikz : nat) (row : list C) :
  well_formed_spectrum self -> length row = shape_trns self ->
  step_spectrum self 0 ikz row = snd (TST (trns self) row).
Proof.
  intros [Hspec Hkr] Hl. unfold step_spectrum.
  rewrite zip_with_map_r. apply zip_with_neutral.
  - rewrite Hspec, Hkr by exact Hl. reflexivity.
  - intros u k2. rewrite phase_factor_real, Rmult_0_l, cis_0. ring.
Qed.

Lemma step_zero (w : World) :
  well_formed self -> well_formed_spectrum self ->
  well_shaped self (arg w) -> dtype (arg w) = self_dtype self ->
  exists w',
    step self 0 false w =
      (Ok (Fresh (mk_ndarray (dtype (arg w))
                    (map (fun row => iTST (trns self) (snd (TST (trns self) row)))
                       (data (arg w))))), w').
Proof.
  intros Hwf Hwfs Hws Hdt.
  destruct (step_spec self 0 w Hwf Hws Hdt) as (w' & E & _).
  exists w'. rewrite E. do 4 f_equal.
  apply (nth_ext _ _ [] []).
  - unfold step_result, range. rewrite !length_map, length_seq.
    symmetry. apply Hws.
  - unfold step_result, range. rewrite length_map, length_seq. intros i Hi.
    destruct (row_of_well_shaped self (arg w) i Hws Hi) as [Hrow Hlen].
    assert (Hi' : (i < length (data (arg w)))%nat)
      by (destruct Hws as [-> _]; exact Hi).
    set (F := fun k => step_row self 0 k (nth k (data (arg w)) [])).
    set (G := fun row => iTST (trns self) (snd (TST (trns self) row))).
    rewrite (nth_indep (map F (seq 0 (Nkz self))) [] (F 0%nat))
      by (now rewrite length_map, length_seq).
    rewrite (map_nth F), seq_nth by exact Hi. cbn [Nat.add].
    rewrite (nth_indep (map G (data (arg w))) [] (G []))
      by (now rewrite length_map).
    rewrite (map_nth G).
    unfold F, G, step_row. now rewrite step_spectrum_zero.
Qed.

End IdentityPhase.

(** ** The propagators the constructors build are well formed *)

Lemma init_kr_length (sp : Special) (mode : nat) (Rmax : R) (Nr : nat)
    (g : kr_grid) :
  init_kr sp mode Rmax Nr = Ok g ->
  length (g_alpha g) = Nr /\ length (g_kr g) = Nr /\ length (g_kr2 g) = Nr.
Proof.
  intros E. destruct (Nat.eq_dec mode 0) as [->|Hm].
  - rewrite init_kr_mode0 in E. cbv zeta in E. injection E as <-.
    cbn [g_alpha g_kr g_kr2].
    repeat split; rewrite ?length_map, removelast_length, jn_zeros_length; lia.
  - destruct (Nat.eq_dec Nr 0) as [->|Hn].
    + unfold init_kr, jn_zeros_call in E.
      rewrite (proj2 (Nat.eqb_neq mode 0) Hm) in E. discriminate.
    + rewrite init_kr_higher_mode in E by assumption. cbv zeta in E.
      injection E as <-. cbn [g_alpha g_kr g_kr2].
      repeat split; cbn [length];
        rewrite ?length_map, removelast_length, jn_zeros_length; lia.
Qed.

Lemma symmetric_init_well_formed (sp : Special) (reg : Registry)
    (r_axis : R * nat) (kz_axis : kz_axis_t) (Nr_new : option nat) (mode : nat)
    (dt : DType) (backend : option string)
    (p : Propagator PropagatorSymmetric.t) (s : Scratch) :
  PropagatorSymmetric.init sp reg r_axis kz_axis Nr_new mode dt backend
    = Ok (p, s) ->
  well_formed p /\ well_formed_spectrum p.
Proof.
  unfold PropagatorSymmetric.init.
  destruct (init_backend reg backend) as [bk|]; [|discriminate]. cbn [bind].
  rewrite init_r_symmetric_ok. cbn [bind].
  destruct (init_kr sp mode (fst r_axis) (snd r_axis)) as [g|] eqn:Eg;
    [|discriminate].
  destruct (init_kr_length _ _ _ _ _ Eg) as (Ha & Hk & Hk2).
  cbn [bind].
  destruct (PropagatorSymmetric.output_grid _ _ _ _ Nr_new)
    as [[[n r_new] Rmax_new]|] eqn:Eo; [|discriminate].
  cbn [bind]. intros E. injection E as <- _.
  assert (Hn : (n <= snd r_axis)%nat).
  { unfold PropagatorSymmetric.output_grid in Eo.
    destruct Nr_new as [k|]; [|injection Eo as <- _ _; lia].
    destruct (Nat.leb_spec (snd r_axis) k); [discriminate|].
    destruct (array_max _); [|discriminate]. cbn [bind] in Eo.
    destruct (index (g_alpha g) k); [|discriminate]. cbn [bind] in Eo.
    destruct (index (g_alpha g) (k - 1)); [|discriminate]. cbn [bind] in Eo.
    injection Eo as <- _ _. lia. }
  unfold well_formed, well_formed_spectrum.
  cbn [trns shape_trns shape_trns_new kr2 TST iTST
       PropagatorSymmetric.transform snd
       PropagatorSymmetric.Nr_new PropagatorSymmetric.TM PropagatorSymmetric._j].
  assert (HTM : length (PropagatorSymmetric.transform_matrix sp mode (g_alpha g)
                          (g_alpha_np1 g)) = snd r_axis).
  { unfold PropagatorSymmetric.transform_matrix, to_dtype.
    now rewrite !length_map. }
  assert (Hj : length (PropagatorSymmetric.scale_vector sp mode (g_alpha g)
                         (fst r_axis)) = snd r_axis).
  { unfold PropagatorSymmetric.scale_vector. now rewrite length_map. }
  repeat split.
  - intros v. rewrite zip_with_length;
      rewrite matvec_length, !length_firstn; lia.
  - intros row _. now rewrite matvec_length.
  - exact Hk2.
Qed.

Lemma linspace_open_length (a b : R) (num : nat) :
  length (linspace_open a b num) = num.
Proof. unfold linspace_open. now rewrite length_map, length_seq. Qed.

Lemma resampling_init_well_formed (sp : Special) (inv : Inversion)
    (reg : Registry) (r_axis : r_axis_t) (kz_axis : kz_axis_t)
    (Rmax_new : option R) (Nr_new : option nat) (r_axis_new : option r_axis_t)
    (mode : nat) (dt : DType) (backend : option string)
    (p : Propagator PropagatorResampling.t) (s : Scratch) :
  PropagatorResampling.init sp inv reg r_axis kz_axis Rmax_new Nr_new
    r_axis_new mode dt backend = Ok (p, s) ->
  well_formed p /\
  (length (PropagatorResampling.TM (trns p)) = shape_trns p ->
   well_formed_spectrum p).
Proof.
  unfold PropagatorResampling.init.
  destruct (init_backend reg backend) as [bk|]; [|discriminate]. cbn [bind].
  destruct (PropagatorResampling.input_grid sp mode r_axis)
    as [[[r Rmax] Nr]|] eqn:Ei; [|discriminate]. cbn [bind].
  destruct (PropagatorResampling.output_grid r Rmax Nr Rmax_new Nr_new r_axis_new)
    as [[[r_new Rmax_new'] Nr_new']|] eqn:Eo; [|discriminate]. cbn [bind].
  destruct (init_kr sp mode Rmax Nr) as [g|] eqn:Eg; [|discriminate].
  destruct (init_kr_length _ _ _ _ _ Eg) as (Ha & Hk & Hk2).
  cbn [bind]. intros E. injection E as <- _.
  assert (Hsampled : forall a r' R' N',
            init_r_sampled a = Ok (r', R', N') -> length r' = N').
  { intros a r' R' N' Es. unfold init_r_sampled in Es.
    destruct (array_max a); [|discriminate]. cbn [bind] in Es.
    now injection Es as <- _ <-. }
  assert (Huniform : forall R0 N0 r' R' N',
            init_r_uniform R0 N0 = Ok (r', R', N') -> length r' = N').
  { intros R0 N0 r' R' N' Eu. unfold init_r_uniform in Eu.
    destruct (index _ 0); [|discriminate]. cbn [bind] in Eu.
    destruct (index _ 1); [|discriminate]. cbn [bind] in Eu.
    injection Eu as <- _ <-. now rewrite length_map, linspace_open_length. }
  assert (Hr : length r = Nr).
  { destruct r_axis as [R0 N0|a]; cbn [PropagatorResampling.input_grid] in Ei.
    - rewrite init_r_symmetric_ok in Ei. injection Ei as <- _ <-.
      rewrite length_map, removelast_length, jn_zeros_length. lia.
    - eapply Hsampled, Ei. }
  assert (Hrn : length r_new = Nr_new').
  { unfold PropagatorResampling.output_grid in Eo.
    destruct Rmax_new as [R0|].
    - destruct Nr_new as [N0|]; [|discriminate]. eapply Huniform, Eo.
    - destruct r_axis_new as [[R0 N0|a]|].
      + eapply Huniform, Eo.
      + eapply Hsampled, Eo.
      + injection Eo as <- _ <-. exact Hr. }
  unfold well_formed, well_formed_spectrum.
  cbn [trns shape_trns shape_trns_new kr2 TST iTST
       PropagatorResampling.transform snd
       PropagatorResampling.TM PropagatorResampling.invTM].
  split.
  - intros v. rewrite matvec_length. unfold to_dtype,
      PropagatorResampling.bessel_matrix. now rewrite !length_map.
  - intros HTM. split; [|exact Hk2]. intros row _.
    now rewrite matvec_length.
Qed.


Lemma symmetric_demo_ok :
  exists p s,
    symmetric_demo = Ok (p, s) /\
    self_dtype p = complex128 /\ bcknd p = host_backend /\
    well_formed p /\ well_shaped p radial_field.
Proof.
  destruct symmetric_demo as [[p s]|e] eqn:E.
  - exists p, s. split; [reflexivity|].
    destruct (symmetric_init_well_formed _ _ _ _ _ _ _ _ _ _ E) as [Hwf _].
    unfold symmetric_demo, PropagatorSymmetric.init in E.
    change (init_backend demo_registry (Some "NP"%string)) with (Ok host_backend) in E.
    cbn [bind fst snd] in E. rewrite init_r_symmetric_ok in E. cbn [bind] in E.
    rewrite init_kr_mode0 in E. cbn [bind PropagatorSymmetric.output_grid] in E.
    injection E as <- _.
    cbn [self_dtype bcknd]. repeat split; try assumption.
    repeat constructor.
  - exfalso. unfold symmetric_demo, PropagatorSymmetric.init in E.
    change (init_backend demo_registry (Some "NP"%string)) with (Ok host_backend) in E.
    cbn [bind fst snd] in E. rewrite init_r_symmetric_ok in E. cbn [bind] in E.
    rewrite init_kr_mode0 in E. discriminate.
Qed.

Lemma symmetric_step_divides_input_witness :
  exists p s r w',
    symmetric_demo = Ok (p, s) /\
    step p 1 false (mk_World s radial_field) = (Ok r, w') /\
    data (arg w') =
      map (fun row => zip_with Cdiv_real row (PropagatorSymmetric._j (trns p)))
        (data radial_field).
Proof.
  destruct symmetric_demo_ok as (p & s & E & Hdt & Hbk & Hwf & Hws).
  destruct (symmetric_step_divides_input p 1 (mk_World s radial_field) Hwf Hws
              (eq_sym Hdt)) as (r & w' & Estep & Hdata).
  - rewrite Hbk. reflexivity.
  - exists p, s, r, w'. repeat split; assumption.
Defined.


(** ** The input array after a step: two built propagators *)



(** * Beyond the stepping methods: the backend and the grids *)

(** ** [init_backend] *)

Lemma find_first {A : Type} (f : A -> bool) (l : list A) (x : A) :
  find f l = Some x ->
  f x = true /\
  exists l1 l2, l = l1 ++ x :: l2 /\ forall y, In y l1 -> f y = false.
Proof.
  induction l as [|a l IH]; simpl; [discriminate|].
  destruct (f a) eqn:Ea.
  - intros E. injection E as <-. split; [exact Ea|].
    exists [], l. split; [reflexivity|]. intros y [].
  - intros E. destruct (IH E) as (Hx & l1 & l2 & -> & Hl1).
    split; [exact Hx|]. exists (a :: l1), l2. split; [reflexivity|].
    intros y [<-|Hy]; [exact Ea | now apply Hl1].
Qed.

Lemma find_none_iff {A : Type} (f : A -> bool) (l : list A) :
  (forall y, In y l -> f y = false) -> find f l = None.
Proof.
  induction l as [|a l IH]; intros Hl; simpl; [reflexivity|].
  rewrite (Hl a (or_introl eq_refl)). apply IH. intros y Hy. apply Hl. now right.
Qed.

(** The backend [init_backend] settles on is registered in
    [AVAILABLE_BACKENDS] under the name that takes precedence: the
    argument; or else the environment variable; or else the first name
    of [backend_strings_ordered] that is registered. *)
Theorem init_backend_choice (reg : Registry) (backend : option string)
    (bk : Backend) :
  init_backend reg backend = Ok bk ->
  exists s,
    lookup s (AVAILABLE_BACKENDS reg) = Some bk /\
    match backend, environ reg with
    | Some b, _ => s = b
    | None, Some e => s = e
    | None, None =>
      exists l1 l2,
        backend_strings_ordered reg = l1 ++ s :: l2 /\
        forall y, In y l1 -> lookup y (AVAILABLE_BACKENDS reg) = None
    end.
Proof.
  unfold init_backend. intros E.
  assert (Hlk : forall s,
    match lookup s (AVAILABLE_BACKENDS reg) with
    | Some bk0 => Ok bk0 | None => Err BackendError end = Ok bk ->
    lookup s (AVAILABLE_BACKENDS reg) = Some bk).
  { intros s Hs. destruct (lookup s (AVAILABLE_BACKENDS reg)); congruence. }
  destruct backend as [b|].
  - exists b. split; [now apply Hlk | reflexivity].
  - destruct (environ reg) as [e|].
    + exists e. split; [now apply Hlk | reflexivity].
    + destruct (find (is_available reg) (backend_strings_ordered reg))
        as [s|] eqn:Ef; [|discriminate].
      exists s. split; [now apply Hlk|].
      destruct (find_first _ _ _ Ef) as (_ & l1 & l2 & El & Hl1).
      exists l1, l2. split; [exact El|].
      intros y Hy. specialize (Hl1 y Hy). unfold is_available in Hl1.
      now destruct (lookup y (AVAILABLE_BACKENDS reg)).
Qed.

Lemma init_backend_choice_witness :
  exists s,
    lookup s (AVAILABLE_BACKENDS demo_registry) = Some device_backend /\
    exists l1 l2,
      backend_strings_ordered demo_registry = l1 ++ s :: l2 /\
      forall y, In y l1 -> lookup y (AVAILABLE_BACKENDS demo_registry) = None.
Proof.
  exact (init_backend_choice demo_registry None device_backend eq_refl).
Defined.

(** With no backend named, no environment variable, and none of the
    names of [backend_strings_ordered] registered, [init_backend] leaves
    its loop with [backend_string] unbound: it raises [NameError]
    ([UnboundLocalError]) and not the exception it has for a backend
    that is not available -- whatever else is registered. *)
Theorem init_backend_unbound (reg : Registry) :
  environ reg = None ->
  (forall s, In s (backend_strings_ordered reg) ->
     lookup s (AVAILABLE_BACKENDS reg) = None) ->
  init_backend reg None = Err NameError.
Proof.
  intros Henv Hnone. unfold init_backend. rewrite Henv.
  rewrite find_none_iff; [reflexivity|].
  intros y Hy. unfold is_available. now rewrite (Hnone y Hy).
Qed.

Lemma init_backend_unbound_witness :
  init_backend orphan_registry None = Err NameError.
Proof.
  apply (init_backend_unbound orphan_registry); [reflexivity|].
  intros s [<-|[<-|[]]]; reflexivity.
Defined.

(** ** [init_kz] *)

Lemma linspace_nth (a b : R) (num i : nat) :
  (i < num)%nat ->
  nth i (linspace a b num) 0 = a + INR i * ((b - a) / INR (num - 1)).
Proof.
  intros Hi. apply nth_error_nth.
  pose proof (linspace_index a b num i Hi) as E. unfold index in E.
  destruct (nth_error (linspace a b num) i); congruence.
Qed.

Lemma tl_length {A : Type} (l : list A) : length (tl l) = (length l - 1)%nat.
Proof. destruct l; simpl; lia. Qed.

Lemma nth_tl {A : Type} (l : list A) (i : nat) (d : A) :
  nth i (tl l) d = nth (S i) l d.
Proof. destruct l; [now destruct i | reflexivity]. Qed.

Lemma init_kz_tuple_length (k0 Lkz : R) (Nkz : nat) :
  length (init_kz (KzTuple k0 Lkz Nkz)) = (2 * ((Nkz + 1) / 2) - 1)%nat.
Proof.
  unfold init_kz.
  rewrite length_map, length_app, length_map, length_rev, tl_length,
    linspace_length. lia.
Qed.

(** For a tuple [(k0, Lkz, Nkz)] the axis has [2 * ceil(Nkz / 2) - 1]
    wavenumbers: [Nkz] of them when [Nkz] is odd, one fewer when it is
    even (none for [Nkz = 0]). *)
Theorem init_kz_tuple_size (k0 Lkz : R) (Nkz : nat) :
  length (init_kz (KzTuple k0 Lkz Nkz)) =
    if Nat.even Nkz then (Nkz - 1)%nat else Nkz.
Proof.
  rewrite init_kz_tuple_length.
  destruct (Nat.even Nkz) eqn:Ev.
  - apply Nat.even_spec in Ev. destruct Ev as [m ->].
    replace (2 * m + 1)%nat with (1 + m * 2)%nat by lia.
    rewrite Nat.div_add by lia. simpl. lia.
  - assert (Hodd : Nat.odd Nkz = true)
      by (rewrite <- Nat.negb_even, Ev; reflexivity).
    apply Nat.odd_spec in Hodd. destruct Hodd as [m ->].
    replace (2 * m + 1 + 1)%nat with ((m + 1) * 2)%nat by lia.
    rewrite Nat.div_mul by lia. lia.
Qed.

Lemma init_kz_tuple_nth (k0 Lkz : R) (Nkz i : nat) :
  let h := ((Nkz + 1) / 2 - 1)%nat in
  (1 <= h)%nat -> (i <= 2 * h)%nat ->
  nth i (init_kz (KzTuple k0 Lkz Nkz)) 0 =
    k0 + Lkz / 2 * ((INR i - INR h) / INR h).
Proof.
  intros h Hh Hi.
  assert (Hn2 : ((Nkz + 1) / 2 = S h)%nat) by (unfold h; lia).
  assert (HhR : INR h <> 0) by (apply not_0_INR; lia).
  unfold init_kz. rewrite Hn2.
  set (half := linspace 0 1 (S h)).
  set (f := fun a => k0 + Lkz / 2 * a).
  rewrite (nth_indep _ 0 (f 0)).
  2:{ rewrite length_map, length_app, length_map, length_rev, tl_length.
      unfold half. rewrite linspace_length. lia. }
  rewrite map_nth. unfold f. f_equal. f_equal.
  assert (Hlen : length (map Ropp (rev (tl half))) = h).
  { rewrite length_map, length_rev, tl_length. unfold half.
    rewrite linspace_length. lia. }
  destruct (Nat.lt_ge_cases i h) as [Hlt|Hge].
  - rewrite app_nth1 by lia.
    rewrite (nth_indep _ 0 (- 0)) by lia.
    rewrite map_nth.
    rewrite rev_nth by (rewrite tl_length; unfold half;
                        rewrite linspace_length; lia).
    rewrite tl_length. unfold half at 1. rewrite linspace_length.
    rewrite nth_tl. unfold half. rewrite linspace_nth by lia.
    replace (S (S h - 1 - S i)) with (h - i)%nat by lia.
    replace (S h - 1)%nat with h by lia.
    rewrite minus_INR by lia. field. exact HhR.
  - rewrite app_nth2 by lia. rewrite Hlen.
    unfold half. rewrite linspace_nth by lia.
    replace (S h - 1)%nat with h by lia.
    rewrite minus_INR by lia. field. exact HhR.
Qed.

(** For a tuple with [Nkz >= 3] the axis is the uniform grid of
    [2 h + 1] wavenumbers, [h = ceil(Nkz / 2) - 1], centred at [k0]: it
    runs from [k0 - Lkz / 2] to [k0 + Lkz / 2], its middle sample is
    [k0], and it is symmetric about [k0]. *)
Theorem init_kz_tuple_grid (k0 Lkz : R) (Nkz : nat) :
  (3 <= Nkz)%nat ->
  let h := ((Nkz + 1) / 2 - 1)%nat in
  let kz := init_kz (KzTuple k0 Lkz Nkz) in
  length kz = (2 * h + 1)%nat /\
  (forall i, (i <= 2 * h)%nat ->
     nth i kz 0 = k0 + Lkz / 2 * ((INR i - INR h) / INR h)) /\
  nth 0 kz 0 = k0 - Lkz / 2 /\
  nth h kz 0 = k0 /\
  nth (2 * h) kz 0 = k0 + Lkz / 2 /\
  (forall i, (i <= 2 * h)%nat -> nth i kz 0 + nth (2 * h - i) kz 0 = 2 * k0).
Proof.
  intros HN h kz.
  assert (Hh : (1 <= h)%nat).
  { unfold h. assert ((3 + 1) / 2 <= (Nkz + 1) / 2)%nat
      by (apply Nat.Div0.div_le_mono; lia).
    change ((3 + 1) / 2)%nat with 2%nat in H. lia. }
  assert (HhR : INR h <> 0) by (apply not_0_INR; lia).
  assert (Hnth := fun i => init_kz_tuple_nth k0 Lkz Nkz i Hh).
  fold h in Hnth. fold kz in Hnth.
  split; [|split; [|split; [|split; [|split]]]].
  - unfold kz. rewrite init_kz_tuple_length. fold h. unfold h. lia.
  - exact Hnth.
  - rewrite Hnth by lia. simpl INR. field. exact HhR.
  - rewrite Hnth by lia. field. exact HhR.
  - rewrite Hnth by lia. rewrite mult_INR. simpl INR. field. exact HhR.
  - intros i Hi. rewrite !Hnth by lia.
    rewrite minus_INR by lia. rewrite mult_INR. simpl INR. field. exact HhR.
Qed.

Lemma init_kz_tuple_grid_witness :
  let kz := init_kz (KzTuple 10 4 4) in
  length kz = 3%nat /\
  (forall i, (i <= 2)%nat ->
     nth i kz 0 = 10 + 4 / 2 * ((INR i - INR 1) / INR 1)) /\
  nth 0 kz 0 = 10 - 4 / 2 /\
  nth 1 kz 0 = 10 /\
  nth 2 kz 0 = 10 + 4 / 2 /\
  (forall i, (i <= 2)%nat -> nth i kz 0 + nth (2 - i) kz 0 = 2 * 10).
Proof.
  exact (init_kz_tuple_grid 10 4 4 ltac:(lia)).
Defined.

(** ** The radial grids *)

Lemma zip_with_length_min {A B D : Type} (f : A -> B -> D) (l : list A)
    (m : list B) :
  length (zip_with f l m) = Nat.min (length l) (length m).
Proof.
  revert m; induction l as [|a l IH]; intros [|b m]; simpl; try reflexivity.
  now rewrite IH.
Qed.

(** The differences [r[1:] - r[:-1]] telescope. *)
Lemma diff_sum (x : R) (r : list R) :
  fold_right Rplus 0 (zip_with Rminus (tl (x :: r)) (x :: r)) = last (x :: r) 0 - x.
Proof.
  revert x; induction r as [|y r IH]; intros x.
  - simpl. ring.
  - change (fold_right Rplus 0 (zip_with Rminus (tl (x :: y :: r)) (x :: y :: r)))
      with (y - x + fold_right Rplus 0 (zip_with Rminus (tl (y :: r)) (y :: r))).
    rewrite IH. change (last (x :: y :: r) 0) with (last (y :: r) 0). ring.
Qed.

Lemma fold_left_Rmax_ge (l : list R) (x : R) :
  x <= fold_left Rbasic_fun.Rmax l x /\
  (forall y, In y l -> y <= fold_left Rbasic_fun.Rmax l x) /\
  In (fold_left Rbasic_fun.Rmax l x) (x :: l).
Proof.
  revert x; induction l as [|a l IH]; intros x; simpl.
  - split; [lra|]. split; [intros y []| now left].
  - destruct (IH (Rbasic_fun.Rmax x a)) as (H1 & H2 & H3).
    pose proof (Rmax_l x a). pose proof (Rmax_r x a).
    split; [lra|]. split.
    + intros y [<-|Hy]; [lra | now apply H2].
    + destruct H3 as [H3|H3]; [|now right; right].
      rewrite <- H3. unfold Rbasic_fun.Rmax.
      destruct (Rle_dec x a); [right; now left | now left].
Qed.

(** For an array of two nodes or more, [init_r_sampled] keeps the nodes
    and their number, and puts the edge of the domain half an average
    spacing beyond the largest node; the average spacing only depends on
    the two ends of the array:
    [Rmax = r.max() + (r[-1] - r[0]) / (Nr - 1) / 2].  The empty array
    is refused ([ValueError], from [r.max()]). *)
Theorem init_r_sampled_edge :
  (forall r : list R, (2 <= length r)%nat ->
     exists m,
       In m r /\ (forall x, In x r -> x <= m) /\
       init_r_sampled r =
         Ok (r, m + (last r 0 - hd 0 r) / INR (length r - 1) / 2, length r)) /\
  init_r_sampled [] = Err ValueError.
Proof.
  split; [|reflexivity].
  intros [|x r] Hlen; simpl in Hlen; [lia|].
  exists (fold_left Rbasic_fun.Rmax r x).
  destruct (fold_left_Rmax_ge r x) as (H1 & H2 & H3).
  split; [exact H3|]. split.
  - intros y [<-|Hy]; [exact H1 | now apply H2].
  - unfold init_r_sampled, array_max, mean. cbn [bind].
    rewrite diff_sum, zip_with_length_min, tl_length.
    cbn [hd length]. rewrite Nat.min_l by lia.
    replace (S (length r) - 1)%nat with (length r) by lia.
    reflexivity.
Qed.

Lemma init_r_sampled_edge_witness :
  exists m,
    In m [1; 2; 4] /\ (forall x, In x [1; 2; 4] -> x <= m) /\
    init_r_sampled [1; 2; 4] =
      Ok ([1; 2; 4], m + (4 - 1) / INR 2 / 2, 3%nat).
Proof.
  exact (proj1 init_r_sampled_edge [1; 2; 4] ltac:(simpl; lia)).
Defined.

Lemma linspace_open_index (a b : R) (num i : nat) :
  (i < num)%nat ->
  index (linspace_open a b num) i = Ok (a + INR i * ((b - a) / INR num)).
Proof.
  intros Hi. unfold index, linspace_open.
  rewrite nth_error_map, nth_error_seq.
  rewrite (proj2 (Nat.ltb_lt i num) Hi). reflexivity.
Qed.

Lemma linspace_open_index_out (a b : R) (num i : nat) :
  (num <= i)%nat -> index (linspace_open a b num) i = Err IndexError.
Proof.
  intros Hi. unfold index.
  rewrite (proj2 (nth_error_None _ _)); [reflexivity|].
  now rewrite linspace_open_length.
Qed.

Lemma init_r_uniform_short (Rmax : R) (Nr : nat) :
  (Nr < 2)%nat -> init_r_uniform Rmax Nr = Err IndexError.
Proof.
  intros HN. unfold init_r_uniform.
  destruct Nr as [|[|Nr]]; [| |lia].
  - now rewrite linspace_open_index_out by lia.
  - rewrite linspace_open_index by lia. cbn [bind].
    now rewrite linspace_open_index_out by lia.
Qed.

(** [init_r_uniform] needs two nodes at least: it reads [r[[0, 1]]], so
    for [Nr < 2] it raises [IndexError].  For [Nr >= 2] the nodes are the
    centres of [Nr] cells of width [Rmax / Nr] (shifted by half the
    absolute width): [r[k] = k * Rmax / Nr + |Rmax / Nr| / 2]. *)
Theorem init_r_uniform_nodes (Rmax : R) (Nr : nat) :
  ((Nr < 2)%nat -> init_r_uniform Rmax Nr = Err IndexError) /\
  ((2 <= Nr)%nat ->
   init_r_uniform Rmax Nr =
     Ok (map (fun k => INR k * (Rmax / INR Nr) + Rabs (Rmax / INR Nr) / 2)
           (seq 0 Nr), Rmax, Nr)).
Proof.
  split; [apply init_r_uniform_short|].
  intros HN. unfold init_r_uniform.
  rewrite !linspace_open_index by lia. cbn [bind].
  do 2 f_equal. f_equal. unfold linspace_open. rewrite map_map.
  apply map_ext. intros k. simpl INR.
  replace (0 + 0 * ((Rmax - 0) / INR Nr)) with 0 by ring.
  replace (0 + 1 * ((Rmax - 0) / INR Nr)) with (Rmax / INR Nr)
    by (unfold Rdiv; ring).
  set (d := Rmax / INR Nr).
  replace ((Rmax - 0) / INR Nr) with d by (unfold d, Rdiv; ring).
  assert (Hptp : Rbasic_fun.Rmax 0 d - Rbasic_fun.Rmin 0 d = Rabs d).
  { unfold Rbasic_fun.Rmax, Rbasic_fun.Rmin, Rabs.
    destruct (Rle_dec 0 d), (Rcase_abs d); lra. }
  rewrite Hptp. lra.
Qed.

Lemma init_r_uniform_nodes_witness :
  init_r_uniform 1 1 = Err IndexError /\
  init_r_uniform 1 2 =
    Ok (map (fun k => INR k * (1 / INR 2) + Rabs (1 / INR 2) / 2) (seq 0 2),
        1, 2%nat).
Proof.
  split.
  - apply (proj1 (init_r_uniform_nodes 1 1)). lia.
  - apply (proj2 (init_r_uniform_nodes 1 2)). lia.
Defined.

(** ** The Cartesian grids *)

Lemma nth_map_in {A B : Type} (f : A -> B) (l : list A) (i : nat) (d : A)
    (e : B) :
  (i < length l)%nat -> nth i (map f l) e = f (nth i l d).
Proof.
  intros Hi. rewrite (nth_indep _ e (f d)) by (now rewrite length_map).
  apply map_nth.
Qed.

Lemma nth_flat_map_grid {A B : Type} (f : A -> A -> B) (a b : list A)
    (p q : nat) (d : A) (e : B) :
  (p < length a)%nat -> (q < length b)%nat ->
  nth (p * length b + q) (flat_map (fun ap => map (f ap) b) a) e =
    f (nth p a d) (nth q b d).
Proof.
  revert p; induction a as [|x a IH]; intros p Hp Hq; simpl in Hp; [lia|].
  cbn [flat_map]. destruct p as [|p].
  - simpl. rewrite app_nth1 by (now rewrite length_map).
    now apply nth_map_in.
  - rewrite app_nth2 by (rewrite length_map; simpl; lia).
    rewrite length_map.
    replace (S p * length b + q - length b)%nat with (p * length b + q)%nat
      by (simpl; lia).
    apply IH; [lia | exact Hq].
Qed.

Lemma fftfreq_zero (n : nat) (d : R) : (1 <= n)%nat -> nth 0 (fftfreq n d) 0 = 0.
Proof.
  intros Hn. unfold fftfreq.
  assert (H : (1 <= (n + 1) / 2)%nat).
  { change 1%nat with ((1 + 1) / 2)%nat at 1. apply Nat.Div0.div_le_mono. lia. }
  destruct ((n + 1) / 2)%nat as [|m]; [lia|].
  simpl. ring.
Qed.

(** The spectral grid of [init_xykxy_fft2]: sample [(p, q)] of [kr2] is
    [kx[p]**2 + ky[q]**2], and both frequency axes start at zero. *)
Lemma init_xykxy_fft2_spectral (Lx Ly : R) (Nx Ny : nat) :
  (2 <= Nx)%nat -> (2 <= Ny)%nat ->
  exists g,
    init_xykxy_fft2 Lx Nx Ly Ny = Ok g /\
    g_x g = linspace (- Lx / 2) (Lx / 2) Nx /\
    g_y g = linspace (- Ly / 2) (Ly / 2) Ny /\
    g_r g = hypot_grid (g_x g) (g_y g) /\ g_Nr g = length (g_r g) /\
    length (g_kx g) = Nx /\ length (g_ky g) = Ny /\
    nth 0 (g_kx g) 0 = 0 /\ nth 0 (g_ky g) 0 = 0 /\
    (forall p q, (p < Nx)%nat -> (q < Ny)%nat ->
       nth (p * Ny + q) (g_kr2xy g) 0 =
         nth p (g_kx g) 0 ^ 2 + nth q (g_ky g) 0 ^ 2).
Proof.
  intros HNx HNy.
  unfold init_xykxy_fft2.
  rewrite !linspace_index by lia. cbn [bind].
  assert (Ex : (Nx =? 1) = false) by (apply Nat.eqb_neq; lia).
  assert (Ey : (Ny =? 1) = false) by (apply Nat.eqb_neq; lia).
  rewrite Ex, Ey. cbn [andb].
  eexists. split; [reflexivity|]. cbn [g_Nr g_kr2xy g_x g_y g_r g_kx g_ky].
  set (kx := map (fun f => 2 * PI * f) (fftfreq Nx _)).
  set (ky := map (fun f => 2 * PI * f) (fftfreq Ny _)).
  assert (Hkx : length kx = Nx)
    by (unfold kx; now rewrite length_map, fftfreq_length).
  assert (Hky : length ky = Ny)
    by (unfold ky; now rewrite length_map, fftfreq_length).
  repeat split; try assumption.
  - unfold kx. rewrite (nth_map_in _ _ _ 0) by (rewrite fftfreq_length; lia).
    rewrite fftfreq_zero by lia. ring.
  - unfold ky. rewrite (nth_map_in _ _ _ 0) by (rewrite fftfreq_length; lia).
    rewrite fftfreq_zero by lia. ring.
  - intros p q Hp Hq.
    rewrite (nth_map_in _ _ _ 0)
      by (rewrite hypot_grid_length, Hkx, Hky; nia).
    unfold hypot_grid.
    rewrite <- Hky at 1.
    rewrite (nth_flat_map_grid (fun a b => sqrt (a ^ 2 + b ^ 2)) kx ky p q 0 0)
      by lia.
    cbv beta.
    rewrite <- (Rsqr_pow2 (sqrt (nth p kx 0 ^ 2 + nth q ky 0 ^ 2))).
    apply Rsqr_sqrt.
    pose proof (pow2_ge_0 (nth p kx 0)). pose proof (pow2_ge_0 (nth q ky 0)).
    lra.
Qed.

(** For [Nx, Ny >= 2] and domains of non-zero size the grids
    [init_xykxy_fft2] sets have [Nx * Ny] nodes; [x] runs from [-Lx / 2]
    to [Lx / 2]; sample [(p, q)] of [r] is [sqrt(x[p]**2 + y[q]**2)] and
    sample [(p, q)] of [kr2] is [kx[p]**2 + ky[q]**2], which is not
    negative; the first spectral sample is the on-axis mode,
    [kr2[0, 0] = 0]. *)
Theorem init_xykxy_fft2_grid (Lx Ly : R) (Nx Ny : nat) :
  Lx <> 0 -> Ly <> 0 ->
  (2 <= Nx)%nat -> (2 <= Ny)%nat ->
  exists g,
    init_xykxy_fft2 Lx Nx Ly Ny = Ok g /\
    g_Nr g = (Nx * Ny)%nat /\ length (g_kr2xy g) = (Nx * Ny)%nat /\
    nth 0 (g_x g) 0 = - Lx / 2 /\ nth (Nx - 1) (g_x g) 0 = Lx / 2 /\
    (forall p q, (p < Nx)%nat -> (q < Ny)%nat ->
       nth (p * Ny + q) (g_r g) 0 =
         sqrt (nth p (g_x g) 0 ^ 2 + nth q (g_y g) 0 ^ 2) /\
       nth (p * Ny + q) (g_kr2xy g) 0 =
         nth p (g_kx g) 0 ^ 2 + nth q (g_ky g) 0 ^ 2 /\
       0 <= nth (p * Ny + q) (g_kr2xy g) 0) /\
    nth 0 (g_kr2xy g) 0 = 0.
Proof.
  intros _ _ HNx HNy.
  destruct (init_xykxy_fft2_spectral Lx Ly Nx Ny HNx HNy)
    as (g & Eg & Hx & Hy & Hr & HNr & Hkx & Hky & Hkx0 & Hky0 & Hsq).
  destruct (init_xykxy_fft2_ok Lx Ly Nx Ny HNx HNy)
    as (g' & Eg' & _ & _ & _ & _ & _ & _ & Hlen).
  assert (g' = g) by congruence. subst g'.
  exists g. split; [exact Eg|].
  assert (Hlx : length (g_x g) = Nx) by (rewrite Hx; apply linspace_length).
  assert (Hly : length (g_y g) = Ny) by (rewrite Hy; apply linspace_length).
  split; [now rewrite HNr, Hr, hypot_grid_length, Hlx, Hly|].
  split; [exact Hlen|].
  split; [rewrite Hx, linspace_nth by lia; simpl; lra|].
  split.
  { rewrite Hx, linspace_nth by lia.
    assert (INR (Nx - 1) <> 0) by (apply not_0_INR; lia). field. assumption. }
  split.
  - intros p q Hp Hq. split; [|split].
    + rewrite Hr. unfold hypot_grid. rewrite <- Hly at 1.
      now rewrite (nth_flat_map_grid (fun a b => sqrt (a ^ 2 + b ^ 2))
                     (g_x g) (g_y g) p q 0 0) by lia.
    + now apply Hsq.
    + rewrite Hsq by assumption.
      pose proof (pow2_ge_0 (nth p (g_kx g) 0)).
      pose proof (pow2_ge_0 (nth q (g_ky g) 0)). lra.
  - replace 0%nat with (0 * Ny + 0)%nat at 1 by lia.
    rewrite Hsq by lia. rewrite Hkx0, Hky0. ring.
Qed.

Lemma init_xykxy_fft2_grid_witness :
  exists g,
    init_xykxy_fft2 1 2 1 2 = Ok g /\
    g_Nr g = 4%nat /\ length (g_kr2xy g) = 4%nat /\
    nth 0 (g_x g) 0 = - 1 / 2 /\ nth 1 (g_x g) 0 = 1 / 2 /\
    (forall p q, (p < 2)%nat -> (q < 2)%nat ->
       nth (p * 2 + q) (g_r g) 0 =
         sqrt (nth p (g_x g) 0 ^ 2 + nth q (g_y g) 0 ^ 2) /\
       nth (p * 2 + q) (g_kr2xy g) 0 =
         nth p (g_kx g) 0 ^ 2 + nth q (g_ky g) 0 ^ 2 /\
       0 <= nth (p * 2 + q) (g_kr2xy g) 0) /\
    nth 0 (g_kr2xy g) 0 = 0.
Proof.
  exact (init_xykxy_fft2_grid 1 1 2 2 ltac:(lra) ltac:(lra) ltac:(lia) ltac:(lia)).
Defined.

(** ** [apply_boundary] *)

Lemma absorb_layer_shape_ok (nb : nat) :
  (1 <= nb)%nat ->
  exists shape,
    absorb_layer_shape nb = Ok shape /\
    length shape = nb /\
    nth (nb - 1) shape 0 = 0 /\
    (forall k, (k < nb)%nat -> 0 <= nth k shape 0 <= 1) /\
    ((2 <= nb)%nat -> nth 0 shape 0 = 1).
Proof.
  intros Hnb. unfold absorb_layer_shape.
  assert (E0 : (nb =? 0) = false) by (apply Nat.eqb_neq; lia).
  rewrite E0. eexists. split; [reflexivity|].
  set (sh := map (fun a => sqrt (cos a)) (linspace 0 (PI / 2) nb)).
  assert (Hsh : length sh = nb)
    by (unfold sh; now rewrite length_map, linspace_length).
  assert (Hrl : length (removelast sh) = (nb - 1)%nat).
  { rewrite removelast_length. lia. }
  split; [rewrite length_app, Hrl; simpl; lia|].
  split.
  { rewrite app_nth2 by lia. rewrite Hrl, Nat.sub_diag. reflexivity. }
  assert (Hin : forall k, (k < nb - 1)%nat ->
            nth k (removelast sh ++ [0]) 0 =
              sqrt (cos (INR k * (PI / 2 / INR (nb - 1))))).
  { intros k Hk. rewrite app_nth1 by lia.
    assert (Hf : removelast sh = firstn (nb - 1) sh).
    { rewrite <- Hsh. replace (length sh - 1)%nat with (Nat.pred (length sh)) by lia.
      apply removelast_firstn_len. }
    rewrite Hf, nth_firstn.
    rewrite (proj2 (Nat.ltb_lt k (nb - 1)) Hk).
    unfold sh. rewrite (nth_map_in _ _ _ 0) by (rewrite linspace_length; lia).
    rewrite linspace_nth by lia. f_equal. f_equal. lra. }
  split.
  - intros k Hk.
    destruct (Nat.eq_dec k (nb - 1)) as [->|Hne].
    + rewrite app_nth2 by lia. rewrite Hrl, Nat.sub_diag. simpl. lra.
    + rewrite Hin by lia.
      assert (Hpos : 0 < INR (nb - 1)) by (apply lt_0_INR; lia).
      set (t := INR k * (PI / 2 / INR (nb - 1))).
      assert (Ht : 0 <= t <= PI / 2).
      { unfold t. pose proof PI_RGT_0. pose proof (pos_INR k).
        assert (Hk' : INR k <= INR (nb - 1)) by (apply le_INR; lia).
        split.
        - apply Rmult_le_pos; [assumption|].
          apply Rmult_le_pos; [lra|]. left. now apply Rinv_0_lt_compat.
        - replace (PI / 2) with (INR (nb - 1) * (PI / 2 / INR (nb - 1))) at 2
            by (field; lra).
          apply Rmult_le_compat_r; [|exact Hk'].
          apply Rmult_le_pos; [lra|]. left. now apply Rinv_0_lt_compat. }
      assert (Hc : 0 <= cos t <= 1).
      { split; [apply cos_ge_0; lra|]. pose proof (COS_bound t). lra. }
      split; [apply sqrt_pos|].
      rewrite <- sqrt_1. apply sqrt_le_1_alt. lra.
  - intros H2. rewrite Hin by lia. simpl INR. rewrite Rmult_0_l, cos_0.
    apply sqrt_1.
Qed.

Lemma map_result_ok {A B : Type} (f : A -> Result B) (g : A -> B) (l : list A) :
  (forall a, In a l -> f a = Ok (g a)) -> map_result f l = Ok (map g l).
Proof.
  induction l as [|a l IH]; intros Hf; simpl; [reflexivity|].
  rewrite (Hf a (or_introl eq_refl)). cbn [bind].
  rewrite IH by (intros b Hb; apply Hf; now right). reflexivity.
Qed.

Lemma map_result_err {A B : Type} (f : A -> Result B) (e : PyError)
    (a : A) (l : list A) :
  f a = Err e -> map_result f (a :: l) = Err e.
Proof. intros E. simpl. now rewrite E. Qed.

Lemma imul_tail_ok (shape : list R) (row : vec) :
  (length shape <= length row)%nat ->
  imul_tail shape row = Ok (absorbed shape row).
Proof.
  intros Hle. unfold imul_tail, absorbed.
  rewrite length_skipn.
  replace (length row - (length row - length shape))%nat with (length shape)
    by lia.
  now rewrite Nat.eqb_refl.
Qed.

Lemma absorbed_length (shape : list R) (row : vec) :
  (length shape <= length row)%nat ->
  length (absorbed shape row) = length row.
Proof.
  intros Hle. unfold absorbed.
  rewrite length_app, length_firstn, zip_with_length_min, length_skipn. lia.
Qed.

Lemma nth_zip_with {A B D : Type} (f : A -> B -> D) (l : list A) (m : list B)
    (i : nat) (a : A) (b : B) (d : D) :
  (i < length l)%nat -> (i < length m)%nat ->
  nth i (zip_with f l m) d = f (nth i l a) (nth i m b).
Proof.
  revert m i; induction l as [|x l IH]; intros [|y m] i Hl Hm;
    simpl in *; try lia.
  destruct i as [|i]; [reflexivity|]. apply IH; lia.
Qed.

Lemma absorbed_nth (shape : list R) (row : vec) (k : nat) :
  (length shape <= length row)%nat -> (k < length row)%nat ->
  nth k (absorbed shape row) C0 =
    if (k <? length row - length shape)%nat then nth k row C0
    else Cscale (nth (k - (length row - length shape)) shape 0) (nth k row C0).
Proof.
  intros Hle Hk. unfold absorbed.
  set (c := (length row - length shape)%nat).
  destruct (Nat.ltb_spec k c) as [Hlt|Hge].
  - rewrite app_nth1 by (rewrite length_firstn; lia).
    rewrite nth_firstn. now rewrite (proj2 (Nat.ltb_lt k c) Hlt).
  - rewrite app_nth2 by (rewrite length_firstn; lia).
    rewrite length_firstn, Nat.min_l by lia.
    rewrite (nth_zip_with _ _ _ _ 0 C0) by (rewrite ?length_skipn; lia).
    rewrite nth_skipn. f_equal. f_equal. lia.
Qed.

Lemma Cmod_Cscale (s : R) (z : C) : Cmod (Cscale s z) = Rabs s * Cmod z.
Proof.
  unfold Cmod, Cscale. cbn [fst snd].
  replace (s * fst z * (s * fst z) + s * snd z * (s * snd z))
    with (Rsqr s * (fst z * fst z + snd z * snd z)) by (unfold Rsqr; ring).
  rewrite sqrt_mult_alt by apply Rle_0_sqr.
  now rewrite sqrt_Rsqr_abs.
Qed.

Lemma Cscale_0 (z : C) : Cscale 0 z = C0.
Proof. unfold Cscale, C0, RtoC. f_equal; ring. Qed.

Lemma Cscale_1 (z : C) : Cscale 1 z = z.
Proof. destruct z. unfold Cscale. cbn [fst snd]. f_equal; ring. Qed.

Section Boundary.

Variable nb L : nat.
Variable w : World.
Hypothesis Hnb : (1 <= nb <= L)%nat.
Hypothesis Hrows : Forall (fun row => length row = L) (data (arg w)).

Lemma apply_boundary_ok :
  exists shape,
    absorb_layer_shape nb = Ok shape /\
    length shape = nb /\
    apply_boundary nb w =
      (Ok TheArgument,
       mk_World (scratch w)
         (mk_ndarray (dtype (arg w)) (map (absorbed shape) (data (arg w))))).
Proof.
  destruct (absorb_layer_shape_ok nb ltac:(lia)) as (shape & Es & Hlen & _).
  exists shape. split; [exact Es|]. split; [exact Hlen|].
  unfold apply_boundary, bindM, get_arg, lift, put_arg_data, ret.
  rewrite Es.
  rewrite (map_result_ok _ (absorbed shape)); [reflexivity|].
  intros row Hin. apply imul_tail_ok.
  rewrite Forall_forall in Hrows. rewrite (Hrows row Hin). lia.
Qed.

End Boundary.

(** [apply_boundary] on a field with a row at least, whose rows hold
    [L >= nr_boundary >= 1] samples, works in the caller's array and returns it; it touches
    nothing of the propagator, keeps the type, the number of rows and
    their size; in every row the samples before the last [nr_boundary]
    are as they were, the last sample is zero, and for
    [nr_boundary >= 2] the first sample of the layer is as it was. *)
Theorem apply_boundary_layer (nb L : nat) (w : World) :
  (1 <= nb <= L)%nat ->
  data (arg w) <> [] ->
  Forall (fun row => length row = L) (data (arg w)) ->
  exists w',
    apply_boundary nb w = (Ok TheArgument, w') /\
    scratch w' = scratch w /\
    dtype (arg w') = dtype (arg w) /\
    length (data (arg w')) = length (data (arg w)) /\
    forall i, (i < length (data (arg w)))%nat ->
      let row := nth i (data (arg w)) [] in
      let row' := nth i (data (arg w')) [] in
      length row' = L /\
      (forall k, (k < L - nb)%nat -> nth k row' C0 = nth k row C0) /\
      nth (L - 1) row' C0 = C0 /\
      ((2 <= nb)%nat -> nth (L - nb) row' C0 = nth (L - nb) row C0).
Proof.
  intros Hnb _ Hrows.
  destruct (apply_boundary_ok nb L w Hnb Hrows) as (shape & Es & Hlen & E).
  destruct (absorb_layer_shape_ok nb ltac:(lia))
    as (shape' & Es' & _ & Hlast & _ & Hfirst).
  assert (shape' = shape) by congruence. subst shape'.
  eexists. split; [exact E|]. cbn [scratch arg dtype data].
  split; [reflexivity|]. split; [reflexivity|].
  split; [apply length_map|].
  intros i Hi. cbv zeta.
  set (row := nth i (data (arg w)) []).
  assert (Hrow : length row = L).
  { rewrite Forall_forall in Hrows. apply Hrows. unfold row. now apply nth_In. }
  rewrite (nth_map_in _ _ _ []) by exact Hi. fold row. split; [rewrite absorbed_length; lia|].
  split; [|split].
  - intros k Hk. rewrite absorbed_nth by lia. rewrite Hrow, Hlen.
    now rewrite (proj2 (Nat.ltb_lt k (L - nb)) Hk).
  - rewrite absorbed_nth by lia. rewrite Hrow, Hlen.
    rewrite (proj2 (Nat.ltb_ge (L - 1) (L - nb))) by lia.
    replace (L - 1 - (L - nb))%nat with (nb - 1)%nat by lia.
    rewrite Hlast. apply Cscale_0.
  - intros H2. rewrite absorbed_nth by lia. rewrite Hrow, Hlen.
    rewrite Nat.ltb_irrefl, Nat.sub_diag, (Hfirst H2). apply Cscale_1.
Qed.

Lemma apply_boundary_layer_witness :
  let u := mk_ndarray complex128 [[C1; C1; C1]; [Ci; C1; Ci]] in
  let w := mk_World (init_buffers 3 3) u in
  exists w',
    apply_boundary 2 w = (Ok TheArgument, w') /\
    scratch w' = scratch w /\
    dtype (arg w') = complex128 /\
    length (data (arg w')) = 2%nat /\
    forall i, (i < 2)%nat ->
      let row := nth i (data u) [] in
      let row' := nth i (data (arg w')) [] in
      length row' = 3%nat /\
      (forall k, (k < 3 - 2)%nat -> nth k row' C0 = nth k row C0) /\
      nth (3 - 1) row' C0 = C0 /\
      ((2 <= 2)%nat -> nth (3 - 2) row' C0 = nth (3 - 2) row C0).
Proof.
  intros u w.
  apply (apply_boundary_layer 2 3 w); [lia | discriminate |].
  repeat constructor.
Defined.

(** [apply_boundary] amplifies nothing: under the same conditions no
    sample of the field grows in modulus. *)
Theorem apply_boundary_damps (nb L : nat) (w : World) :
  (1 <= nb <= L)%nat ->
  data (arg w) <> [] ->
  Forall (fun row => length row = L) (data (arg w)) ->
  exists w',
    apply_boundary nb w = (Ok TheArgument, w') /\
    forall i k, (i < length (data (arg w)))%nat -> (k < L)%nat ->
      Cmod (nth k (nth i (data (arg w')) []) C0) <=
      Cmod (nth k (nth i (data (arg w)) []) C0).
Proof.
  intros Hnb _ Hrows.
  destruct (apply_boundary_ok nb L w Hnb Hrows) as (shape & Es & Hlen & E).
  destruct (absorb_layer_shape_ok nb ltac:(lia))
    as (shape' & Es' & _ & _ & Hbound & _).
  assert (shape' = shape) by congruence. subst shape'.
  eexists. split; [exact E|]. cbn [arg data].
  intros i k Hi Hk.
  set (row := nth i (data (arg w)) []).
  assert (Hrow : length row = L).
  { rewrite Forall_forall in Hrows. apply Hrows. unfold row. now apply nth_In. }
  rewrite (nth_map_in _ _ _ []) by exact Hi. fold row.
  rewrite absorbed_nth by lia. rewrite Hrow, Hlen.
  destruct (Nat.ltb_spec k (L - nb)) as [Hlt|Hge]; [lra|].
  rewrite Cmod_Cscale.
  specialize (Hbound (k - (L - nb))%nat ltac:(lia)).
  rewrite Rabs_pos_eq by lra.
  assert (0 <= Cmod (nth k row C0)) by (unfold Cmod; apply sqrt_pos).
  nra.
Qed.

Lemma apply_boundary_damps_witness :
  let u := mk_ndarray complex128 [[C1; C1; C1]; [Ci; C1; Ci]] in
  let w := mk_World (init_buffers 3 3) u in
  exists w',
    apply_boundary 2 w = (Ok TheArgument, w') /\
    forall i k, (i < 2)%nat -> (k < 3)%nat ->
      Cmod (nth k (nth i (data (arg w')) []) C0) <=
      Cmod (nth k (nth i (data u) []) C0).
Proof.
  intros u w.
  apply (apply_boundary_damps 2 3 w); [lia | discriminate |].
  repeat constructor.
Defined.

(** [apply_boundary] fails before it changes anything: with
    [nr_boundary = 0] there is no last sample of the layer to clear
    ([IndexError]); a field whose first row is shorter than a layer of
    two samples or more cannot take the layer ([ValueError]). *)
Theorem apply_boundary_refuses (w : World) :
  apply_boundary 0 w = (Err IndexError, w) /\
  (forall nb row rows,
     data (arg w) = row :: rows ->
     (2 <= nb)%nat -> (length row < nb)%nat ->
     apply_boundary nb w = (Err ValueError, w)).
Proof.
  split; [reflexivity|].
  intros nb row rows Hd Hnb Hlt.
  destruct (absorb_layer_shape_ok nb ltac:(lia)) as (shape & Es & Hlen & _).
  unfold apply_boundary, bindM, get_arg, lift. rewrite Es, Hd.
  rewrite (map_result_err _ ValueError); [reflexivity|].
  unfold imul_tail. rewrite length_skipn, Hlen.
  replace (length row - nb)%nat with 0%nat by lia. rewrite Nat.sub_0_r.
  rewrite (proj2 (Nat.eqb_neq (length row) nb)) by lia.
  now rewrite (proj2 (Nat.eqb_neq nb 1)) by lia.
Qed.

Lemma apply_boundary_refuses_witness :
  let w := mk_World (init_buffers 3 3) (mk_ndarray complex128 [[C1; C1; C1]]) in
  apply_boundary 0 w = (Err IndexError, w) /\
  apply_boundary 16 w = (Err ValueError, w).
Proof.
  intros w. split.
  - exact (proj1 (apply_boundary_refuses w)).
  - apply (proj2 (apply_boundary_refuses w) 16%nat [C1; C1; C1] []);
      [reflexivity | lia | simpl; lia].
Defined.

(** ** [step] in place, and on a field that is too short *)

Lemma for_each_app {A : Type} (body : nat -> A -> M A) (l1 l2 : list nat)
    (a : A) (w : World) :
  for_each body (l1 ++ l2) a w =
    (a' <~ for_each body l1 a ;; for_each body l2 a') w.
Proof.
  revert a w; induction l1 as [|i l1 IH]; intros a w; [reflexivity|].
  cbn [app for_each]. unfold bindM.
  destruct (body i a w) as [[a'|e] w']; [|reflexivity].
  rewrite IH. reflexivity.
Qed.

Lemma set_nth_twice {A : Type} (i : nat) (x y : A) (l : list A) :
  set_nth i y (set_nth i x l) = set_nth i y l.
Proof.
  revert i; induction l as [|a l IH]; intros [|i]; simpl; try reflexivity.
  now rewrite IH.
Qed.

Lemma nth_error_set_nth {A : Type} (i : nat) (x : A) (l : list A) :
  (i < length l)%nat -> nth_error (set_nth i x l) i = Some x.
Proof.
  revert i; induction l as [|a l IH]; intros [|i] Hi; simpl in *; try lia.
  - reflexivity.
  - apply IH. lia.
Qed.

Lemma nth_error_set_nth_other {A : Type} (i k : nat) (x : A) (l : list A) :
  k <> i -> nth_error (set_nth i x l) k = nth_error l k.
Proof.
  revert i k; induction l as [|a l IH]; intros [|i] [|k] Hne; simpl;
    try reflexivity; try lia.
  apply IH. lia.
Qed.

Lemma set_nth_length {A : Type} (i : nat) (x : A) (l : list A) :
  length (set_nth i x l) = length l.
Proof.
  revert i; induction l as [|a l IH]; intros [|i]; simpl; try reflexivity.
  now rewrite IH.
Qed.

Section StepInPlace.

Context {T : Type} `{Transform T}.
Variable self : Propagator T.

(** The loop of [step(u, dz, overwrite=True)] after its first [n]
    rounds, on a field whose first [n] rows are there and have the
    input shape. *)
Lemma step_overwrite_loop (dz : R) (w : World) (n : nat) :
  well_formed self ->
  shape_trns_new self = shape_trns self ->
  (forall row, length row = shape_trns self ->
     length (fst (TST (trns self) row)) = shape_trns self) ->
  (n <= length (data (arg w)))%nat ->
  Forall (fun row => length row = shape_trns self) (firstn n (data (arg w))) ->
  exists w',
    for_each (fun ikz u_step =>
        transform_slice self ikz ;;;
        mul_phase dz (map (clamp_phase (nth ikz (kz self) 0)) (kr2 self)) ;;;
        inverse_transform self ;;;
        store u_step ikz)
      (seq 0 n) None w = (Ok None, w') /\
    same_session (scratch w) (scratch w') /\
    dtype (arg w') = dtype (arg w) /\
    data (arg w') =
      map (fun k => step_row self dz k (nth k (data (arg w)) [])) (seq 0 n) ++
      skipn n (data (arg w)).
Proof.
  intros Hwf Hsame Hshape Hn Hrows.
  set (u0 := data (arg w)) in *.
  set (F := fun k => step_row self dz k (nth k u0 [])).
  pose (Inv := fun (i : nat) (acc : option (list vec)) (w' : World) =>
    acc = None /\
    same_session (scratch w) (scratch w') /\
    dtype (arg w') = dtype (arg w) /\
    data (arg w') = map F (seq 0 i) ++ skipn i u0).
  destruct (for_each_inv
    (fun ikz u_step =>
      transform_slice self ikz ;;;
      mul_phase dz (map (clamp_phase (nth ikz (kz self) 0)) (kr2 self)) ;;;
      inverse_transform self ;;;
      store u_step ikz)
    Inv n 0 None w) as (acc & w' & Eloop & Iacc & Isess & Idt & Idata).
  - unfold Inv. simpl. repeat split; reflexivity.
  - intros i acc w1 Hi (Iacc & Isess & Idt & Idata).
    assert (Hrow : nth_error u0 i = Some (nth i u0 []))
      by (apply nth_error_nth'; lia).
    assert (Hlen : length (nth i u0 []) = shape_trns self).
    { rewrite Forall_forall in Hrows. apply Hrows.
      rewrite <- (firstn_skipn n u0) at 1.
      rewrite app_nth1 by (rewrite length_firstn; lia).
      apply nth_In. rewrite length_firstn. lia. }
    assert (Hrow1 : nth_error (data (arg w1)) i = Some (nth i u0 [])).
    { rewrite Idata. rewrite nth_error_app_skipn; [exact Hrow|].
      now rewrite length_map, length_seq. }
    assert (Hl1 : (i < length (data (arg w1)))%nat).
    { apply nth_error_Some. rewrite Hrow1. discriminate. }
    unfold bindM at 1. rewrite (transform_slice_ok self w1 i _ Hrow1 Hlen).
    unfold transformed_world.
    pose proof (Hshape _ Hlen) as Hlen'.
    destruct (TST (trns self) (nth i u0 [])) as [row' ht] eqn:ETST.
    cbn [fst] in Hlen'.
    subst acc.
    unfold mul_phase, inverse_transform, store, assign, index, bind,
      modify_scratch, get_scratch, get_arg, put_arg_data, lift, ret, bindM.
    cbn [scratch arg u_ht u_iht set_u_ht set_u_iht set_u_loc data dtype].
    set (v := iTST (trns self) _).
    assert (Hv : length v = shape_trns self) by (unfold v; now rewrite Hwf).
    assert (Eold : exists old,
      nth_error (data (if to_device_copies (bcknd self) then arg w1
                       else mk_ndarray (dtype (arg w1))
                              (set_nth i row' (data (arg w1))))) i = Some old /\
      length old = shape_trns self).
    { destruct (to_device_copies (bcknd self)).
      - exists (nth i u0 []). now split.
      - exists row'. split; [|exact Hlen'].
        cbn [data]. now apply nth_error_set_nth. }
    destruct Eold as (old & Eold & Hold).
    rewrite Eold, Hv, Hold, Nat.eqb_refl.
    eexists _, _. split; [reflexivity|]. unfold Inv. cbn [scratch arg data dtype].
    split; [reflexivity|]. split; [|split].
    + destruct Isess as (? & ? & ?). repeat split; assumption.
    + destruct (to_device_copies (bcknd self)); exact Idt.
    + assert (Eset : set_nth i v
               (data (if to_device_copies (bcknd self) then arg w1
                      else mk_ndarray (dtype (arg w1))
                             (set_nth i row' (data (arg w1))))) =
             set_nth i v (data (arg w1))).
      { destruct (to_device_copies (bcknd self)); [reflexivity|].
        cbn [data]. apply set_nth_twice. }
      rewrite Eset, Idata.
      rewrite (set_nth_app (map F (seq 0 i)) u0 v i)
        by (rewrite ?length_map, ?length_seq; lia).
      rewrite (seq_S i), map_app. cbn [map Nat.add].
      unfold F at 3, step_row, step_spectrum. rewrite ETST. reflexivity.
  - exists w'. subst acc. repeat split; try assumption; apply Isess.
Qed.

Lemma step_fresh_loop (dz : R) (w : World) (n : nat) :
  well_formed self ->
  (n <= Nkz self)%nat ->
  (n <= length (data (arg w)))%nat ->
  Forall (fun row => length row = shape_trns self) (firstn n (data (arg w))) ->
  exists acc w',
    for_each (fun ikz u_step =>
        transform_slice self ikz ;;;
        mul_phase dz (map (clamp_phase (nth ikz (kz self) 0)) (kr2 self)) ;;;
        inverse_transform self ;;;
        store u_step ikz)
      (seq 0 n) (Some (zeros (Nkz self) (shape_trns_new self))) w =
      (Ok acc, w') /\
    length (data (arg w')) = length (data (arg w)).
Proof.
  intros Hwf HnK Hn Hrows.
  set (u0 := data (arg w)) in *.
  set (Z := zeros (Nkz self) (shape_trns_new self)).
  pose (Inv := fun (i : nat) (acc : option (list vec)) (w' : World) =>
    (exists a, acc = Some a /\ length a = Nkz self /\
               Forall (fun row => length row = shape_trns_new self) a) /\
    length (data (arg w')) = length u0 /\
    forall k, (i <= k)%nat -> nth_error (data (arg w')) k = nth_error u0 k).
  destruct (for_each_inv
    (fun ikz u_step =>
      transform_slice self ikz ;;;
      mul_phase dz (map (clamp_phase (nth ikz (kz self) 0)) (kr2 self)) ;;;
      inverse_transform self ;;;
      store u_step ikz)
    Inv n 0 (Some Z) w) as (acc & w' & Eloop & _ & Ilen & _).
  - unfold Inv. split; [|split; [reflexivity | reflexivity]].
    exists Z. split; [reflexivity|]. unfold Z, zeros.
    split; [apply repeat_length|].
    apply Forall_forall. intros row Hin. apply repeat_spec in Hin. subst row.
    apply repeat_length.
  - intros i acc w1 Hi ((a & -> & Hla & Ha) & Ilen & Irest).
    assert (Hrow : nth_error u0 i = Some (nth i u0 []))
      by (apply nth_error_nth'; lia).
    assert (Hlen : length (nth i u0 []) = shape_trns self).
    { rewrite Forall_forall in Hrows. apply Hrows.
      rewrite <- (firstn_skipn n u0) at 1.
      rewrite app_nth1 by (rewrite length_firstn; lia).
      apply nth_In. rewrite length_firstn. lia. }
    assert (Hrow1 : nth_error (data (arg w1)) i = Some (nth i u0 []))
      by (rewrite Irest by lia; exact Hrow).
    unfold bindM at 1. rewrite (transform_slice_ok self w1 i _ Hrow1 Hlen).
    unfold transformed_world.
    destruct (TST (trns self) (nth i u0 [])) as [row' ht] eqn:ETST.
    unfold mul_phase, inverse_transform, store, assign, index, bind,
      modify_scratch, get_scratch, get_arg, put_arg_data, lift, ret, bindM.
    cbn [scratch arg u_ht u_iht set_u_ht set_u_iht set_u_loc data dtype].
    set (v := iTST (trns self) _).
    assert (Hv : length v = shape_trns_new self) by (unfold v; now rewrite Hwf).
    assert (Ha_i : nth_error a i = Some (nth i a [])).
    { apply nth_error_nth'. lia. }
    assert (Hla_i : length (nth i a []) = shape_trns_new self).
    { rewrite Forall_forall in Ha. apply Ha, nth_In. lia. }
    rewrite Ha_i, Hv, Hla_i, Nat.eqb_refl.
    eexists _, _. split; [reflexivity|]. unfold Inv. cbn [scratch arg data dtype].
    split; [|split].
    + eexists. split; [reflexivity|]. rewrite set_nth_length. split; [exact Hla|].
      apply Forall_forall. intros row Hin.
      apply In_nth_error in Hin. destruct Hin as (k & Hk).
      destruct (Nat.eq_dec k i) as [->|Hne].
      * rewrite nth_error_set_nth in Hk by lia. now injection Hk as <-.
      * rewrite nth_error_set_nth_other in Hk by exact Hne.
        rewrite Forall_forall in Ha. apply Ha. eapply nth_error_In, Hk.
    + destruct (to_device_copies (bcknd self)); [exact Ilen|].
      cbn [data]. now rewrite set_nth_length.
    + intros k Hk. destruct (to_device_copies (bcknd self)); [apply Irest; lia|].
      cbn [data]. rewrite <- Irest by lia.
      apply nth_error_set_nth_other. lia.
  - exists acc, w'. split; [exact Eloop | exact Ilen].
Qed.

End StepInPlace.

(** ** The forward transform undoes the inverse one *)

Lemma twiddle_sym (s : R) (N k n : nat) : twiddle s N k n = twiddle s N n k.
Proof. unfold twiddle. f_equal. unfold Rdiv. ring. Qed.

Lemma twiddle_orthogonal_rev (N a m : nat) :
  (a < N)%nat -> (m < N)%nat ->
  Csum N (fun p => (twiddle (-1) N a p * twiddle 1 N p m)%C) =
    if a =? m then RtoC (INR N) else C0.
Proof.
  intros Ha Hm.
  rewrite (Csum_ext N _ (fun p => (twiddle 1 N m p * twiddle (-1) N p a)%C)).
  - rewrite twiddle_orthogonal by assumption. now rewrite Nat.eqb_sym.
  - intros p _. rewrite (twiddle_sym (-1) N a p), (twiddle_sym 1 N p m). ring.
Qed.

Lemma dft_inversion_1d_rev (N a : nat) (g : nat -> C) :
  (a < N)%nat ->
  Csum N (fun p =>
    (twiddle (-1) N a p * Csum N (fun m => g m * twiddle 1 N p m))%C) =
  (RtoC (INR N) * g a)%C.
Proof.
  intros Ha.
  rewrite (Csum_ext N _ (fun p =>
    Csum N (fun m => (g m * (twiddle (-1) N a p * twiddle 1 N p m))%C))).
  2:{ intros p _. rewrite <- Csum_scal. apply Csum_ext. intros m _. ring. }
  rewrite Csum_swap.
  rewrite (Csum_ext N _ (fun m =>
    if m =? a then (RtoC (INR N) * g m)%C else C0)).
  - now apply Csum_delta.
  - intros m Hm. rewrite Csum_scal, twiddle_orthogonal_rev by assumption.
    rewrite (Nat.eqb_sym m a). destruct (a =? m); ring.
Qed.

Lemma fft2_ifft2 (Nx Ny : nat) (v : list C) :
  length v = (Nx * Ny)%nat -> fft2 Nx Ny (ifft2 Nx Ny v) = v.
Proof.
  intros Hl. rewrite <- (tabulate2_at2 Nx Ny v Hl) at 2.
  unfold fft2. apply tabulate2_ext. intros a b Ha Hb.
  assert (HNx : INR Nx <> 0) by (apply not_0_INR; lia).
  assert (HNy : INR Ny <> 0) by (apply not_0_INR; lia).
  set (c := RtoC (/ INR (Nx * Ny))).
  set (h := fun m q => Csum Nx (fun p => (at2 Ny v p q * twiddle 1 Nx m p)%C)).
  assert (Hin : forall m, (m < Nx)%nat ->
    Csum Ny (fun n =>
      (at2 Ny (ifft2 Nx Ny v) m n *
       (twiddle (-1) Nx a m * twiddle (-1) Ny b n))%C) =
    (c * (twiddle (-1) Nx a m * (RtoC (INR Ny) * h m b)))%C).
  { intros m Hm.
    rewrite <- (dft_inversion_1d_rev Ny b (h m) Hb).
    rewrite <- (Csum_scal Ny (twiddle (-1) Nx a m)).
    rewrite <- (Csum_scal Ny c).
    apply Csum_ext. intros n Hn.
    unfold ifft2. rewrite at2_tabulate2 by assumption.
    rewrite Cscale_RtoC. fold c.
    rewrite Csum_swap.
    replace (Csum Ny (fun q => (h m q * twiddle 1 Ny n q)%C))
      with (Csum Ny (fun q =>
              Csum Nx (fun p =>
                (at2 Ny v p q * (twiddle 1 Nx m p * twiddle 1 Ny n q))%C))).
    - ring.
    - apply Csum_ext. intros q _. unfold h.
      rewrite (C_ring_theory.(Rmul_comm) (Csum Nx _)).
      rewrite <- (Csum_scal Nx (twiddle 1 Ny n q)).
      apply Csum_ext. intros p _. ring. }
  rewrite (Csum_ext Nx _ _ Hin).
  rewrite (Csum_ext Nx _ (fun m =>
    ((c * RtoC (INR Ny)) *
     (twiddle (-1) Nx a m *
      Csum Nx (fun p => at2 Ny v p b * twiddle 1 Nx m p)))%C))
    by (intros m _; unfold h; ring).
  rewrite Csum_scal, dft_inversion_1d_rev by exact Ha.
  unfold c. rewrite mult_INR.
  replace (RtoC (/ (INR Nx * INR Ny)) * RtoC (INR Ny) *
           (RtoC (INR Nx) * at2 Ny v a b))%C
    with (RtoC (/ (INR Nx * INR Ny) * (INR Ny * INR Nx)) * at2 Ny v a b)%C
    by (rewrite !RtoC_mult; ring).
  replace (/ (INR Nx * INR Ny) * (INR Ny * INR Nx)) with 1
    by (field; split; assumption).
  fold C1. ring.
Qed.

Lemma ifft2_length (Nx Ny : nat) (v : list C) :
  length (ifft2 Nx Ny v) = (Nx * Ny)%nat.
Proof. unfold ifft2. apply tabulate2_length. Qed.

Section StepEdges.

Context {T : Type} `{Transform T}.
Variable self : Propagator T.

(** [step(u, dz, overwrite=True)] on a propagator whose output shape is
    its input shape leaves in the caller's array the very field that
    [step(u, dz)] returns in an array of its own, and returns the
    caller's array; the stepping session is not touched.  (The in-place
    part of the transform keeps the size of a row.) *)
Theorem step_in_place (dz : R) (w : World) :
  well_formed self -> well_shaped self (arg w) ->
  dtype (arg w) = self_dtype self ->
  shape_trns_new self = shape_trns self ->
  (forall row, length row = shape_trns self ->
     length (fst (TST (trns self) row)) = shape_trns self) ->
  exists a w0 w',
    step self dz false w = (Ok (Fresh a), w0) /\
    step self dz true w = (Ok TheArgument, w') /\
    arg w' = a /\
    same_session (scratch w) (scratch w').
Proof.
  intros Hwf Hws Hdt Hsame Hshape.
  destruct (step_spec self dz w Hwf Hws Hdt) as (w0 & E0 & _).
  destruct Hws as [Hl Hrows].
  destruct (step_overwrite_loop self dz w (Nkz self) Hwf Hsame Hshape)
    as (w' & Eloop & Isess & Idt & Idata).
  - lia.
  - rewrite <- Hl, firstn_all. exact Hrows.
  - eexists _, w0, w'. split; [exact E0|]. split; [|split; [|exact Isess]].
    + unfold step. erewrite bindM_Ok by reflexivity.
      erewrite bindM_Ok
        by (unfold lift, assert; now rewrite (proj2 (DType_eqb_eq _ _) Hdt)).
      unfold range. erewrite bindM_Ok by exact Eloop. reflexivity.
    + rewrite <- Hl, skipn_all, app_nil_r in Idata.
      destruct (arg w') as [dt' d']. cbn [dtype data] in *.
      subst. unfold step_result, range. now rewrite Hl.
Qed.

(** [step] on a field with fewer rows than the propagator has
    wavenumbers propagates the rows there are and then raises
    [IndexError], at the first row that is missing. *)
Theorem step_short_field (dz : R) (w : World) :
  well_formed self ->
  dtype (arg w) = self_dtype self ->
  (length (data (arg w)) < Nkz self)%nat ->
  Forall (fun row => length row = shape_trns self) (data (arg w)) ->
  exists w', step self dz false w = (Err IndexError, w').
Proof.
  intros Hwf Hdt Hshort Hrows.
  set (n := length (data (arg w))) in *.
  destruct (step_fresh_loop self dz w n Hwf) as (acc & w1 & Eloop & Hlen).
  - lia.
  - unfold n. lia.
  - unfold n. now rewrite firstn_all.
  - exists w1. unfold step. erewrite bindM_Ok by reflexivity.
    erewrite bindM_Ok
      by (unfold lift, assert; now rewrite (proj2 (DType_eqb_eq _ _) Hdt)).
    unfold range.
    assert (Hseq : seq 0 (Nkz self) = seq 0 n ++ seq n (S (Nkz self - S n))).
    { rewrite <- seq_app. f_equal. lia. }
    rewrite Hseq. unfold bindM at 1.
    rewrite for_each_app. unfold bindM at 1. rewrite Eloop.
    cbn [seq for_each Nat.add].
    unfold transform_slice, get_arg, lift, index, bindM.
    rewrite (proj2 (nth_error_None (data (arg w1)) n)) by (fold n in Hlen; lia).
    reflexivity.
Qed.

End StepEdges.

(** ** Steps compose *)

Lemma phase_factor_plus (d1 d2 ph : R) :
  (phase_factor d1 (RtoC ph) * phase_factor d2 (RtoC ph))%C =
  phase_factor (d1 + d2) (RtoC ph).
Proof.
  rewrite !phase_factor_real, <- cis_plus. f_equal. ring.
Qed.

Lemma advance_advance (phase : list R) (ht : list C) (d1 d2 : R) :
  advance phase (advance phase ht d1) d2 = advance phase ht (d1 + d2).
Proof.
  unfold advance. revert phase.
  induction ht as [|u ht IH]; intros [|ph phase]; try reflexivity.
  cbn [zip_with]. rewrite IH. f_equal.
  rewrite <- phase_factor_plus. ring.
Qed.

Lemma advance_length (phase : list R) (ht : list C) (d : R) :
  length ht = length phase -> length (advance phase ht d) = length ht.
Proof. intros Hl. unfold advance. now apply zip_with_length. Qed.

Section StepCompose.

Context {T : Type} `{Transform T}.
Variable self : Propagator T.

Hypothesis Hwf : well_formed self.
Hypothesis Hwfs : well_formed_spectrum self.
Hypothesis Hsame : shape_trns_new self = shape_trns self.
(** The forward transform undoes the inverse one on a spectrum. *)
Hypothesis Hback : forall ht, length ht = shape_trns self ->
  snd (TST (trns self) (iTST (trns self) ht)) = ht.

Lemma step_spectrum_length (dz : R) (ikz : nat) (row : list C) :
  length row = shape_trns self ->
  length (step_spectrum self dz ikz row) = shape_trns self.
Proof.
  intros Hl. unfold step_spectrum.
  change (zip_with _ ?ht ?phase) with (advance phase ht dz).
  destruct Hwfs as [Hht Hkr].
  rewrite advance_length; [now apply Hht|].
  rewrite length_map, Hkr. now apply Hht.
Qed.

Lemma step_row_compose (d1 d2 : R) (ikz : nat) (row : list C) :
  length row = shape_trns self ->
  step_row self d2 ikz (step_row self d1 ikz row) =
    step_row self (d1 + d2) ikz row.
Proof.
  intros Hl. unfold step_row. f_equal.
  unfold step_spectrum at 1.
  rewrite Hback by (now apply step_spectrum_length).
  unfold step_spectrum.
  change (zip_with ?f (zip_with ?g ?ht ?phase) ?phase)
    with (advance phase (advance phase ht d1) d2).
  now rewrite advance_advance.
Qed.

Lemma step_result_well_shaped (dz : R) (dt : DType) (u : list (list C)) :
  well_shaped self (mk_ndarray dt (step_result self dz u)).
Proof.
  split; cbn [data].
  - unfold step_result, range. now rewrite length_map, length_seq.
  - apply Forall_forall. intros row Hin. unfold step_result in Hin.
    apply in_map_iff in Hin. destruct Hin as (k & <- & _).
    unfold step_row. now rewrite Hwf.
Qed.

Lemma step_result_compose (d1 d2 : R) (u : ndarray) :
  well_shaped self u ->
  step_result self d2 (step_result self d1 (data u)) =
    step_result self (d1 + d2) (data u).
Proof.
  intros Hws. unfold step_result at 1 3. apply map_ext_in.
  intros k Hk. apply in_seq in Hk.
  unfold step_result.
  rewrite (nth_map_in _ _ _ 0%nat) by (unfold range; rewrite length_seq; lia).
  unfold range. rewrite seq_nth by lia. cbn [Nat.add].
  apply step_row_compose.
  now apply (row_of_well_shaped self u k Hws).
Qed.

Lemma step_compose (d1 d2 : R) (u : ndarray) (s0 s1 s2 : Scratch) :
  well_shaped self u -> dtype u = self_dtype self ->
  exists a1 w1 a2 w2 a12 w12,
    step self d1 false (mk_World s0 u) = (Ok (Fresh a1), w1) /\
    step self d2 false (mk_World s1 a1) = (Ok (Fresh a2), w2) /\
    step self (d1 + d2) false (mk_World s2 u) = (Ok (Fresh a12), w12) /\
    a2 = a12.
Proof.
  intros Hws Hdt.
  destruct (step_spec self d1 (mk_World s0 u) Hwf Hws Hdt) as (w1 & E1 & _).
  destruct (step_spec self (d1 + d2) (mk_World s2 u) Hwf Hws Hdt)
    as (w12 & E12 & _).
  cbn [arg] in E1, E12.
  destruct (step_spec self d2
              (mk_World s1 (mk_ndarray (dtype u) (step_result self d1 (data u))))
              Hwf (step_result_well_shaped d1 (dtype u) (data u)) Hdt)
    as (w2 & E2 & _).
  cbn [arg dtype data] in E2.
  eexists _, w1, _, w2, _, w12.
  split; [exact E1|]. split; [exact E2|]. split; [exact E12|].
  now rewrite step_result_compose.
Qed.

End StepCompose.

Lemma fft2_init_inv (reg : Registry) (x_axis y_axis : R * nat)
    (kz_axis : kz_axis_t) (dt : DType) (backend : option string)
    (p : Propagator PropagatorFFT2.t) (s : Scratch) :
  PropagatorFFT2.init reg x_axis y_axis kz_axis dt backend = Ok (p, s) ->
  self_dtype p = dt /\ kz p = init_kz kz_axis /\
  shape_trns p = (snd x_axis * snd y_axis)%nat /\
  shape_trns_new p = shape_trns p /\
  g_Nx (PropagatorFFT2.grid (trns p)) = snd x_axis /\
  g_Ny (PropagatorFFT2.grid (trns p)) = snd y_axis /\
  (2 <= snd x_axis)%nat /\ (2 <= snd y_axis)%nat /\
  well_formed p /\ well_formed_spectrum p.
Proof.
  destruct x_axis as [Lx Nx], y_axis as [Ly Ny]. cbn [snd]. intros E.
  assert (Hbk : exists bk, init_backend reg backend = Ok bk).
  { unfold PropagatorFFT2.init in E.
    destruct (init_backend reg backend) as [bk|]; [eauto | discriminate]. }
  destruct Hbk as (bk & Hbk).
  assert (HN : (2 <= Nx)%nat /\ (2 <= Ny)%nat).
  { unfold PropagatorFFT2.init in E. rewrite Hbk in E.
    cbn [bind fst snd] in E. unfold init_xykxy_fft2 in E.
    destruct (le_lt_dec 2 Nx) as [Hx|Hx].
    - split; [exact Hx|].
      destruct (le_lt_dec 2 Ny) as [Hy|Hy]; [exact Hy|].
      rewrite !(linspace_index _ _ Nx) in E by lia. cbn [bind] in E.
      rewrite (linspace_index_out _ _ Ny 1) in E by lia. discriminate.
    - rewrite (linspace_index_out _ _ Nx 1) in E by lia. discriminate. }
  destruct HN as [Hx Hy].
  destruct (fft2_init_ok reg bk Lx Ly Nx Ny kz_axis dt backend Hbk Hx Hy)
    as (p' & s' & E' & Hdt & _ & Hkz & Hs & Hsn & _ & HgNx & HgNy & Hwf & Hwfs).
  rewrite E in E'. injection E' as <- <-.
  repeat split; try assumption; try congruence; apply Hwfs.
Qed.

Lemma fft2_back (p : Propagator PropagatorFFT2.t) (ht : list C) :
  shape_trns p =
    (g_Nx (PropagatorFFT2.grid (trns p)) * g_Ny (PropagatorFFT2.grid (trns p)))%nat ->
  length ht = shape_trns p ->
  snd (TST (trns p) (iTST (trns p) ht)) = ht.
Proof. intros Hs Hl. cbn. apply fft2_ifft2. now rewrite Hl. Qed.

(** For a [PropagatorFFT2] (on domains of non-zero size), two steps in a
    row are one step over the sum of the distances:
    [step(step(u, d1), d2) = step(u, d1 + d2)], for every field [u] of
    the propagator's shape and type. *)
Theorem fft2_step_composes (reg : Registry) (x_axis y_axis : R * nat)
    (kz_axis : kz_axis_t) (dt : DType) (backend : option string)
    (p : Propagator PropagatorFFT2.t) (s : Scratch)
    (d1 d2 : R) (u : ndarray) (s0 s1 s2 : Scratch) :
  PropagatorFFT2.init reg x_axis y_axis kz_axis dt backend = Ok (p, s) ->
  fst x_axis <> 0 -> fst y_axis <> 0 ->
  well_shaped p u -> dtype u = dt ->
  exists a1 w1 a2 w2 a12 w12,
    step p d1 false (mk_World s0 u) = (Ok (Fresh a1), w1) /\
    step p d2 false (mk_World s1 a1) = (Ok (Fresh a2), w2) /\
    step p (d1 + d2) false (mk_World s2 u) = (Ok (Fresh a12), w12) /\
    a2 = a12.
Proof.
  intros E _ _ Hws Hdt.
  destruct (fft2_init_inv _ _ _ _ _ _ _ _ E)
    as (Hd & _ & Hs & Hsn & HgNx & HgNy & _ & _ & Hwf & Hwfs).
  apply step_compose; try assumption; [|congruence].
  intros ht Hl. apply fft2_back; [|exact Hl]. now rewrite HgNx, HgNy.
Qed.

Lemma fft2_step_composes_witness :
  exists p s a1 w1 a2 w2 a12 w12,
    fft2_demo = Ok (p, s) /\
    step p 1 false (mk_World s demo_field) = (Ok (Fresh a1), w1) /\
    step p 2 false (mk_World s a1) = (Ok (Fresh a2), w2) /\
    step p (1 + 2) false (mk_World s demo_field) = (Ok (Fresh a12), w12) /\
    a2 = a12.
Proof.
  destruct fft2_demo_ok as (p & s & E & Hdt & Hbk & Hkz & Hs & _).
  destruct (fft2_step_composes _ _ _ _ _ _ p s 1 2 demo_field s s s E
              R1_neq_R0 R1_neq_R0
              (demo_field_well_shaped p 1 Hkz Hs) eq_refl)
    as (a1 & w1 & a2 & w2 & a12 & w12 & H1 & H2 & H3 & H4).
  exists p, s, a1, w1, a2, w2, a12, w12. repeat split; assumption.
Defined.

(** For a [PropagatorFFT2] (on domains of non-zero size), a step back
    undoes a step: [step(step(u, dz), -dz) = u]. *)
Theorem fft2_step_reversible (reg : Registry) (x_axis y_axis : R * nat)
    (kz_axis : kz_axis_t) (dt : DType) (backend : option string)
    (p : Propagator PropagatorFFT2.t) (s : Scratch)
    (dz : R) (u : ndarray) (s0 s1 : Scratch) :
  PropagatorFFT2.init reg x_axis y_axis kz_axis dt backend = Ok (p, s) ->
  fst x_axis <> 0 -> fst y_axis <> 0 ->
  well_shaped p u -> dtype u = dt ->
  exists a1 w1 w2,
    step p dz false (mk_World s0 u) = (Ok (Fresh a1), w1) /\
    step p (- dz) false (mk_World s1 a1) = (Ok (Fresh u), w2).
Proof.
  intros E _ _ Hws Hdt.
  destruct (fft2_init_inv _ _ _ _ _ _ _ _ E)
    as (Hd & _ & Hs & Hsn & HgNx & HgNy & _ & _ & Hwf & Hwfs).
  assert (Hback : forall ht, length ht = shape_trns p ->
            snd (TST (trns p) (iTST (trns p) ht)) = ht).
  { intros ht Hl. apply fft2_back; [|exact Hl]. now rewrite HgNx, HgNy. }
  destruct (step_compose p Hwf Hwfs Hsn Hback dz (- dz) u s0 s1 s0 Hws
              ltac:(congruence))
    as (a1 & w1 & a2 & w2 & a12 & w12 & H1 & H2 & H3 & H4).
  destruct (step_zero p (mk_World s0 u) Hwf Hwfs Hws ltac:(cbn [arg]; congruence))
    as (w0 & E0).
  cbn [arg] in E0.
  assert (Hid : map (fun row => iTST (trns p) (snd (TST (trns p) row))) (data u)
                = data u).
  { erewrite map_ext_in; [apply map_id|].
    intros row Hin. apply (fft2_round_trip (trns p)).
    destruct Hws as [_ Hrows]. rewrite Forall_forall in Hrows.
    rewrite (Hrows row Hin), Hs. now rewrite HgNx, HgNy. }
  rewrite Hid in E0.
  rewrite Rplus_opp_r, E0 in H3. injection H3 as <- _.
  exists a1, w1, w2. split; [exact H1|]. rewrite H2, H4.
  now destruct u.
Qed.

Lemma fft2_step_reversible_witness :
  exists p s a1 w1 w2,
    fft2_demo = Ok (p, s) /\
    step p 1 false (mk_World s demo_field) = (Ok (Fresh a1), w1) /\
    step p (- 1) false (mk_World s a1) = (Ok (Fresh demo_field), w2).
Proof.
  destruct fft2_demo_ok as (p & s & E & Hdt & Hbk & Hkz & Hs & _).
  destruct (fft2_step_reversible _ _ _ _ _ _ p s 1 demo_field s s E
              R1_neq_R0 R1_neq_R0
              (demo_field_well_shaped p 1 Hkz Hs) eq_refl)
    as (a1 & w1 & w2 & H1 & H2).
  exists p, s, a1, w1, w2. repeat split; assumption.
Defined.

Lemma step_in_place_witness :
  exists p s a w0 w',
    fft2_demo = Ok (p, s) /\
    step p 1 false (mk_World s demo_field) = (Ok (Fresh a), w0) /\
    step p 1 true (mk_World s demo_field) = (Ok TheArgument, w') /\
    arg w' = a /\
    same_session s (scratch w').
Proof.
  destruct fft2_demo_ok as (p & s & E & Hdt & Hbk & Hkz & Hs & Hsn & _ & Hwf).
  destruct (step_in_place p 1 (mk_World s demo_field) Hwf
              (demo_field_well_shaped p 1 Hkz Hs) (eq_sym Hdt)
              (eq_trans Hsn (eq_sym Hs)) (fun row Hrow => Hrow))
    as (a & w0 & w' & H1 & H2 & H3 & H4).
  exists p, s, a, w0, w'. repeat split; try assumption; apply H4.
Defined.

Lemma step_short_field_witness :
  exists p s w',
    fft2_demo = Ok (p, s) /\
    step p 1 false (mk_World s (mk_ndarray complex128 [])) =
      (Err IndexError, w').
Proof.
  destruct fft2_demo_ok as (p & s & E & Hdt & Hbk & Hkz & Hs & Hsn & _ & Hwf).
  destruct (step_short_field p 1 (mk_World s (mk_ndarray complex128 [])) Hwf
              (eq_sym Hdt)) as (w' & Hw').
  - unfold Nkz. rewrite Hkz. simpl. lia.
  - constructor.
  - exists p, s, w'. split; assumption.
Defined.

(** ** The positions of [steps] *)

Lemma fold_left_advance (phase : list R) (ds : list R) :
  forall (d : R) (ht : list C),
    fold_left (advance phase) (d :: ds) ht = advance phase ht (d + Rsum ds).
Proof.
  induction ds as [|d' ds IH]; intros d ht.
  - cbn [fold_left Rsum fold_right]. now rewrite Rplus_0_r.
  - change (fold_left (advance phase) (d :: d' :: ds) ht)
      with (fold_left (advance phase) (d' :: ds) (advance phase ht d)).
    rewrite IH, advance_advance. reflexivity.
Qed.

Lemma partial_sum_diff (zs : list R) :
  forall (z0 : R) (i : nat), (i <= length zs)%nat ->
    z0 + Rsum (firstn i (zip_with Rminus zs (z0 :: zs))) = nth i (z0 :: zs) 0.
Proof.
  induction zs as [|z1 zs IH]; intros z0 i Hi; simpl in Hi.
  - replace i with 0%nat by lia. simpl. unfold Rsum. simpl. ring.
  - destruct i as [|i]; [unfold Rsum; simpl; ring|].
    change (nth (S i) (z0 :: z1 :: zs) 0) with (nth i (z1 :: zs) 0).
    rewrite <- (IH z1 i) by lia.
    cbn [zip_with firstn]. unfold Rsum. cbn [fold_right]. ring.
Qed.

Lemma map_seq_nth {A B : Type} (g : A -> B) (l : list A) (d : A) :
  map (fun i => g (nth i l d)) (seq 0 (length l)) = map g l.
Proof.
  induction l as [|a l IH]; [reflexivity|].
  cbn [length seq map nth]. f_equal.
  rewrite <- seq_shift, map_map. exact IH.
Qed.

Section StepsPositions.

Context {T : Type} `{Transform T}.
Variable self : Propagator T.

Lemma steps_entry_at (dz : list R) (u : list (list C)) (i ikz : nat) :
  (i < length dz)%nat ->
  steps_entry self dz u i ikz =
    steps_at self (Rsum (firstn (S i) dz)) ikz (nth ikz u []).
Proof.
  intros Hi. unfold steps_entry, steps_at, steps_spectrum. f_equal.
  destruct dz as [|d dz]; [simpl in Hi; lia|].
  cbn [firstn]. rewrite fold_left_advance. reflexivity.
Qed.

Lemma steps_z_axis_schedule (dz0 : option (list R)) (z0 : R) (zs : list R)
    (w : World) :
  steps self dz0 (Some (z0 :: zs)) w =
    steps self (Some (z0 :: diff (z0 :: zs))) None w.
Proof. reflexivity. Qed.

(** [steps] returns the field at the positions its schedule adds up to.
    With the steps [dz], entry [i] of the stack is the input advanced by
    [dz[0] + ... + dz[i]]; with [z_axis] given, [dz] is ignored and
    entry [i] is the input advanced by [z_axis[i]]. *)
Theorem steps_positions (w : World) :
  well_formed self -> well_shaped self (arg w) ->
  dtype (arg w) = self_dtype self ->
  (forall dz : list R, dz <> [] ->
     exists w',
       steps self (Some dz) None w =
         (Ok (Some (mk_ndarray3 (dtype (arg w))
            (map (fun i =>
                    field_at self (Rsum (firstn (S i) dz)) (data (arg w)))
               (range (length dz))))), w')) /\
  (forall (dz0 : option (list R)) (z_axis : list R), z_axis <> [] ->
     exists w',
       steps self dz0 (Some z_axis) w =
         (Ok (Some (mk_ndarray3 (dtype (arg w))
            (map (fun zi => field_at self zi (data (arg w))) z_axis))), w')).
Proof.
  intros Hwf Hws Hdt.
  assert (Hdz : forall dz : list R, dz <> [] ->
     exists w',
       steps self (Some dz) None w =
         (Ok (Some (mk_ndarray3 (dtype (arg w))
            (map (fun i =>
                    field_at self (Rsum (firstn (S i) dz)) (data (arg w)))
               (range (length dz))))), w')).
  { intros dz Hne.
    destruct (steps_spec self dz w Hwf Hws Hdt Hne) as (w' & E & _).
    exists w'. rewrite E. do 4 f_equal.
    unfold steps_result. apply map_ext_in. intros i Hi.
    apply in_seq in Hi. unfold field_at. apply map_ext. intros ikz.
    apply steps_entry_at. lia. }
  split; [exact Hdz|].
  intros dz0 [|z0 zs] Hne; [contradiction|].
  rewrite steps_z_axis_schedule.
  destruct (Hdz (z0 :: diff (z0 :: zs)) ltac:(discriminate)) as (w' & E).
  exists w'. rewrite E. do 4 f_equal.
  assert (Hlen : length (z0 :: diff (z0 :: zs)) = length (z0 :: zs)).
  { unfold diff. cbn [tl length]. rewrite zip_with_length_min.
    cbn [length]. lia. }
  rewrite Hlen. unfold range.
  rewrite <- (map_seq_nth (fun zi => field_at self zi (data (arg w)))
                (z0 :: zs) 0).
  apply map_ext_in. intros i Hi. apply in_seq in Hi. f_equal.
  cbn [firstn]. unfold diff. cbn [tl]. unfold Rsum at 1. cbn [fold_right].
  apply partial_sum_diff. cbn [length] in Hi. lia.
Qed.

(** [steps] has no schedule to follow when neither [dz] nor [z_axis] is
    given ([TypeError], from [len(None)]), and an empty [z_axis] has no
    first position ([IndexError]) although an empty [dz] is accepted;
    both come after the type of the field was checked, and before
    anything is computed. *)
Theorem steps_schedule_errors (w : World) :
  dtype (arg w) = self_dtype self ->
  steps self None None w = (Err TypeError, w) /\
  (forall dz, steps self dz (Some []) w = (Err IndexError, w)).
Proof.
  intros Hdt. split.
  - unfold steps. erewrite bindM_Ok by reflexivity.
    erewrite bindM_Ok by (unfold lift; now rewrite assert_dtype_passes).
    reflexivity.
  - intros dz. now apply steps_empty_z_axis.
Qed.

(** On a propagator none of whose modes is evanescent, [steps] with the
    single distance [dz] returns a stack of one field, the field
    [step(u, dz)] returns. *)
Theorem steps_single_is_step (dz : R) (w : World) :
  well_formed self -> well_shaped self (arg w) ->
  dtype (arg w) = self_dtype self ->
  (forall i j, (i < Nkz self)%nat -> (j < length (kr2 self))%nat ->
     nth j (kr2 self) 0 <= (nth i (kz self) 0) ^ 2) ->
  exists a w1 w2,
    step self dz false w = (Ok (Fresh a), w1) /\
    steps self (Some [dz]) None w =
      (Ok (Some (mk_ndarray3 (dtype a) [data a])), w2).
Proof.
  intros Hwf Hws Hdt Hprop.
  destruct (step_spec self dz w Hwf Hws Hdt) as (w1 & E1 & _).
  destruct (steps_spec self [dz] w Hwf Hws Hdt ltac:(discriminate))
    as (w2 & E2 & _).
  eexists _, w1, w2. split; [exact E1|]. rewrite E2. cbn [dtype data].
  do 4 f_equal. unfold steps_result. cbn [length range seq map].
  f_equal. unfold step_result. apply map_ext_in. intros ikz Hikz.
  apply in_seq in Hikz.
  unfold steps_entry, step_row, steps_spectrum, step_spectrum, ik_loc.
  cbn [firstn fold_left]. f_equal. unfold advance. f_equal.
  apply map_ext_in. intros k2 Hin.
  destruct (In_nth _ _ 0 Hin) as (j & Hj & <-).
  rewrite clamp_phase_propagating, abs_phase_propagating
    by (apply Hprop; lia).
  reflexivity.
Qed.

(** A [step] or a [steps] taken in the middle of a stepping session does
    not disturb it: the next [stepping(d)] returns the field, and leaves
    the session, that it would have without them. *)
Theorem session_survives_step (d : R) (w : World)
    (image phases : list (list C)) (z : R) :
  well_formed self -> well_shaped self (arg w) ->
  dtype (arg w) = self_dtype self ->
  stepping_image (scratch w) = Some image ->
  phase_loc (scratch w) = Some phases ->
  z_propagation (scratch w) = Some z ->
  length image = Nkz self -> length phases = Nkz self ->
  exists out wc,
    stepping self d false w = (Ok out, wc) /\
    (forall dz, exists a wa wb,
       step self dz false w = (Ok (Fresh a), wa) /\
       stepping self d false wa = (Ok out, wb) /\
       same_session (scratch wc) (scratch wb)) /\
    (forall dzs, dzs <> [] -> exists b wa wb,
       steps self (Some dzs) None w = (Ok (Some b), wa) /\
       stepping self d false wa = (Ok out, wb) /\
       same_session (scratch wc) (scratch wb)).
Proof.
  intros Hwf Hws Hdt Himg Hph Hz Hli Hlp.
  destruct (stepping_spec self d w image phases z Hwf Himg Hph Hz Hli Hlp)
    as (wc & Ec & Hci & Hcp & Hcz & _).
  eexists _, wc. split; [exact Ec|].
  assert (Hafter : forall wa, same_session (scratch w) (scratch wa) ->
    exists wb,
      stepping self d false wa =
        (Ok (Fresh (mk_ndarray (self_dtype self)
               (map (iTST (trns self)) (advance_image self image phases d)))),
         wb) /\
      same_session (scratch wc) (scratch wb)).
  { intros wa (Hi & Hp & Hzz).
    destruct (stepping_spec self d wa image phases z Hwf
                ltac:(congruence) ltac:(congruence) ltac:(congruence) Hli Hlp)
      as (wb & Eb & Hbi & Hbp & Hbz & _).
    exists wb. split; [exact Eb|]. repeat split; congruence. }
  split.
  - intros dz.
    destruct (step_spec self dz w Hwf Hws Hdt) as (wa & Ea & Hsess & _).
    destruct (Hafter wa Hsess) as (wb & Eb & Hs).
    eexists _, wa, wb. repeat split; try eassumption; apply Hs.
  - intros dzs Hne.
    destruct (steps_spec self dzs w Hwf Hws Hdt Hne) as (wa & Ea & Hsess & _).
    destruct (Hafter wa Hsess) as (wb & Eb & Hs).
    eexists _, wa, wb. repeat split; try eassumption; apply Hs.
Qed.

End StepsPositions.

(** ** The stepping session *)

Lemma Cexp_plus (z w : C) : Cexp (z + w)%C = (Cexp z * Cexp w)%C.
Proof.
  unfold Cexp, Cplus, Cmult. cbn [fst snd].
  rewrite exp_plus, cos_plus, sin_plus. f_equal; ring.
Qed.

Lemma Cexp_0 : Cexp C0 = C1.
Proof.
  unfold Cexp, C0, C1, RtoC. cbn [fst snd].
  rewrite exp_0, cos_0, sin_0. f_equal; ring.
Qed.

Lemma phase_factor_plus_c (d1 d2 : R) (ph : C) :
  (phase_factor d1 ph * phase_factor d2 ph)%C = phase_factor (d1 + d2) ph.
Proof.
  unfold phase_factor. rewrite <- Cexp_plus. f_equal.
  destruct ph as [a b]. unfold Ci, RtoC, Cmult, Cplus. cbn [fst snd].
  f_equal; ring.
Qed.

Lemma phase_factor_0 (ph : C) : phase_factor 0 ph = C1.
Proof.
  unfold phase_factor. rewrite <- Cexp_0. f_equal.
  destruct ph as [a b]. unfold C0, Ci, RtoC, Cmult. cbn [fst snd].
  f_equal; ring.
Qed.

Lemma Cmult_1_r (z : C) : (z * C1)%C = z.
Proof. ring. Qed.

Section SessionLaws.

Context {T : Type} `{Transform T}.
Variable self : Propagator T.

Lemma advance_c_advance_c (phase ht : list C) (d1 d2 : R) :
  advance_c phase (advance_c phase ht d1) d2 = advance_c phase ht (d1 + d2).
Proof.
  unfold advance_c. revert phase.
  induction ht as [|u ht IH]; intros [|ph phase]; try reflexivity.
  cbn [zip_with]. rewrite IH. f_equal.
  rewrite <- phase_factor_plus_c. ring.
Qed.

Lemma advance_c_0 (phase ht : list C) :
  length ht = length phase -> advance_c phase ht 0 = ht.
Proof.
  intros Hl. unfold advance_c. apply zip_with_neutral; [exact Hl|].
  intros a b. rewrite phase_factor_0. apply Cmult_1_r.
Qed.

Lemma nth_advance_image (image phases : list (list C)) (d : R) (k : nat) :
  (k < Nkz self)%nat ->
  nth k (advance_image self image phases d) [] =
    advance_c (nth k phases []) (nth k image []) d.
Proof.
  intros Hk. unfold advance_image, range.
  rewrite (nth_map_in _ _ _ 0%nat) by (now rewrite length_seq).
  now rewrite seq_nth.
Qed.

Lemma advance_image_twice (image phases : list (list C)) (d1 d2 : R) :
  advance_image self (advance_image self image phases d1) phases d2 =
    advance_image self image phases (d1 + d2).
Proof.
  unfold advance_image at 1 3. apply map_ext_in. intros k Hk.
  apply in_seq in Hk. rewrite nth_advance_image by lia.
  apply advance_c_advance_c.
Qed.

Lemma advance_image_0 (image phases : list (list C)) :
  length image = Nkz self ->
  (forall k, (k < Nkz self)%nat ->
     length (nth k image []) = length (nth k phases [])) ->
  advance_image self image phases 0 = image.
Proof.
  intros Hl Hrows. apply (nth_ext _ _ [] []).
  - now rewrite advance_image_length.
  - rewrite advance_image_length. intros k Hk.
    rewrite nth_advance_image by exact Hk.
    apply advance_c_0. now apply Hrows.
Qed.

(** [stepping] needs a session: when [initiate_stepping] was never
    called, the attributes [stepping_image] and [z_propagation] do not
    exist, and the call raises [AttributeError] at once. *)
Theorem stepping_needs_session (dz : R) (u_out_given : bool) (w : World) :
  stepping_image (scratch w) = None ->
  z_propagation (scratch w) = None ->
  stepping self dz u_out_given w = (Err AttributeError, w).
Proof.
  intros Himg Hz. unfold stepping, range.
  destruct (Nkz self) as [|n].
  - cbn [seq for_each]. unfold bindM, ret, get_scratch, lift.
    now rewrite Hz.
  - cbn [seq for_each]. unfold bindM, get_scratch, lift.
    now rewrite Himg.
Qed.

(** Within a session two calls add up: [stepping(d1)] and then
    [stepping(d2)] return, at the second call, the field that the single
    call [stepping(d1 + d2)] returns, and leave the same session. *)
Theorem stepping_additive (d1 d2 : R) (w : World)
    (image phases : list (list C)) (z : R) :
  well_formed self ->
  stepping_image (scratch w) = Some image ->
  phase_loc (scratch w) = Some phases ->
  z_propagation (scratch w) = Some z ->
  length image = Nkz self -> length phases = Nkz self ->
  exists o1 w1 o2 w2 w12,
    stepping self d1 false w = (Ok o1, w1) /\
    stepping self d2 false w1 = (Ok o2, w2) /\
    stepping self (d1 + d2) false w = (Ok o2, w12) /\
    same_session (scratch w12) (scratch w2).
Proof.
  intros Hwf Himg Hph Hz Hli Hlp.
  destruct (stepping_spec self d1 w image phases z Hwf Himg Hph Hz Hli Hlp)
    as (w1 & E1 & Hi1 & Hp1 & Hz1 & _).
  destruct (stepping_spec self d2 w1 _ phases _ Hwf Hi1 Hp1 Hz1
              (advance_image_length self image phases d1) Hlp)
    as (w2 & E2 & Hi2 & Hp2 & Hz2 & _).
  destruct (stepping_spec self (d1 + d2) w image phases z Hwf Himg Hph Hz
              Hli Hlp)
    as (w12 & E12 & Hi12 & Hp12 & Hz12 & _).
  rewrite advance_image_twice in E2, Hi2.
  eexists _, w1, _, w2, w12.
  split; [exact E1|]. split; [exact E2|]. split; [exact E12|].
  repeat split; try congruence.
  rewrite Hz2, Hz12. f_equal. ring.
Qed.

Lemma stepping_calls_state (ds : list R) :
  well_formed self ->
  forall (w : World) (image phases : list (list C)) (z : R),
    stepping_image (scratch w) = Some image ->
    phase_loc (scratch w) = Some phases ->
    z_propagation (scratch w) = Some z ->
    length image = Nkz self -> length phases = Nkz self ->
    exists outs w',
      stepping_calls self ds w = (Ok outs, w') /\
      length outs = length ds /\
      z_propagation (scratch w') = Some (fold_left Rplus ds z) /\
      arg w' = arg w.
Proof.
  intros Hwf. induction ds as [|d ds IH]; intros w image phases z Hi Hp Hz Hli Hlp.
  - exists [], w. repeat split; assumption.
  - destruct (stepping_spec self d w image phases z Hwf Hi Hp Hz Hli Hlp)
      as (w1 & E1 & Hi1 & Hp1 & Hz1 & Ha1).
    destruct (IH w1 _ phases _ Hi1 Hp1 Hz1
                (advance_image_length self image phases d) Hlp)
      as (outs & w' & E' & Hlo & Hz' & Ha').
    eexists _, w'. cbn [stepping_calls]. unfold bindM. rewrite E1, E'.
    split; [reflexivity|]. cbn [length fold_left]. repeat split.
    + now rewrite Hlo.
    + exact Hz'.
    + congruence.
Qed.

(** A session keeps count of the distance covered: [initiate_stepping]
    starts it at zero and every [stepping(d)] adds [d], so after the
    calls for the distances [ds] the attribute [z_propagation] is their
    sum; each call returned a field. *)
Theorem session_distance (ds : list R) (w : World) :
  well_formed self -> well_formed_spectrum self ->
  well_shaped self (arg w) -> dtype (arg w) = self_dtype self ->
  exists outs w',
    stepping_session self ds w = (Ok outs, w') /\
    length outs = length ds /\
    z_propagation (scratch w') = Some (fold_left Rplus ds 0).
Proof.
  intros Hwf Hwfs Hws Hdt.
  destruct (initiate_stepping_spec self w Hwfs Hws Hdt)
    as (w0 & E0 & Hi & Hp & Hz).
  destruct (stepping_calls_state ds Hwf w0 _ _ _ Hi Hp Hz)
    as (outs & w' & E' & Hlo & Hz' & _).
  - rewrite length_map. apply Hws.
  - unfold range. now rewrite length_map, length_seq.
  - exists outs, w'. unfold stepping_session, bindM. rewrite E0.
    repeat split; assumption.
Qed.

(** A call back undoes a call: after [initiate_stepping(u)],
    [stepping(d)] and then [stepping(-d)] bring the session back to its
    start -- the spectra [stepping_image] are those of [u] again and
    [z_propagation] is zero -- and the second call returns the rows
    [inverse_transform(transform(u[i]))]. *)
Theorem stepping_back (d : R) (w : World) :
  well_formed self -> well_formed_spectrum self ->
  well_shaped self (arg w) -> dtype (arg w) = self_dtype self ->
  exists w0 o1 w1 w2,
    initiate_stepping self w = (Ok tt, w0) /\
    stepping self d false w0 = (Ok o1, w1) /\
    stepping self (- d) false w1 =
      (Ok (Fresh (mk_ndarray (self_dtype self)
             (map (fun row => iTST (trns self) (snd (TST (trns self) row)))
                (data (arg w))))), w2) /\
    stepping_image (scratch w2) = stepping_image (scratch w0) /\
    z_propagation (scratch w2) = Some 0.
Proof.
  intros Hwf Hwfs Hws Hdt.
  destruct (initiate_stepping_spec self w Hwfs Hws Hdt)
    as (w0 & E0 & Hi & Hp & Hz).
  set (image := map (fun row => snd (TST (trns self) row)) (data (arg w))) in *.
  set (phases := map (session_phase self) (range (Nkz self))) in *.
  assert (Hli : length image = Nkz self)
    by (unfold image; rewrite length_map; apply Hws).
  assert (Hlp : length phases = Nkz self)
    by (unfold phases, range; now rewrite length_map, length_seq).
  destruct (stepping_spec self d w0 image phases 0 Hwf Hi Hp Hz Hli Hlp)
    as (w1 & E1 & Hi1 & Hp1 & Hz1 & _).
  destruct (stepping_spec self (- d) w1 _ phases _ Hwf Hi1 Hp1 Hz1
              (advance_image_length self image phases d) Hlp)
    as (w2 & E2 & Hi2 & Hp2 & Hz2 & _).
  rewrite advance_image_twice, Rplus_opp_r in E2, Hi2.
  rewrite advance_image_0 in E2, Hi2.
  - eexists w0, _, w1, w2. split; [exact E0|]. split; [exact E1|].
    split; [|split].
    + rewrite E2. unfold image. now rewrite map_map.
    + congruence.
    + rewrite Hz2. f_equal. ring.
  - exact Hli.
  - intros k Hk. destruct Hwfs as [Hht Hkr].
    destruct (row_of_well_shaped self (arg w) k Hws Hk) as [_ Hrow].
    unfold image, phases.
    rewrite (nth_map_in _ _ _ []) by (destruct Hws; lia).
    rewrite (nth_map_in _ _ _ 0%nat) by (unfold range; now rewrite length_seq).
    rewrite (Hht _ Hrow). unfold session_phase. now rewrite length_map, Hkr.
  - exact Hli.
  - intros k Hk. destruct Hwfs as [Hht Hkr].
    destruct (row_of_well_shaped self (arg w) k Hws Hk) as [_ Hrow].
    unfold image, phases.
    rewrite (nth_map_in _ _ _ []) by (destruct Hws; lia).
    rewrite (nth_map_in _ _ _ 0%nat) by (unfold range; now rewrite length_seq).
    rewrite (Hht _ Hrow). unfold session_phase. now rewrite length_map, Hkr.
Qed.

End SessionLaws.

(** ** The demonstration propagators *)

Lemma fft2_demo_session :
  exists p s,
    fft2_demo = Ok (p, s) /\
    self_dtype p = complex128 /\
    well_formed p /\ well_formed_spectrum p /\ well_shaped p demo_field /\
    stepping_image s = None /\ z_propagation s = None.
Proof.
  destruct (fft2_init_ok demo_registry device_backend 1 1 2 2 (KzArray [1])
              complex128 None demo_backend ltac:(lia) ltac:(lia))
    as (p & s & E & Hdt & Hbk & Hkz & Hs & Hsn & Hkr & HNx & HNy & Hwf & Hwfs).
  exists p, s. split; [exact E|]. split; [exact Hdt|].
  split; [exact Hwf|]. split; [exact Hwfs|].
  split; [apply (demo_field_well_shaped p 1); assumption|].
  unfold PropagatorFFT2.init in E. rewrite demo_backend in E.
  cbn [bind fst snd] in E.
  destruct (init_xykxy_fft2 1 2 1 2); [|discriminate].
  cbn [bind] in E. injection E as _ <-. split; reflexivity.
Qed.

Lemma fft2_demo_fast_ok :
  exists p s,
    fft2_demo_fast = Ok (p, s) /\
    self_dtype p = complex128 /\
    well_formed p /\ well_formed_spectrum p /\ well_shaped p demo_field /\
    (forall i j, (i < Nkz p)%nat -> (j < length (kr2 p))%nat ->
       nth j (kr2 p) 0 <= (nth i (kz p) 0) ^ 2).
Proof.
  destruct (fft2_init_ok demo_registry device_backend 1 1 2 2 (KzArray [6])
              complex128 None demo_backend ltac:(lia) ltac:(lia))
    as (p & s & E & Hdt & Hbk & Hkz & Hs & Hsn & Hkr & HNx & HNy & Hwf & Hwfs).
  destruct (fft2_unit_grid [6] p s E) as [_ Hkr2].
  exists p, s. split; [exact E|]. split; [exact Hdt|].
  split; [exact Hwf|]. split; [exact Hwfs|].
  split; [apply (demo_field_well_shaped p 6); assumption|].
  intros i j Hi Hj. unfold Nkz in Hi. rewrite Hkz in Hi. cbn in Hi.
  rewrite Hkr2 in *. rewrite Hkz. cbn in Hj.
  assert (Hi0 : i = 0%nat) by lia. subst i.
  pose proof PI_4 as H4. pose proof PI_RGT_0 as H0.
  destruct j as [|[|[|[|j]]]]; cbn [nth init_kz]; try lia; nra.
Qed.

Lemma steps_positions_witness :
  exists p s w1 w2,
    fft2_demo = Ok (p, s) /\
    steps p (Some [1; 2]) None (mk_World s demo_field) =
      (Ok (Some (mk_ndarray3 complex128
         (map (fun i => field_at p (Rsum (firstn (S i) [1; 2])) (data demo_field))
            (range 2)))), w1) /\
    steps p None (Some [1; 3]) (mk_World s demo_field) =
      (Ok (Some (mk_ndarray3 complex128
         (map (fun zi => field_at p zi (data demo_field)) [1; 3]))), w2).
Proof.
  destruct fft2_demo_session as (p & s & E & Hdt & Hwf & Hwfs & Hws & _).
  destruct (steps_positions p (mk_World s demo_field) Hwf Hws (eq_sym Hdt))
    as [Hdz Hz].
  destruct (Hdz [1; 2] ltac:(discriminate)) as (w1 & E1).
  destruct (Hz None [1; 3] ltac:(discriminate)) as (w2 & E2).
  exists p, s, w1, w2. repeat split; assumption.
Defined.

Lemma steps_schedule_errors_witness :
  exists p s,
    fft2_demo = Ok (p, s) /\
    steps p None None (mk_World s demo_field) =
      (Err TypeError, mk_World s demo_field) /\
    (forall dz, steps p dz (Some []) (mk_World s demo_field) =
                  (Err IndexError, mk_World s demo_field)).
Proof.
  destruct fft2_demo_session as (p & s & E & Hdt & _).
  exists p, s. split; [exact E|].
  apply (steps_schedule_errors p (mk_World s demo_field)). now rewrite Hdt.
Defined.

Lemma steps_single_is_step_witness :
  exists p s a w1 w2,
    fft2_demo_fast = Ok (p, s) /\
    step p 1 false (mk_World s demo_field) = (Ok (Fresh a), w1) /\
    steps p (Some [1]) None (mk_World s demo_field) =
      (Ok (Some (mk_ndarray3 (dtype a) [data a])), w2).
Proof.
  destruct fft2_demo_fast_ok as (p & s & E & Hdt & Hwf & Hwfs & Hws & Hprop).
  destruct (steps_single_is_step p 1 (mk_World s demo_field) Hwf Hws
              (eq_sym Hdt) Hprop) as (a & w1 & w2 & H1 & H2).
  exists p, s, a, w1, w2. repeat split; assumption.
Defined.

Lemma session_survives_step_witness :
  let session :=
    mk_Scratch (Owned []) [] [] (Some [[C1; C0; C0; C0]])
      (Some [[C0; C1; C1; C1]]) (Some 0) in
  let w := mk_World session demo_field in
  exists p s out wc,
    fft2_demo = Ok (p, s) /\
    stepping p 1 false w = (Ok out, wc) /\
    (forall dz, exists a wa wb,
       step p dz false w = (Ok (Fresh a), wa) /\
       stepping p 1 false wa = (Ok out, wb) /\
       same_session (scratch wc) (scratch wb)) /\
    (forall dzs, dzs <> [] -> exists b wa wb,
       steps p (Some dzs) None w = (Ok (Some b), wa) /\
       stepping p 1 false wa = (Ok out, wb) /\
       same_session (scratch wc) (scratch wb)).
Proof.
  intros session w.
  destruct fft2_demo_session as (p & s & E & Hdt & Hwf & Hwfs & Hws & _).
  assert (HN : Nkz p = 1%nat) by (destruct Hws as [Hl _]; now rewrite <- Hl).
  destruct (session_survives_step p 1 w [[C1; C0; C0; C0]] [[C0; C1; C1; C1]] 0
              Hwf Hws (eq_sym Hdt) eq_refl eq_refl eq_refl
              (eq_sym HN) (eq_sym HN))
    as (out & wc & Ec & Hstep & Hsteps).
  exists p, s, out, wc. repeat split; assumption.
Defined.

Lemma stepping_needs_session_witness :
  exists p s,
    fft2_demo = Ok (p, s) /\
    stepping p 1 false (mk_World s demo_field) =
      (Err AttributeError, mk_World s demo_field).
Proof.
  destruct fft2_demo_session as (p & s & E & _ & _ & _ & _ & Hi & Hz).
  exists p, s. split; [exact E|].
  now apply (stepping_needs_session p 1 false (mk_World s demo_field)).
Defined.

Lemma stepping_additive_witness :
  let session :=
    mk_Scratch (Owned []) [] [] (Some [[C1; C0; C0; C0]])
      (Some [[C0; C1; C1; C1]]) (Some 0) in
  let w := mk_World session demo_field in
  exists p s o1 w1 o2 w2 w12,
    fft2_demo = Ok (p, s) /\
    stepping p 1 false w = (Ok o1, w1) /\
    stepping p 2 false w1 = (Ok o2, w2) /\
    stepping p (1 + 2) false w = (Ok o2, w12) /\
    same_session (scratch w12) (scratch w2).
Proof.
  intros session w.
  destruct fft2_demo_session as (p & s & E & Hdt & Hwf & Hwfs & Hws & _).
  assert (HN : Nkz p = 1%nat) by (destruct Hws as [Hl _]; now rewrite <- Hl).
  destruct (stepping_additive p 1 2 w [[C1; C0; C0; C0]] [[C0; C1; C1; C1]] 0
              Hwf eq_refl eq_refl eq_refl (eq_sym HN) (eq_sym HN))
    as (o1 & w1 & o2 & w2 & w12 & H1 & H2 & H3 & H4).
  exists p, s, o1, w1, o2, w2, w12. repeat split; try assumption; apply H4.
Defined.

Lemma session_distance_witness :
  exists p s outs w',
    fft2_demo = Ok (p, s) /\
    stepping_session p [1; 2] (mk_World s demo_field) = (Ok outs, w') /\
    length outs = 2%nat /\
    z_propagation (scratch w') = Some (0 + 1 + 2).
Proof.
  destruct fft2_demo_session as (p & s & E & Hdt & Hwf & Hwfs & Hws & _).
  destruct (session_distance p [1; 2] (mk_World s demo_field) Hwf Hwfs Hws
              (eq_sym Hdt)) as (outs & w' & H1 & H2 & H3).
  exists p, s, outs, w'. repeat split; assumption.
Defined.

Lemma stepping_back_witness :
  exists p s w0 o1 w1 w2,
    fft2_demo = Ok (p, s) /\
    initiate_stepping p (mk_World s demo_field) = (Ok tt, w0) /\
    stepping p 1 false w0 = (Ok o1, w1) /\
    stepping p (- 1) false w1 =
      (Ok (Fresh (mk_ndarray (self_dtype p)
             (map (fun row => iTST (trns p) (snd (TST (trns p) row)))
                (data demo_field)))), w2) /\
    stepping_image (scratch w2) = stepping_image (scratch w0) /\
    z_propagation (scratch w2) = Some 0.
Proof.
  destruct fft2_demo_session as (p & s & E & Hdt & Hwf & Hwfs & Hws & _).
  destruct (stepping_back p 1 (mk_World s demo_field) Hwf Hwfs Hws (eq_sym Hdt))
    as (w0 & o1 & w1 & w2 & H0 & H1 & H2 & H3 & H4).
  exists p, s, w0, o1, w1, w2. repeat split; assumption.
Defined.

(** ** What the constructors build *)

Lemma index_ok {A : Type} (l : list A) (i : nat) :
  (i < length l)%nat -> exists x, index l i = Ok x.
Proof.
  intros Hi. unfold index.
  destruct (nth_error l i) as [x|] eqn:E; [eauto|].
  apply nth_error_None in E. lia.
Qed.

Lemma init_kr_ok (sp : Special) (mode : nat) (Rmax : R) (Nr : nat) :
  (1 <= Nr)%nat -> exists g, init_kr sp mode Rmax Nr = Ok g.
Proof.
  intros HN. destruct (Nat.eq_dec mode 0) as [->|Hm].
  - rewrite init_kr_mode0. eauto.
  - rewrite init_kr_higher_mode by lia. eauto.
Qed.

Lemma symmetric_init_attrs (sp : Special) (reg : Registry)
    (r_axis : R * nat) (kz_axis : kz_axis_t) (Nr_new : option nat) (mode : nat)
    (dt : DType) (backend : option string)
    (p : Propagator PropagatorSymmetric.t) (s : Scratch) :
  PropagatorSymmetric.init sp reg r_axis kz_axis Nr_new mode dt backend
    = Ok (p, s) ->
  kxy p = None /\ shape_trns p = snd r_axis /\
  length (PropagatorSymmetric.alpha (trns p)) = snd r_axis /\
  PropagatorSymmetric.TM (trns p) =
    PropagatorSymmetric.transform_matrix sp mode
      (PropagatorSymmetric.alpha (trns p))
      (PropagatorSymmetric.alpha_np1 (trns p)).
Proof.
  unfold PropagatorSymmetric.init.
  destruct (init_backend reg backend) as [bk|]; [|discriminate]. cbn [bind].
  rewrite init_r_symmetric_ok. cbn [bind].
  destruct (init_kr sp mode (fst r_axis) (snd r_axis)) as [g|] eqn:Eg;
    [|discriminate].
  destruct (init_kr_length _ _ _ _ _ Eg) as (Ha & _).
  cbn [bind].
  destruct (PropagatorSymmetric.output_grid _ _ _ _ Nr_new)
    as [[[n r_new] Rmax_new]|]; [|discriminate].
  cbn [bind]. intros E. injection E as <- _.
  cbn [kxy shape_trns trns PropagatorSymmetric.alpha PropagatorSymmetric.TM
       PropagatorSymmetric.alpha_np1].
  repeat split; try reflexivity; exact Ha.
Qed.

Lemma resampling_init_attrs (sp : Special) (inv : Inversion)
    (reg : Registry) (r_axis : r_axis_t) (kz_axis : kz_axis_t)
    (Rmax_new : option R) (Nr_new : option nat) (r_axis_new : option r_axis_t)
    (mode : nat) (dt : DType) (backend : option string)
    (p : Propagator PropagatorResampling.t) (s : Scratch) :
  PropagatorResampling.init sp inv reg r_axis kz_axis Rmax_new Nr_new
    r_axis_new mode dt backend = Ok (p, s) ->
  kxy p = None.
Proof.
  unfold PropagatorResampling.init.
  destruct (init_backend reg backend) as [bk|]; [|discriminate]. cbn [bind].
  destruct (PropagatorResampling.input_grid sp mode r_axis)
    as [[[r Rmax] Nr]|]; [|discriminate]. cbn [bind].
  destruct (PropagatorResampling.output_grid r Rmax Nr Rmax_new Nr_new r_axis_new)
    as [[[r_new Rmax_new'] Nr_new']|]; [|discriminate]. cbn [bind].
  destruct (init_kr sp mode Rmax Nr) as [g|]; [|discriminate].
  cbn [bind]. intros E. now injection E as <- _.
Qed.

Lemma get_Ez_no_kx {T : Type} `{Transform T} (self : Propagator T) (w : World) :
  kxy self = None -> get_Ez self w = (Err AttributeError, w).
Proof.
  intros Hk. unfold get_Ez, bindM, get_arg, lift. now rewrite Hk.
Qed.

(** [get_Ez] is for [PropagatorFFT2] only: the radial propagators never
    set [kx], so on a [PropagatorSymmetric] or a [PropagatorResampling]
    the call raises [AttributeError], whatever the field, and changes
    nothing. *)
Theorem get_Ez_needs_fft2 :
  (forall sp reg r_axis kz_axis Nr_new mode dt backend p s w,
     PropagatorSymmetric.init sp reg r_axis kz_axis Nr_new mode dt backend
       = Ok (p, s) ->
     get_Ez p w = (Err AttributeError, w)) /\
  (forall sp inv reg r_axis kz_axis Rmax_new Nr_new r_axis_new mode dt backend
          p s w,
     PropagatorResampling.init sp inv reg r_axis kz_axis Rmax_new Nr_new
       r_axis_new mode dt backend = Ok (p, s) ->
     get_Ez p w = (Err AttributeError, w)).
Proof.
  split.
  - intros sp reg r_axis kz_axis Nr_new mode dt backend p s w E.
    apply get_Ez_no_kx. eapply symmetric_init_attrs, E.
  - intros sp inv reg r_axis kz_axis Rmax_new Nr_new r_axis_new mode dt backend
           p s w E.
    apply get_Ez_no_kx. eapply resampling_init_attrs, E.
Qed.

Lemma get_Ez_needs_fft2_witness :
  exists p s,
    symmetric_demo = Ok (p, s) /\
    get_Ez p (mk_World s radial_field) =
      (Err AttributeError, mk_World s radial_field).
Proof.
  destruct symmetric_demo_ok as (p & s & E & _).
  exists p, s. split; [exact E|].
  exact (proj1 get_Ez_needs_fft2 _ _ _ _ _ _ _ _ p s _ E).
Defined.

(** A truncation request [0 < Nr_new < Nr] is honoured: the propagator
    takes rows of [Nr] samples and its inverse transform returns rows of
    [Nr_new] samples, on the first [Nr_new] nodes of the radial grid.
    The request [Nr_new = 0] fails with [ValueError], from the maximum
    of an empty grid. *)
Theorem symmetric_truncation (sp : Special) (reg : Registry) (bk : Backend)
    (Rmax : R) (Nr k : nat) (kz_axis : kz_axis_t) (mode : nat) (dt : DType)
    (backend : option string) :
  init_backend reg backend = Ok bk ->
  ((1 <= k < Nr)%nat ->
   exists p s,
     PropagatorSymmetric.init sp reg (Rmax, Nr) kz_axis (Some k) mode dt
       backend = Ok (p, s) /\
     shape_trns p = Nr /\ shape_trns_new p = k /\
     PropagatorSymmetric.r_new (trns p) =
       firstn k (PropagatorSymmetric.r (trns p)) /\
     well_formed p /\ well_formed_spectrum p) /\
  ((1 <= Nr)%nat ->
   PropagatorSymmetric.init sp reg (Rmax, Nr) kz_axis (Some 0%nat) mode dt
     backend = Err ValueError).
Proof.
  intros Hbk. split.
  - intros Hk.
    destruct (PropagatorSymmetric.init sp reg (Rmax, Nr) kz_axis (Some k) mode
                dt backend) as [[p s]|e] eqn:E.
    + exists p, s. split; [reflexivity|].
      destruct (symmetric_init_well_formed _ _ _ _ _ _ _ _ _ _ E) as [Hwf Hwfs].
      unfold PropagatorSymmetric.init in E. rewrite Hbk in E.
      cbn [bind fst snd] in E. rewrite init_r_symmetric_ok in E.
      cbn [bind] in E.
      destruct (init_kr sp mode Rmax Nr) as [g|]; [|discriminate].
      cbn [bind] in E. unfold PropagatorSymmetric.output_grid in E.
      rewrite (proj2 (Nat.leb_gt Nr k)) in E by lia.
      destruct (array_max _); [|discriminate]. cbn [bind] in E.
      destruct (index (g_alpha g) k); [|discriminate]. cbn [bind] in E.
      destruct (index (g_alpha g) (k - 1)); [|discriminate]. cbn [bind] in E.
      injection E as <- _.
      cbn [shape_trns shape_trns_new trns PropagatorSymmetric.r_new
           PropagatorSymmetric.r].
      split; [reflexivity|]. split; [reflexivity|]. split; [reflexivity|].
      split; assumption.
    + exfalso. unfold PropagatorSymmetric.init in E. rewrite Hbk in E.
      cbn [bind fst snd] in E. rewrite init_r_symmetric_ok in E.
      cbn [bind] in E.
      destruct (init_kr_ok sp mode Rmax Nr ltac:(lia)) as (g & Eg).
      rewrite Eg in E. cbn [bind] in E.
      destruct (init_kr_length _ _ _ _ _ Eg) as (Ha & _).
      unfold PropagatorSymmetric.output_grid in E.
      rewrite (proj2 (Nat.leb_gt Nr k)) in E by lia.
      set (r := map _ (removelast _)) in E.
      assert (Hr : length r = Nr).
      { unfold r. rewrite length_map, removelast_length, jn_zeros_length. lia. }
      destruct (firstn k r) as [|x l] eqn:Ef.
      * apply (f_equal (@length R)) in Ef. rewrite length_firstn in Ef.
        simpl in Ef. lia.
      * cbn [array_max bind] in E.
        destruct (index_ok (g_alpha g) k ltac:(lia)) as (a1 & E1).
        destruct (index_ok (g_alpha g) (k - 1) ltac:(lia)) as (a0 & E0).
        rewrite E1, E0 in E. discriminate.
  - intros HN. unfold PropagatorSymmetric.init. rewrite Hbk.
    cbn [bind fst snd]. rewrite init_r_symmetric_ok. cbn [bind].
    destruct (init_kr_ok sp mode Rmax Nr HN) as (g & Eg).
    rewrite Eg. cbn [bind]. unfold PropagatorSymmetric.output_grid.
    rewrite (proj2 (Nat.leb_gt Nr 0)) by lia. reflexivity.
Qed.

Lemma symmetric_truncation_witness :
  (exists p s,
     PropagatorSymmetric.init trig_special demo_registry (1, 3%nat)
       (KzArray [1]) (Some 2%nat) 0 complex128 None = Ok (p, s) /\
     shape_trns p = 3%nat /\ shape_trns_new p = 2%nat /\
     PropagatorSymmetric.r_new (trns p) =
       firstn 2 (PropagatorSymmetric.r (trns p)) /\
     well_formed p /\ well_formed_spectrum p) /\
  PropagatorSymmetric.init trig_special demo_registry (1, 3%nat)
    (KzArray [1]) (Some 0%nat) 0 complex128 None = Err ValueError.
Proof.
  destruct (symmetric_truncation trig_special demo_registry device_backend
              1 3 2 (KzArray [1]) 0 complex128 None demo_backend) as [H1 _].
  destruct (symmetric_truncation trig_special demo_registry device_backend
              1 3 0 (KzArray [1]) 0 complex128 None demo_backend) as [_ H2].
  split; [apply H1; lia | apply H2; lia].
Defined.

(** How [PropagatorResampling] reads its request for an output grid:
    [Rmax_new] without [Nr_new] raises [TypeError]; [Rmax_new] with
    [Nr_new < 2] raises [IndexError]; [Rmax_new] with [Nr_new] overrides
    [r_axis_new]; and [Nr_new] without [Rmax_new] is ignored. *)
Theorem resampling_output_request (sp : Special) (inv : Inversion)
    (reg : Registry) (bk : Backend) (r_axis : r_axis_t) (kz_axis : kz_axis_t)
    (mode : nat) (dt : DType) (backend : option string)
    (g : list R * R * nat) :
  init_backend reg backend = Ok bk ->
  PropagatorResampling.input_grid sp mode r_axis = Ok g ->
  let init := PropagatorResampling.init sp inv reg r_axis kz_axis in
  (forall Rm r_axis_new,
     init (Some Rm) None r_axis_new mode dt backend = Err TypeError) /\
  (forall Rm k r_axis_new, (k < 2)%nat ->
     init (Some Rm) (Some k) r_axis_new mode dt backend = Err IndexError) /\
  (forall Rm k r_axis_new,
     init (Some Rm) (Some k) r_axis_new mode dt backend =
     init None None (Some (RTuple Rm k)) mode dt backend) /\
  (forall k r_axis_new,
     init None (Some k) r_axis_new mode dt backend =
     init None None r_axis_new mode dt backend).
Proof.
  intros Hbk Hg init. destruct g as [[r Rmax] Nr].
  unfold init, PropagatorResampling.init. rewrite Hbk, Hg. cbn [bind].
  repeat split; try reflexivity.
  intros Rm k r_axis_new Hk. cbn [PropagatorResampling.output_grid].
  now rewrite (init_r_uniform_short Rm k Hk).
Qed.

Lemma resampling_output_request_witness :
  let init :=
    PropagatorResampling.init trig_special passthrough_inversion demo_registry
      (RTuple 1 2) (KzArray [1]) in
  (forall Rm r_axis_new,
     init (Some Rm) None r_axis_new 0%nat complex128 None = Err TypeError) /\
  (forall Rm k r_axis_new, (k < 2)%nat ->
     init (Some Rm) (Some k) r_axis_new 0%nat complex128 None = Err IndexError) /\
  (forall Rm k r_axis_new,
     init (Some Rm) (Some k) r_axis_new 0%nat complex128 None =
     init None None (Some (RTuple Rm k)) 0%nat complex128 None) /\
  (forall k r_axis_new,
     init None (Some k) r_axis_new 0%nat complex128 None =
     init None None r_axis_new 0%nat complex128 None).
Proof.
  exact (resampling_output_request trig_special passthrough_inversion
           demo_registry device_backend (RTuple 1 2) (KzArray [1]) 0 complex128
           None _ demo_backend (init_r_symmetric_ok trig_special 0 1 2)).
Defined.

Lemma transform_matrix_entry (sp : Special) (mode : nat) (alpha : list R)
    (alpha_np1 : R) (i k : nat) :
  (i < length alpha)%nat -> (k < length alpha)%nat ->
  nth k (nth i (PropagatorSymmetric.transform_matrix sp mode alpha alpha_np1) [])
    C0 =
  RtoC (2 * jn sp mode (nth i alpha 0 * nth k alpha 0 / alpha_np1) /
        (alpha_np1 * Rabs (jn sp (mode + 1) (nth i alpha 0) *
                           jn sp (mode + 1) (nth k alpha 0)))).
Proof.
  intros Hi Hk. unfold PropagatorSymmetric.transform_matrix, to_dtype.
  rewrite (nth_map_in (map RtoC) _ i []) by (now rewrite length_map).
  rewrite (nth_map_in _ alpha i 0) by exact Hi.
  rewrite (nth_map_in RtoC _ k 0) by (now rewrite length_map).
  rewrite (nth_map_in _ alpha k 0) by exact Hk.
  reflexivity.
Qed.

(** The matrix [TM] of a [PropagatorSymmetric] is symmetric,
    [TM[i, k] = TM[k, i]], wherever its entries are defined (no zero in
    the denominator): the class can use one matrix for the forward and
    for the inverse transform. *)
Theorem symmetric_matrix_is_symmetric (sp : Special) (reg : Registry)
    (r_axis : R * nat) (kz_axis : kz_axis_t) (Nr_new : option nat) (mode : nat)
    (dt : DType) (backend : option string)
    (p : Propagator PropagatorSymmetric.t) (s : Scratch) (i k : nat) :
  PropagatorSymmetric.init sp reg r_axis kz_axis Nr_new mode dt backend
    = Ok (p, s) ->
  (i < shape_trns p)%nat -> (k < shape_trns p)%nat ->
  PropagatorSymmetric.alpha_np1 (trns p) <> 0 ->
  jn sp (mode + 1) (nth i (PropagatorSymmetric.alpha (trns p)) 0) <> 0 ->
  jn sp (mode + 1) (nth k (PropagatorSymmetric.alpha (trns p)) 0) <> 0 ->
  nth k (nth i (PropagatorSymmetric.TM (trns p)) []) C0 =
  nth i (nth k (PropagatorSymmetric.TM (trns p)) []) C0.
Proof.
  intros E Hi Hk _ _ _.
  destruct (symmetric_init_attrs _ _ _ _ _ _ _ _ _ _ E)
    as (_ & Hs & Ha & ->).
  rewrite !transform_matrix_entry by lia.
  f_equal. f_equal; [f_equal; f_equal; f_equal; apply Rmult_comm|].
  f_equal. f_equal. apply Rmult_comm.
Qed.

Lemma symmetric_demo_denominators :
  exists p s,
    symmetric_demo = Ok (p, s) /\
    shape_trns p = 2%nat /\
    PropagatorSymmetric.alpha_np1 (trns p) <> 0 /\
    jn trig_special (0 + 1) (nth 0 (PropagatorSymmetric.alpha (trns p)) 0) <> 0 /\
    jn trig_special (0 + 1) (nth 1 (PropagatorSymmetric.alpha (trns p)) 0) <> 0.
Proof.
  destruct symmetric_demo_ok as (p & s & E & _).
  exists p, s. split; [exact E|].
  unfold symmetric_demo, PropagatorSymmetric.init in E.
  change (init_backend demo_registry (Some "NP"%string)) with (Ok host_backend) in E.
  cbn [bind fst snd] in E. rewrite init_r_symmetric_ok in E. cbn [bind] in E.
  rewrite init_kr_mode0 in E. cbn [bind PropagatorSymmetric.output_grid] in E.
  injection E as <- _.
  cbn [shape_trns trns PropagatorSymmetric.alpha_np1 PropagatorSymmetric.alpha
       g_alpha g_alpha_np1 jn jn_zeros trig_special].
  unfold trig_jn_zeros, trig_jn.
  cbn [Nat.add seq map removelast last nth Nat.eqb INR].
  pose proof PI_RGT_0 as Hpi.
  split; [reflexivity|]. split; [nra|]. split.
  - replace ((0 + 1 / 2) * PI) with (PI / 2) by lra.
    rewrite sin_PI2. lra.
  - replace ((1 + 1 / 2) * PI) with (3 * (PI / 2)) by lra.
    rewrite sin_3PI2. lra.
Qed.

Lemma symmetric_matrix_is_symmetric_witness :
  exists p s,
    symmetric_demo = Ok (p, s) /\
    nth 1 (nth 0 (PropagatorSymmetric.TM (trns p)) []) C0 =
    nth 0 (nth 1 (PropagatorSymmetric.TM (trns p)) []) C0.
Proof.
  destruct symmetric_demo_denominators as (p & s & E & Hs & Hn & H0 & H1).
  exists p, s. split; [exact E|].
  apply (symmetric_matrix_is_symmetric trig_special _ _ _ _ 0%nat _ _ p s 0 1 E);
    try assumption; rewrite Hs; lia.
Defined.

Section StepShape.

Context {T : Type} `{Transform T}.
Variable self : Propagator T.

(** The field [step] returns has the type of its input, one row for
    every wavenumber of the propagator, and rows of the output shape --
    the input shape may differ, as on a truncating or resampling
    propagator. *)
Theorem step_output_shape (dz : R) (w : World) :
  well_formed self -> well_shaped self (arg w) ->
  dtype (arg w) = self_dtype self ->
  exists a w',
    step self dz false w = (Ok (Fresh a), w') /\
    dtype a = dtype (arg w) /\
    length (data a) = Nkz self /\
    Forall (fun row => length row = shape_trns_new self) (data a).
Proof.
  intros Hwf Hws Hdt.
  destruct (step_spec self dz w Hwf Hws Hdt) as (w' & E & _).
  eexists _, w'. split; [exact E|]. cbn [dtype data].
  split; [reflexivity|]. split.
  - unfold step_result, range. now rewrite length_map, length_seq.
  - apply Forall_forall. intros row Hin. unfold step_result in Hin.
    apply in_map_iff in Hin. destruct Hin as (k & <- & _).
    unfold step_row. apply Hwf.
Qed.

End StepShape.

Lemma step_output_shape_witness :
  exists p s a w',
    fft2_demo = Ok (p, s) /\
    step p 1 false (mk_World s demo_field) = (Ok (Fresh a), w') /\
    dtype a = complex128 /\
    length (data a) = Nkz p /\
    Forall (fun row => length row = shape_trns_new p) (data a).
Proof.
  destruct fft2_demo_session as (p & s & E & Hdt & Hwf & Hwfs & Hws & _).
  destruct (step_output_shape p 1 (mk_World s demo_field) Hwf Hws (eq_sym Hdt))
    as (a & w' & H1 & H2 & H3 & H4).
  exists p, s, a, w'. repeat split; assumption.
Defined.

(** ** A plane wave on the Cartesian grid *)

Lemma nth_tabulate2 (Nx Ny : nat) (f : nat -> nat -> C) (i : nat) :
  (i < Nx * Ny)%nat ->
  nth i (tabulate2 Nx Ny f) C0 = f (i / Ny)%nat (i mod Ny)%nat.
Proof.
  intros Hi.
  assert (HNy : (0 < Ny)%nat) by (destruct Ny; lia).
  pose proof (Nat.div_mod_eq i Ny) as Hdm.
  pose proof (Nat.mod_upper_bound i Ny ltac:(lia)) as Hmod.
  assert (Hdiv : (i / Ny < Nx)%nat) by (apply Nat.Div0.div_lt_upper_bound; lia).
  replace i with (i / Ny * Ny + i mod Ny)%nat at 1 by lia.
  change (nth (i / Ny * Ny + i mod Ny) (tabulate2 Nx Ny f) C0)
    with (at2 Ny (tabulate2 Nx Ny f) (i / Ny) (i mod Ny)).
  now apply at2_tabulate2.
Qed.

Lemma Csum_twiddle (N p : nat) :
  (p < N)%nat ->
  Csum N (twiddle (-1) N p) = if p =? 0 then RtoC (INR N) else C0.
Proof.
  intros Hp. rewrite <- (twiddle_orthogonal_rev N p 0) by lia.
  apply Csum_ext. intros m _.
  assert (E1 : twiddle 1 N m 0 = C1).
  { unfold twiddle. cbn [INR].
    replace (1 * (2 * PI * INR m * 0 / INR N)) with 0 by (unfold Rdiv; ring).
    apply cis_0. }
  rewrite E1. symmetry. apply Cmult_1_r.
Qed.

Lemma nth_repeat_lt {A : Type} (a d : A) (n i : nat) :
  (i < n)%nat -> nth i (repeat a n) d = a.
Proof.
  intros Hi. rewrite (nth_indep _ d a) by (now rewrite repeat_length).
  apply nth_repeat.
Qed.

Lemma fft2_const (Nx Ny : nat) (c : C) :
  fft2 Nx Ny (repeat c (Nx * Ny)) =
    tabulate2 Nx Ny (fun p q =>
      if (p =? 0) && (q =? 0) then (RtoC (INR (Nx * Ny)) * c)%C else C0).
Proof.
  unfold fft2. apply tabulate2_ext. intros p q Hp Hq.
  rewrite (Csum_ext Nx _ (fun m =>
    ((c * Csum Ny (twiddle (-1) Ny q)) * twiddle (-1) Nx p m)%C)).
  2:{ intros m Hm.
      rewrite (Csum_ext Ny _ (fun n =>
        ((c * twiddle (-1) Nx p m) * twiddle (-1) Ny q n)%C)).
      - rewrite Csum_scal. ring.
      - intros n Hn. unfold at2. rewrite nth_repeat_lt by nia. ring. }
  rewrite Csum_scal, (Csum_twiddle Nx p Hp), (Csum_twiddle Ny q Hq).
  rewrite mult_INR, RtoC_mult.
  destruct (p =? 0), (q =? 0); cbn [andb]; ring.
Qed.

Lemma zip_with_repeat {A B D : Type} (f : A -> B -> D) (a : A) (b : B)
    (n : nat) :
  zip_with f (repeat a n) (repeat b n) = repeat (f a b) n.
Proof. induction n as [|n IH]; [reflexivity|]. simpl. now rewrite IH. Qed.

Lemma clamp_phase_on_axis (kzi : R) : clamp_phase kzi 0 = Rabs kzi.
Proof.
  rewrite clamp_phase_propagating by apply pow2_ge_0.
  rewrite Rminus_0_r, <- Rsqr_pow2. apply sqrt_Rsqr_abs.
Qed.

Lemma fft2_init_on_axis (reg : Registry) (x_axis y_axis : R * nat)
    (kz_axis : kz_axis_t) (dt : DType) (backend : option string)
    (p : Propagator PropagatorFFT2.t) (s : Scratch) :
  PropagatorFFT2.init reg x_axis y_axis kz_axis dt backend = Ok (p, s) ->
  nth 0 (kr2 p) 0 = 0.
Proof.
  intros E.
  destruct (fft2_init_inv _ _ _ _ _ _ _ _ E)
    as (_ & _ & _ & _ & _ & _ & Hx & Hy & _).
  destruct x_axis as [Lx Nx], y_axis as [Ly Ny]. cbn [snd] in Hx, Hy.
  destruct (init_xykxy_fft2_spectral Lx Ly Nx Ny Hx Hy)
    as (g & Eg & _ & _ & _ & _ & _ & _ & Hkx0 & Hky0 & Hsq).
  unfold PropagatorFFT2.init in E.
  destruct (init_backend reg backend); [|discriminate].
  cbn [bind fst snd] in E. rewrite Eg in E. cbn [bind] in E.
  injection E as <- _. cbn [kr2].
  replace 0%nat with (0 * Ny + 0)%nat at 1 by lia.
  rewrite Hsq by lia. rewrite Hkx0, Hky0. ring.
Qed.

Lemma fft2_step_row_const (Nx Ny : nat) (c : C) (dz : R) (phases : list R) :
  (1 <= Nx * Ny)%nat -> length phases = (Nx * Ny)%nat ->
  ifft2 Nx Ny
    (zip_with (fun u ph => (u * phase_factor dz (RtoC ph))%C)
       (fft2 Nx Ny (repeat c (Nx * Ny))) phases) =
  repeat (c * phase_factor dz (RtoC (nth 0 phases 0)))%C (Nx * Ny).
Proof.
  intros HN Hph.
  set (v := fft2 Nx Ny (repeat c (Nx * Ny))).
  set (pf0 := phase_factor dz (RtoC (nth 0 phases 0))).
  assert (Hv : length v = (Nx * Ny)%nat) by apply fft2_length.
  assert (Hz : zip_with (fun u ph => (u * phase_factor dz (RtoC ph))%C) v phases
               = lincomb pf0 C0 v v).
  { apply (nth_ext _ _ C0 C0).
    - rewrite zip_with_length by lia. now rewrite lincomb_length.
    - rewrite zip_with_length by lia. intros i Hi.
      rewrite (nth_zip_with _ _ _ _ C0 0) by lia.
      rewrite nth_lincomb by reflexivity.
      unfold v at 1 2 3. rewrite fft2_const, nth_tabulate2 by lia.
      destruct (Nat.eq_dec i 0) as [->|Hne].
      + fold pf0. ring.
      + assert (Hb : ((i / Ny =? 0) && (i mod Ny =? 0))%nat = false).
        { apply andb_false_iff.
          destruct (Nat.eqb_spec (i / Ny) 0) as [Hd|]; [|now left].
          destruct (Nat.eqb_spec (i mod Ny) 0) as [Hm|]; [|now right].
          exfalso. pose proof (Nat.div_mod_eq i Ny). lia. }
        rewrite Hb. ring. }
  rewrite Hz, ifft2_lincomb by reflexivity.
  unfold v. rewrite ifft2_fft2 by apply repeat_length.
  unfold lincomb. rewrite zip_with_repeat. f_equal. ring.
Qed.

(** On a [PropagatorFFT2] (on domains of non-zero size) a field that is
    uniform across the grid is a plane wave along [z]: [step] over [dz] multiplies every slice by the
    phase [exp(1j * dz * |kz|)] of its wavenumber and changes nothing
    else. *)
Theorem fft2_plane_wave (reg : Registry) (x_axis y_axis : R * nat)
    (kz_axis : kz_axis_t) (dt : DType) (backend : option string)
    (p : Propagator PropagatorFFT2.t) (s : Scratch)
    (c : C) (dz : R) (s0 : Scratch) :
  PropagatorFFT2.init reg x_axis y_axis kz_axis dt backend = Ok (p, s) ->
  fst x_axis <> 0 -> fst y_axis <> 0 ->
  exists w',
    step p dz false
      (mk_World s0
         (mk_ndarray dt (map (fun _ => repeat c (shape_trns p)) (kz p)))) =
    (Ok (Fresh (mk_ndarray dt
           (map (fun k => repeat (c * cis (dz * Rabs k))%C (shape_trns p))
              (kz p)))), w').
Proof.
  intros E _ _.
  destruct (fft2_init_inv _ _ _ _ _ _ _ _ E)
    as (Hd & _ & Hs & Hsn & HgNx & HgNy & Hx & Hy & Hwf & Hwfs).
  pose proof (fft2_init_on_axis _ _ _ _ _ _ _ _ E) as H0.
  set (u := mk_ndarray dt (map (fun _ => repeat c (shape_trns p)) (kz p))).
  assert (Hws : well_shaped p u).
  { split; cbn [u data].
    - now rewrite length_map.
    - apply Forall_forall. intros row Hin. apply in_map_iff in Hin.
      destruct Hin as (k & <- & _). apply repeat_length. }
  destruct (step_spec p dz (mk_World s0 u) Hwf Hws ltac:(cbn; congruence))
    as (w' & Estep & _).
  exists w'. rewrite Estep. cbn [arg u dtype data]. do 3 f_equal.
  unfold step_result, range, Nkz.
  rewrite <- (map_seq_nth
                (fun k => repeat (c * cis (dz * Rabs k))%C (shape_trns p))
                (kz p) 0).
  f_equal.
  apply map_ext_in. intros ikz Hikz. apply in_seq in Hikz.
  rewrite (nth_map_in _ _ _ 0) by lia.
  unfold step_row, step_spectrum.
  cbn [TST iTST PropagatorFFT2.transform snd].
  rewrite HgNx, HgNy, Hs.
  rewrite fft2_step_row_const.
  - f_equal. f_equal.
    rewrite (nth_map_in _ _ _ 0) by (destruct Hwfs as [_ Hk]; lia).
    rewrite H0, clamp_phase_on_axis. apply phase_factor_real.
  - nia.
  - rewrite length_map. destruct Hwfs as [_ Hk]. lia.
Qed.

Lemma fft2_plane_wave_witness :
  exists p s w',
    fft2_demo = Ok (p, s) /\
    step p 1 false
      (mk_World s (mk_ndarray complex128
                     (map (fun _ => repeat Ci (shape_trns p)) (kz p)))) =
    (Ok (Fresh (mk_ndarray complex128
           (map (fun k => repeat (Ci * cis (1 * Rabs k))%C (shape_trns p))
              (kz p)))), w').
Proof.
  destruct fft2_demo_session as (p & s & E & _).
  destruct (fft2_plane_wave _ _ _ _ _ _ p s Ci 1 s E R1_neq_R0 R1_neq_R0)
    as (w' & Hw).
  exists p, s, w'. split; assumption.
Defined.

(** ** The edge of a truncated radial grid *)

Lemma fold_left_Rmax_sorted (l : list R) :
  forall x : R,
    (forall i, (i < length l)%nat -> nth i (x :: l) 0 <= nth (S i) (x :: l) 0) ->
    fold_left Rbasic_fun.Rmax l x = last (x :: l) 0.
Proof.
  induction l as [|a l IH]; intros x Hs; [reflexivity|].
  cbn [fold_left].
  assert (Hxa : x <= a) by (apply (Hs 0%nat); simpl; lia).
  rewrite Rmax_right by exact Hxa.
  rewrite IH.
  - reflexivity.
  - intros i Hi. apply (Hs (S i)). simpl. lia.
Qed.

Lemma removelast_nth (l : list R) (i : nat) :
  (i < length l - 1)%nat -> nth i (removelast l) 0 = nth i l 0.
Proof.
  intros Hi.
  assert (Hf : removelast l = firstn (length l - 1) l).
  { replace (length l - 1)%nat with (Nat.pred (length l)) by lia.
    apply removelast_firstn_len. }
  rewrite Hf, nth_firstn. now rewrite (proj2 (Nat.ltb_lt _ _) Hi).
Qed.

Lemma last_as_nth (l : list R) :
  last l 0 = nth (length l - 1) l 0.
Proof.
  induction l as [|a [|b l] IH]; try reflexivity.
  change (last (a :: b :: l) 0) with (last (b :: l) 0). rewrite IH.
  cbn [length].
  replace (S (S (length l)) - 1)%nat with (S (length l)) by lia.
  replace (S (length l) - 1)%nat with (length l) by lia.
  reflexivity.
Qed.

Lemma index_nth (l : list R) (i : nat) (x : R) :
  index l i = Ok x -> x = nth i l 0 /\ (i < length l)%nat.
Proof.
  unfold index. destruct (nth_error l i) as [y|] eqn:E; [|discriminate].
  intros Ey. injection Ey as <-. split.
  - symmetry. now apply nth_error_nth.
  - apply nth_error_Some. now rewrite E.
Qed.

(** Mode order 0, roots in increasing order, [Rmax > 0]: the domain of a
    truncated [PropagatorSymmetric] ends at the first node that was
    dropped, [Rmax_new = r[Nr_new]]. *)
Theorem symmetric_truncation_edge (sp : Special) (reg : Registry)
    (Rmax : R) (Nr k : nat) (kz_axis : kz_axis_t) (dt : DType)
    (backend : option string)
    (p : Propagator PropagatorSymmetric.t) (s : Scratch) :
  PropagatorSymmetric.init sp reg (Rmax, Nr) kz_axis (Some k) 0 dt backend
    = Ok (p, s) ->
  0 < Rmax ->
  (forall i, (i < Nr)%nat ->
     nth i (jn_zeros sp 0 (Nr + 1)) 0 < nth (S i) (jn_zeros sp 0 (Nr + 1)) 0) ->
  (1 <= k < Nr)%nat /\
  PropagatorSymmetric.Rmax_new (trns p) =
    nth k (PropagatorSymmetric.r (trns p)) 0.
Proof.
  intros E HR Hinc.
  unfold PropagatorSymmetric.init in E.
  destruct (init_backend reg backend) as [bk|]; [|discriminate].
  cbn [bind fst snd] in E. rewrite init_r_symmetric_ok in E. cbn [bind] in E.
  rewrite init_kr_mode0 in E. cbn [bind g_alpha g_alpha_np1 g_kr g_kr2] in E.
  set (roots := jn_zeros sp 0 (Nr + 1)) in *.
  set (L := last roots 0) in *.
  set (alpha := removelast roots) in *.
  set (r := map (fun a => Rmax * a / L) alpha) in *.
  assert (Hroots : length roots = (Nr + 1)%nat) by apply jn_zeros_length.
  assert (Halpha : length alpha = Nr)
    by (unfold alpha; rewrite removelast_length; lia).
  assert (Hr : length r = Nr) by (unfold r; now rewrite length_map).
  assert (Hpos : forall i, (i <= Nr)%nat -> 0 < nth i roots 0).
  { intros i Hi. apply (jn_zeros_positive sp 0 (Nr + 1)).
    apply nth_In. fold roots. lia. }
  assert (HL : L = nth Nr roots 0).
  { unfold L. rewrite last_as_nth, Hroots. f_equal. lia. }
  assert (Hal : forall i, (i < Nr)%nat -> nth i alpha 0 = nth i roots 0).
  { intros i Hi. unfold alpha. apply removelast_nth. lia. }
  assert (Hrn : forall i, (i < Nr)%nat -> nth i r 0 = Rmax * nth i roots 0 / L).
  { intros i Hi. unfold r. rewrite (nth_map_in _ _ _ 0) by lia.
    now rewrite Hal. }
  unfold PropagatorSymmetric.output_grid in E.
  destruct (Nat.leb_spec Nr k) as [Hge|Hlt]; [discriminate|].
  destruct (firstn k r) as [|x l] eqn:Ef; [discriminate|].
  assert (Hk : (1 <= k)%nat).
  { destruct k; [discriminate Ef | lia]. }
  cbn [array_max bind] in E.
  destruct (index alpha k) as [a1|] eqn:E1; [|discriminate].
  cbn [bind] in E.
  destruct (index alpha (k - 1)) as [a0|] eqn:E0; [|discriminate].
  cbn [bind] in E. injection E as <- _.
  cbn [trns PropagatorSymmetric.Rmax_new PropagatorSymmetric.r].
  split; [lia|].
  destruct (index_nth _ _ _ E1) as [-> _].
  destruct (index_nth _ _ _ E0) as [-> _].
  rewrite !Hal by lia.
  assert (Hm : fold_left Rbasic_fun.Rmax l x = nth (k - 1) r 0).
  { rewrite fold_left_Rmax_sorted.
    - rewrite <- Ef, last_as_nth, length_firstn, Nat.min_l by lia.
      rewrite nth_firstn. now rewrite (proj2 (Nat.ltb_lt (k - 1) k)) by lia.
    - intros i Hi.
      assert (Hlen : length (x :: l) = k).
      { rewrite <- Ef, length_firstn. lia. }
      cbn [length] in Hlen.
      rewrite <- Ef, !nth_firstn.
      rewrite (proj2 (Nat.ltb_lt i k)), (proj2 (Nat.ltb_lt (S i) k)) by lia.
      rewrite !Hrn by lia.
      assert (HLpos : 0 < L) by (rewrite HL; apply Hpos; lia).
      apply Rmult_le_compat_r; [left; now apply Rinv_0_lt_compat|].
      apply Rmult_le_compat_l; [lra|]. left. apply Hinc. lia. }
  rewrite Hm, !Hrn by lia.
  replace (S (k - 1)) with k in * by lia.
  pose proof (Hpos (k - 1)%nat ltac:(lia)) as Ha0.
  assert (HLpos : 0 < L) by (rewrite HL; apply Hpos; lia).
  field. split; lra.
Qed.

Lemma trig_zeros_increasing (nt i : nat) :
  (S i < nt)%nat ->
  nth i (jn_zeros trig_special 0 nt) 0 < nth (S i) (jn_zeros trig_special 0 nt) 0.
Proof.
  intros Hi. cbn [jn_zeros trig_special]. unfold trig_jn_zeros.
  rewrite !(nth_map_in _ _ _ 0%nat) by (rewrite length_seq; lia).
  rewrite !seq_nth by lia. cbn [Nat.add Nat.eqb]. rewrite S_INR.
  pose proof PI_RGT_0. nra.
Qed.

Lemma truncated_demo_ok :
  exists p s,
    PropagatorSymmetric.init trig_special demo_registry (1, 3%nat)
      (KzArray [1]) (Some 2%nat) 0 complex128 None = Ok (p, s).
Proof.
  unfold PropagatorSymmetric.init. rewrite demo_backend.
  cbn [bind fst snd]. rewrite init_r_symmetric_ok. cbn [bind].
  rewrite init_kr_mode0.
  cbn [bind g_alpha g_alpha_np1 g_kr g_kr2 jn_zeros trig_special].
  unfold trig_jn_zeros.
  cbn [Nat.add seq map removelast last PropagatorSymmetric.output_grid
       Nat.leb firstn array_max index nth_error Nat.sub bind].
  eexists _, _. reflexivity.
Qed.

Lemma symmetric_truncation_edge_witness :
  exists p s,
    PropagatorSymmetric.init trig_special demo_registry (1, 3%nat)
      (KzArray [1]) (Some 2%nat) 0 complex128 None = Ok (p, s) /\
    (1 <= 2 < 3)%nat /\
    PropagatorSymmetric.Rmax_new (trns p) =
      nth 2 (PropagatorSymmetric.r (trns p)) 0.
Proof.
  destruct (PropagatorSymmetric.init trig_special demo_registry (1, 3%nat)
              (KzArray [1]) (Some 2%nat) 0 complex128 None)
    as [[p s]|e] eqn:E.
  - exists p, s. split; [reflexivity|].
    apply (symmetric_truncation_edge trig_special demo_registry 1 3 2
             (KzArray [1]) complex128 None p s E); [lra|].
    intros i Hi. apply trig_zeros_increasing. lia.
  - exfalso. destruct truncated_demo_ok as (p & s & E'). congruence.
Defined.

(** ** The longitudinal component of a plane wave *)

Lemma fft2_init_kxy (reg : Registry) (x_axis y_axis : R * nat)
    (kz_axis : kz_axis_t) (dt : DType) (backend : option string)
    (p : Propagator PropagatorFFT2.t) (s : Scratch) :
  PropagatorFFT2.init reg x_axis y_axis kz_axis dt backend = Ok (p, s) ->
  exists kx ky,
    kxy p = Some (kx, ky) /\
    length kx = snd x_axis /\ length ky = snd y_axis /\
    nth 0 kx 0 = 0.
Proof.
  intros E.
  destruct (fft2_init_inv _ _ _ _ _ _ _ _ E)
    as (_ & _ & _ & _ & _ & _ & Hx & Hy & _).
  destruct x_axis as [Lx Nx], y_axis as [Ly Ny]. cbn [snd] in *.
  destruct (init_xykxy_fft2_spectral Lx Ly Nx Ny Hx Hy)
    as (g & Eg & _ & _ & _ & _ & Hkx & Hky & Hkx0 & _).
  unfold PropagatorFFT2.init in E.
  destruct (init_backend reg backend); [|discriminate].
  cbn [bind fst snd] in E. rewrite Eg in E. cbn [bind] in E.
  injection E as <- _. cbn [kxy].
  exists (g_kx g), (g_ky g). repeat split; assumption.
Qed.

Lemma flat_map_grid_length {A B D : Type} (f : A -> B -> D) (a : list A)
    (b : list B) :
  length (flat_map (fun x => map (f x) b) a) = (length a * length b)%nat.
Proof.
  induction a as [|x a IH]; [reflexivity|].
  cbn [flat_map length]. rewrite length_app, length_map, IH. lia.
Qed.

Lemma fft2_zero (Nx Ny : nat) :
  fft2 Nx Ny (repeat C0 (Nx * Ny)) = repeat C0 (Nx * Ny).
Proof.
  rewrite fft2_const. apply (nth_ext _ _ C0 C0).
  - now rewrite tabulate2_length, repeat_length.
  - rewrite tabulate2_length. intros i Hi.
    rewrite nth_tabulate2, nth_repeat_lt by exact Hi.
    destruct ((i / Ny =? 0) && (i mod Ny =? 0)); [ring | reflexivity].
Qed.

Lemma ifft2_zero (Nx Ny : nat) :
  ifft2 Nx Ny (repeat C0 (Nx * Ny)) = repeat C0 (Nx * Ny).
Proof.
  rewrite <- (fft2_zero Nx Ny) at 1. apply ifft2_fft2, repeat_length.
Qed.

Lemma fft2_Ez_row_const (Nx Ny : nat) (c : C) (factor : list R) :
  (1 <= Nx * Ny)%nat -> length factor = (Nx * Ny)%nat ->
  nth 0 factor 0 = 0 ->
  ifft2 Nx Ny
    (zip_with (fun u f => Cscale f u) (fft2 Nx Ny (repeat c (Nx * Ny))) factor)
  = repeat C0 (Nx * Ny).
Proof.
  intros HN Hf H0.
  rewrite <- (ifft2_zero Nx Ny) at 1. f_equal.
  set (v := fft2 Nx Ny (repeat c (Nx * Ny))).
  assert (Hv : length v = (Nx * Ny)%nat) by apply fft2_length.
  apply (nth_ext _ _ C0 C0).
  - rewrite zip_with_length by lia. now rewrite repeat_length.
  - rewrite zip_with_length by lia. intros i Hi.
    rewrite (nth_zip_with _ _ _ _ C0 0) by lia.
    rewrite nth_repeat_lt by lia.
    destruct (Nat.eq_dec i 0) as [->|Hne].
    + rewrite H0. apply Cscale_0.
    + unfold v. rewrite fft2_const, nth_tabulate2 by lia.
      assert (Hb : ((i / Ny =? 0) && (i mod Ny =? 0))%nat = false).
      { apply andb_false_iff.
        destruct (Nat.eqb_spec (i / Ny) 0) as [Hd|]; [|now left].
        destruct (Nat.eqb_spec (i mod Ny) 0) as [Hm|]; [|now right].
        exfalso. pose proof (Nat.div_mod_eq i Ny). lia. }
      rewrite Hb. unfold Cscale, C0, RtoC. cbn [fst snd]. f_equal; ring.
Qed.

(** On a [PropagatorFFT2] (domains of non-zero size, no mode exactly at
    cut-off, so that [get_Ez] divides by no zero), a field that is
    uniform across the grid has no longitudinal component: [get_Ez]
    returns the zero field of its shape and type. *)
Theorem fft2_uniform_has_no_Ez (reg : Registry) (x_axis y_axis : R * nat)
    (kz_axis : kz_axis_t) (dt : DType) (backend : option string)
    (p : Propagator PropagatorFFT2.t) (s : Scratch)
    (c : C) (dtu : DType) (s0 : Scratch) :
  PropagatorFFT2.init reg x_axis y_axis kz_axis dt backend = Ok (p, s) ->
  fst x_axis <> 0 -> fst y_axis <> 0 ->
  (forall i j, (i < Nkz p)%nat -> (j < length (kr2 p))%nat ->
     (nth i (kz p) 0) ^ 2 <> nth j (kr2 p) 0) ->
  exists w',
    get_Ez p
      (mk_World s0
         (mk_ndarray dtu (map (fun _ => repeat c (shape_trns p)) (kz p)))) =
    (Ok (mk_ndarray dtu (map (fun _ => repeat C0 (shape_trns p)) (kz p))), w').
Proof.
  intros E _ _ _.
  destruct (fft2_init_inv _ _ _ _ _ _ _ _ E)
    as (Hd & _ & Hs & Hsn & HgNx & HgNy & Hx & Hy & Hwf & Hwfs).
  destruct (fft2_init_kxy _ _ _ _ _ _ _ _ E) as (kx & ky & Hk & Hlx & Hly & Hkx0).
  set (u := mk_ndarray dtu (map (fun _ => repeat c (shape_trns p)) (kz p))).
  assert (Hws : well_shaped p u).
  { split; cbn [u data].
    - now rewrite length_map.
    - apply Forall_forall. intros row Hin. apply in_map_iff in Hin.
      destruct Hin as (k & <- & _). apply repeat_length. }
  destruct (get_Ez_spec p (mk_World s0 u) kx ky Hwf Hws Hsn Hk) as (w' & Ew).
  exists w'. rewrite Ew. cbn [arg u dtype data]. do 2 f_equal. f_equal.
  unfold range, Nkz.
  rewrite <- (map_seq_nth (fun _ : R => repeat C0 (shape_trns p)) (kz p) 0).
  apply map_ext_in. intros ikz Hikz. apply in_seq in Hikz.
  rewrite (nth_map_in _ _ _ 0) by lia.
  unfold Ez_row. cbn [TST iTST PropagatorFFT2.transform snd].
  rewrite HgNx, HgNy, Hs.
  destruct Hwfs as [_ Hkr].
  assert (Hk2 : length (flat_map (fun kxp => map (fun _ : R => kxp * 1) ky) kx)
                = (snd x_axis * snd y_axis)%nat).
  { rewrite (flat_map_grid_length (fun kxp _ => kxp * 1)). now rewrite Hlx, Hly. }
  apply fft2_Ez_row_const.
  - nia.
  - rewrite zip_with_length; [exact Hk2|].
    rewrite Hk2, length_map. lia.
  - rewrite (nth_zip_with _ _ _ _ 0 0) by (rewrite ?Hk2, ?length_map; nia).
    assert (Hfirst : nth 0 (flat_map (fun kxp => map (fun _ : R => kxp * 1) ky) kx) 0
                     = 0).
    { destruct kx as [|a kx]; [simpl in Hlx; lia|].
      destruct ky as [|b ky]; [simpl in Hly; lia|].
      cbn [flat_map map app nth] in *. rewrite Hkx0. ring. }
    rewrite Hfirst. unfold Rdiv. ring.
Qed.

Lemma fft2_demo_off_cutoff :
  exists p s,
    fft2_demo = Ok (p, s) /\
    (forall i j, (i < Nkz p)%nat -> (j < length (kr2 p))%nat ->
       (nth i (kz p) 0) ^ 2 <> nth j (kr2 p) 0).
Proof.
  destruct fft2_demo_ok as (p & s & E & _).
  exists p, s. split; [exact E|].
  destruct (fft2_unit_grid [1] p s E) as [Hkz Hkr2].
  intros i j Hi Hj. unfold Nkz in Hi. rewrite Hkz in Hi. cbn in Hi.
  rewrite Hkr2 in *. rewrite Hkz. cbn in Hj.
  assert (Hi0 : i = 0%nat) by lia. subst i.
  pose proof PI2_3_2 as H3. 
  destruct j as [|[|[|[|j]]]]; cbn [nth]; try lia; nra.
Qed.

Lemma fft2_uniform_has_no_Ez_witness :
  exists p s w',
    fft2_demo = Ok (p, s) /\
    get_Ez p
      (mk_World s
         (mk_ndarray complex128 (map (fun _ => repeat Ci (shape_trns p)) (kz p)))) =
    (Ok (mk_ndarray complex128
           (map (fun _ => repeat C0 (shape_trns p)) (kz p))), w').
Proof.
  destruct fft2_demo_off_cutoff as (p & s & E & Hoff).
  destruct (fft2_uniform_has_no_Ez _ _ _ _ _ _ p s Ci complex128 s E
              R1_neq_R0 R1_neq_R0 Hoff) as (w' & Hw).
  exists p, s, w'. split; assumption.
Defined.


(** ** Round trips of the propagators the constructors build *)










(** *** The resampling strategy *)




(** *** The symmetric strategy *)




(** *** The FFT2 strategy *)



(** *** Built propagators for the examples *)











